(** * A shallow embedding of the modeler constraint workbench

    The repository re-implements one engine several times.  This file embeds

    - [artifacts/inception/gpt5/sketch-gpt5-0.py] and
      [artifacts/gpt5/sketch-gpt5-3.py]: the [Workbench] class (module
      [Workbench], the two files told apart by a [variant]),
    - [artifacts/gpt5/gpt5-synthesis-2.py]: [HybridWB] with branch
      hypotheses and [collapse_branches] (module [Synthesis2]),
    - [artifacts/inception/gpt5/gpt5-synthesis-3.py]: the minimal [HybridWB]
      (module [Synthesis3]).

    Conventions.  Python numbers are exact rationals [Q]; [==] on numbers is
    [Qeq].  A Python [dict] is an association list in insertion order with
    unique keys.  A method of a mutable object is a function from the state
    before the call to an [outcome] and the state after it; a raised
    exception keeps the mutations made before the [raise]. *)

From Stdlib Require Import Bool List String Ascii ZArith QArith Qabs Lia Lqa.
From Stdlib Require Import DecimalString DecimalNat.
Import ListNotations.

Set Warnings "-register-all".

Local Open Scope string_scope.
Local Open Scope Z_scope.

(** ** Exceptions and outcomes *)

Inductive exn_class :=
| KeyError | ValueError | TypeError | NameError | ZeroDivisionError
| SyntaxError | AttributeError | JSONDecodeError.

(** An exception object: its class and the message it was built with. *)
Record exn := Exn { exn_cls : exn_class; exn_msg : string }.

Inductive outcome (A : Type) :=
| Ok (a : A)
| Raise (e : exn).
Arguments Ok {A} a.
Arguments Raise {A} e.

Definition is_ok {A} (o : outcome A) : bool :=
  match o with Ok _ => true | Raise _ => false end.

Definition exn_class_eqb (a b : exn_class) : bool :=
  match a, b with
  | KeyError, KeyError | ValueError, ValueError | TypeError, TypeError
  | NameError, NameError | ZeroDivisionError, ZeroDivisionError
  | SyntaxError, SyntaxError | AttributeError, AttributeError
  | JSONDecodeError, JSONDecodeError => true
  | _, _ => false
  end.

(** ** Insertion-ordered dictionaries *)

Module Dict.
Section Ops.
Context {V : Type}.

Fixpoint get (k : string) (d : list (string * V)) : option V :=
  match d with
  | [] => None
  | (k', v) :: r => if String.eqb k k' then Some v else get k r
  end.

Definition mem (k : string) (d : list (string * V)) : bool :=
  match get k d with Some _ => true | None => false end.

(** [d[k] = v]: an existing key keeps its place, a new one goes last. *)
Fixpoint set (k : string) (v : V) (d : list (string * V)) : list (string * V) :=
  match d with
  | [] => [(k, v)]
  | (k', v') :: r =>
      if String.eqb k k' then (k', v) :: r else (k', v') :: set k v r
  end.

(** [del d[k]] for a key that is present; nothing changes otherwise. *)
Fixpoint del (k : string) (d : list (string * V)) : list (string * V) :=
  match d with
  | [] => []
  | (k', v') :: r => if String.eqb k k' then r else (k', v') :: del k r
  end.

Definition keys (d : list (string * V)) : list string := map fst d.
Definition values (d : list (string * V)) : list V := map snd d.
End Ops.
End Dict.

(** [d[k] = v] for each pair of [l], in order. *)
Definition upserts {V} (d l : list (string * V)) : list (string * V) :=
  fold_left (fun d kv => Dict.set (fst kv) (snd kv) d) l d.

(** ** Strings *)

(** [path.split(".", 1)] when ["." in path]: the text before the first dot
    and the text after it. *)
Fixpoint split_dot (s : string) : option (string * string) :=
  match s with
  | EmptyString => None
  | String c r =>
      if Ascii.eqb c "."%char then Some (EmptyString, r)
      else match split_dot r with
           | Some (a, b) => Some (String c a, b)
           | None => None
           end
  end.

(** [s.replace(pat, rep)] for a non-empty [pat]: every occurrence, scanning
    left to right without overlap.  [skip] counts the characters of a match
    still to be dropped. *)
Fixpoint replace_from (pat rep : string) (skip : nat) (s : string) : string :=
  match s with
  | EmptyString => EmptyString
  | String c r =>
      match skip with
      | S n => replace_from pat rep n r
      | O =>
          if String.prefix pat s
          then rep ++ replace_from pat rep (String.length pat - 1) r
          else String c (replace_from pat rep 0 r)
      end
  end.

Definition str_replace (pat rep s : string) : string := replace_from pat rep 0 s.

(** Truth value of a string: the empty string is false. *)
Definition truthy (s : string) : bool :=
  match s with EmptyString => false | _ => true end.

(** ** Values *)

Inductive value :=
| VNone
| VUnknown (hint : option string)
| VNum (x : Q)
| VStr (s : string)
| VInterval (lo hi : Q)
| VFun (name : string).

(** [Interval(lo, hi)] with its [__post_init__]: inverted bounds are swapped. *)
Definition Interval (lo hi : Q) : value :=
  if Qle_bool lo hi then VInterval lo hi else VInterval hi lo.

Definition is_interval (v : value) : bool :=
  match v with VInterval _ _ => true | _ => false end.

Definition is_numberlike (v : value) : bool :=
  match v with VNum _ => true | _ => false end.

Definition is_unknown (v : value) : bool :=
  match v with VUnknown _ => true | _ => false end.

Definition mid (lo hi : Q) : Q := (1 # 2) * (lo + hi).
Definition width (lo hi : Q) : Q := hi - lo.

(** Python's [==].  [Unknown] defines no [__eq__], so two [Unknown] objects
    are equal only when they are one object; the embedding has no object
    identity and reads every comparison of two [Unknown]s as made between
    distinct objects. *)
Definition py_eq (a b : value) : bool :=
  match a, b with
  | VNone, VNone => true
  | VNum x, VNum y => Qeq_bool x y
  | VStr s, VStr t => String.eqb s t
  | VInterval l h, VInterval l' h' => Qeq_bool l l' && Qeq_bool h h'
  | VFun f, VFun g => String.eqb f g
  | _, _ => false
  end.

Definition type_error (msg : string) : exn := Exn TypeError msg.

(** [Interval(v, v)] followed by the reads of [.lo] and [.hi] in arithmetic:
    the bounds of the promoted operand.  The constructor compares [v > v],
    which fails for [None], [Unknown] and functions; a string passes the
    constructor and fails at the first product with [strength]. *)
Definition promote (v : value) : outcome (Q * Q) :=
  match v with
  | VInterval lo hi => Ok (lo, hi)
  | VNum x => Ok (x, x)
  | VStr _ => Raise (type_error "can't multiply sequence by non-int of type 'float'")
  | _ => Raise (type_error "'>' not supported between instances")
  end.

(** [blend(old, target, strength)], lines 58-69 of sketch-gpt5-3.py (the same
    function as lines 63-78 of sketch-gpt5-0.py). *)
Definition blend (old target : value) (strength : Q) : outcome value :=
  match old with
  | VUnknown _ | VNone => Ok target
  | _ =>
      if is_interval old || is_interval target then
        match promote old with
        | Raise e => Raise e
        | Ok (olo, ohi) =>
            match promote target with
            | Raise e => Raise e
            | Ok (tlo, thi) =>
                let lo := ((1 - strength) * olo + strength * tlo)%Q in
                let hi := ((1 - strength) * ohi + strength * thi)%Q in
                Ok (Interval lo hi)
            end
        end
      else
        match old, target with
        | VNum a, VNum b => Ok (VNum ((1 - strength) * a + strength * b)%Q)
        | _, _ => Raise (type_error "unsupported operand type(s)")
        end
  end.

(** A Scalar or an Interval. *)
Definition numeric (v : value) : bool := is_numberlike v || is_interval v.

(** What every constructed [Interval] satisfies: [lo <= hi]. *)
Definition wf_value (v : value) : bool :=
  match v with VInterval lo hi => Qle_bool lo hi | _ => true end.

(** The operand as [blend] uses it next to [other]: promoted to a degenerate
    Interval when [other] is an Interval. *)
Definition beside (other v : value) : value :=
  match v, other with
  | VNum x, VInterval _ _ => VInterval x x
  | _, _ => v
  end.

(** The boundary identities in the words of the specification, for all
    Scalars and Intervals. *)
Definition blend_identities_as_specified : Prop :=
  forall old target : value,
    numeric old = true -> numeric target = true ->
    wf_value old = true -> wf_value target = true ->
    (exists r, blend old target 0 = Ok r /\ py_eq r old = true) /\
    (exists r, blend old target 1 = Ok r /\ py_eq r target = true).

(** ** The Python runtime taken as given *)

Inductive binop := Add | Sub | Mul | Div.

(** The expression fragment constraints are written in: literals, names,
    arithmetic and calls of the names of the evaluation environment. *)
Inductive expr :=
| ENum (x : Q)
| EStr (s : string)
| EName (n : string)
| ENeg (e : expr)
| EBin (op : binop) (a b : expr)
| ECall (f : string) (args : list expr).

(** What the embedding takes from the interpreter and the [math] module:
    [parse] reads an expression string ([None]: a [SyntaxError]), the others
    are [math.sqrt], [math.exp] and [math.log] on their domains. *)
Class runtime := {
  parse : string -> option expr;
  math_sqrt : Q -> Q;
  math_exp : Q -> Q;
  math_log : Q -> Q
}.

(** Which of the two files a definition follows where they differ. *)
Inductive variant := Sketch0 | Sketch3.
Existing Class variant.

Definition dec (n : nat) : string := NilZero.string_of_uint (Nat.to_uint n).

Definition dec_z (z : Z) : string :=
  if z <? 0 then "-" ++ dec (Z.to_nat (- z)) else dec (Z.to_nat z).

Definition Qlt_bool (a b : Q) : bool := negb (Qle_bool b a).

(** [min(a, b)] and [max(a, b)] of two numbers: the first argument wins a tie. *)
Definition qmin (a b : Q) : Q := if Qlt_bool b a then b else a.
Definition qmax (a b : Q) : Q := if Qlt_bool a b then b else a.

Module Workbench.
Section Engine.
Context {rt : runtime} {impl : variant}.

(** *** Core data structures *)

Record Node := mkNode {
  n_id : string;
  n_type : string;
  n_attrs : list (string * value)
}.

Record Edge := mkEdge {
  e_id : string;
  e_type : string;
  from_id : string;
  to_id : string;
  e_attrs : list (string * value)
}.

Record Constraint := mkConstraint {
  c_id : string;
  target : string;
  expr_src : string;
  strength : Q;
  note : option string
}.

(** A node pattern [{"var": .., "type": .., "where": {..}}]. *)
Record NodePattern := mkNodePattern {
  np_var : string;
  np_type : option string;
  np_where : list (string * value)
}.

(** An edge pattern [{"var": .., "type": .., "from": .., "to": .., "where": {..}}]. *)
Record EdgePattern := mkEdgePattern {
  ep_var : option string;
  ep_type : option string;
  ep_from : option string;
  ep_to : option string;
  ep_where : list (string * value)
}.

(** The body of an ["ensure_constraint"] action; an absent [note] is [None]
    and stands for the rule's name. *)
Record EnsureSpec := mkEnsure {
  es_target : string;
  es_expr : string;
  es_strength : option Q;
  es_note : option string
}.

(** An action is a dict; only its ["ensure_constraint"] entry is read. *)
Record Action := mkAction { ensure_constraint : option EnsureSpec }.

Record Rule := mkRule {
  r_name : string;
  node_patterns : list NodePattern;
  edge_patterns : list EdgePattern;
  actions : list Action
}.

(** A provenance entry: the operation and the version it produced.  The
    [args], [t] (wall-clock time) and [result] payloads are not represented. *)
Record ProvenanceEntry := mkEntry {
  pe_op : string;
  pe_version : Z
}.

Record Snapshot := mkSnapshot {
  s_nodes : list (string * Node);
  s_edges : list (string * Edge);
  s_constraints : list (string * Constraint)
}.

Record Workbench := mkWorkbench {
  nodes : list (string * Node);
  edges : list (string * Edge);
  constraints : list (string * Constraint);
  rules : list (string * Rule);
  version : Z;
  provenance : list ProvenanceEntry;
  snapshots : list (Z * Snapshot)
}.

(** [Workbench()] *)
Definition init : Workbench := mkWorkbench [] [] [] [] 0 [] [].

Definition with_nodes (wb : Workbench) (ns : list (string * Node)) : Workbench :=
  mkWorkbench ns (edges wb) (constraints wb) (rules wb) (version wb)
    (provenance wb) (snapshots wb).

Definition with_edges (wb : Workbench) (es : list (string * Edge)) : Workbench :=
  mkWorkbench (nodes wb) es (constraints wb) (rules wb) (version wb)
    (provenance wb) (snapshots wb).

Definition with_constraints (wb : Workbench) (cs : list (string * Constraint)) : Workbench :=
  mkWorkbench (nodes wb) (edges wb) cs (rules wb) (version wb)
    (provenance wb) (snapshots wb).

Definition with_rules (wb : Workbench) (rs : list (string * Rule)) : Workbench :=
  mkWorkbench (nodes wb) (edges wb) (constraints wb) rs (version wb)
    (provenance wb) (snapshots wb).

Definition with_log (wb : Workbench) (v : Z) (log : list ProvenanceEntry) : Workbench :=
  mkWorkbench (nodes wb) (edges wb) (constraints wb) (rules wb) v log
    (snapshots wb).

Definition with_snapshots (wb : Workbench) (ss : list (Z * Snapshot)) : Workbench :=
  mkWorkbench (nodes wb) (edges wb) (constraints wb) (rules wb) (version wb)
    (provenance wb) ss.

(** *** Methods as state transformers *)

Definition M (A : Type) : Type := Workbench -> outcome A * Workbench.

Definition ret {A} (a : A) : M A := fun wb => (Ok a, wb).

Definition raise {A} (e : exn) : M A := fun wb => (Raise e, wb).

Definition bind {A B} (m : M A) (k : A -> M B) : M B :=
  fun wb =>
    match m wb with
    | (Ok a, wb') => k a wb'
    | (Raise e, wb') => (Raise e, wb')
    end.

Definition get_self : M Workbench := fun wb => (Ok wb, wb).

Definition put_self (wb' : Workbench) : M unit := fun _ => (Ok tt, wb').

(** A call that only reads [self]. *)
Definition reading {A} (f : Workbench -> outcome A) : M A := fun wb => (f wb, wb).

(** [try: body  except <classes> as e: handler e] *)
Definition try_except {A} (catches : exn_class -> bool) (body : M A)
    (handler : exn -> M A) : M A :=
  fun wb =>
    match body wb with
    | (Ok a, wb') => (Ok a, wb')
    | (Raise e, wb') =>
        if catches (exn_cls e) then handler e wb' else (Raise e, wb')
    end.

(** Every class of [exn_class] derives from [Exception]. *)
Definition except_Exception (c : exn_class) : bool := true.
Definition except_KeyError (c : exn_class) : bool := exn_class_eqb c KeyError.

Notation "x <- m ;; k" := (bind m (fun x => k))
  (at level 61, m at next level, right associativity).
Notation "m ;;; k" := (bind m (fun _ => k))
  (at level 61, right associativity).

(** [_bump], lines 132-136 of sketch-gpt5-0.py. *)
Definition _bump (op : string) : M unit :=
  fun wb =>
    let v := version wb + 1 in
    (Ok tt, with_log wb v (provenance wb ++ [mkEntry op v])).

(** Where a path's attribute dict lives. *)
Inductive container := InNode (id : string) | InEdge (id : string).

Definition key_error (msg : string) : exn := Exn KeyError msg.
Definition value_error (msg : string) : exn := Exn ValueError msg.

(** [_resolve_container], lines 138-146: the container, its id and the key. *)
Definition _resolve_container (path : string) (wb : Workbench)
  : outcome (container * string) :=
  match split_dot path with
  | None =>
      Raise (key_error match impl with
                       | Sketch0 => "Invalid target path (missing '.'): " ++ path
                       | Sketch3 => "path needs '.'"
                       end)
  | Some (ent_id, key) =>
      if Dict.mem ent_id (nodes wb) then Ok (InNode ent_id, key)
      else if Dict.mem ent_id (edges wb) then Ok (InEdge ent_id, key)
      else Raise (key_error match impl with
                            | Sketch0 => "Entity not found for path: " ++ path
                            | Sketch3 => "Entity not found: " ++ ent_id
                            end)
  end.

Definition ent_id_of (c : container) : string :=
  match c with InNode i | InEdge i => i end.

(** The attribute dict a container refers to. *)
Definition attrs_of (c : container) (wb : Workbench) : list (string * value) :=
  match c with
  | InNode i => match Dict.get i (nodes wb) with Some n => n_attrs n | None => [] end
  | InEdge i => match Dict.get i (edges wb) with Some e => e_attrs e | None => [] end
  end.

(** [attrs[key] = v] through the reference [_resolve_container] returned. *)
Definition write_attr (c : container) (key : string) (v : value) (wb : Workbench)
  : Workbench :=
  match c with
  | InNode i =>
      match Dict.get i (nodes wb) with
      | Some n =>
          with_nodes wb
            (Dict.set i (mkNode (n_id n) (n_type n) (Dict.set key v (n_attrs n))) (nodes wb))
      | None => wb
      end
  | InEdge i =>
      match Dict.get i (edges wb) with
      | Some e =>
          with_edges wb
            (Dict.set i (mkEdge (e_id e) (e_type e) (from_id e) (to_id e)
                           (Dict.set key v (e_attrs e))) (edges wb))
      | None => wb
      end
  end.

(** [attrs.get(key, Unknown())] *)
Definition attr_or_unknown (key : string) (attrs : list (string * value)) : value :=
  match Dict.get key attrs with Some v => v | None => VUnknown None end.

(** [val], lines 148-156 of sketch-gpt5-0.py. *)
Definition val (path : string) : M value :=
  try_except except_KeyError
    (r <- reading (_resolve_container path) ;;
     wb <- get_self ;;
     let v := attr_or_unknown (snd r) (attrs_of (fst r) wb) in
     if is_unknown v then ret VNone else ret v)
    (fun _ => ret VNone).

(** The value [val] returns, for callers that only read. *)
Definition val_of (wb : Workbench) (path : string) : outcome value := fst (val path wb).


(** *** What the operations return *)

Record detail := mkDetail { d_rule : string; d_constraint : string }.

Record update := mkUpdate {
  u_constraint : string;
  u_target : string;
  u_value : value
}.

Record tick := mkTick { updates : list update; count : Z; delta : Q }.

Record contributor := mkContributor {
  x_id : string;
  x_expr : string;
  x_strength : Q;
  x_note : option string;
  x_current : value;
  x_expr_value : value
}.

Inductive retval :=
| RNode (id type : string) (attrs : list (string * value))
| REdge (id type from to : string) (attrs : list (string * value))
| RSet (entity key : string) (v : value)
| RId (id : string)
| RRemoved (id : option string)
| RName (name : string)
| RRules (applied : Z) (details : list detail)
| RTick (t : tick)
| RSim (steps total_updates : Z)
| RVersion (v : Z)
| RQuery (path : string) (v : value) (ver : Z)
| RNodes (found : list Node)
| RExplain (path : string) (contributors : list contributor)
| RDiff (entries : list ProvenanceEntry).

(** *** Graph store *)

(** [set_val], lines 158-161. *)
Definition set_val (path : string) (v : value) : M retval :=
  r <- reading (_resolve_container path) ;;
  wb <- get_self ;;
  put_self (write_attr (fst r) (snd r) v wb) ;;;
  ret (RSet (ent_id_of (fst r)) (snd r) v).

Definition or_empty {A} (o : option (list A)) : list A :=
  match o with Some l => l | None => [] end.

(** [create_node], lines 165-174.  [uuid] is the text [uuid.uuid4().hex[:6]]
    draws when no id is given. *)
Definition create_node (type : string) (id : option string)
    (attrs : option (list (string * value))) (uuid : string) : M retval :=
  let id := match id with Some i => i | None => "n_" ++ uuid end in
  wb <- get_self ;;
  if Dict.mem id (nodes wb) then
    raise (value_error match impl with
                       | Sketch0 => "Node id already exists: " ++ id
                       | Sketch3 => "node exists"
                       end)
  else
    put_self (with_nodes wb (Dict.set id (mkNode id type (or_empty attrs)) (nodes wb))) ;;;
    _bump "create_node" ;;;
    ret (RNode id type (or_empty attrs)).

(** The [while eid in self.edges] loop of [create_edge], cut after [fuel]
    rounds; [create_edge] allows one round more than there are edges, as
    many as there are candidates to try before one must be free. *)
Fixpoint free_edge_id (fuel : nat) (base eid : string) (i : nat)
    (es : list (string * Edge)) : string :=
  match fuel with
  | O => eid
  | S f =>
      if Dict.mem eid es
      then free_edge_id f base (base ++ "#" ++ dec i) (S i) es
      else eid
  end.

(** [create_edge], lines 176-193. *)
Definition create_edge (type from to : string) (id : option string)
    (attrs : option (list (string * value))) : M retval :=
  wb <- get_self ;;
  if negb (Dict.mem from (nodes wb)) || negb (Dict.mem to (nodes wb)) then
    raise (value_error match impl with
                       | Sketch0 => "from_id and to_id must be existing node ids"
                       | Sketch3 => "missing node(s)"
                       end)
  else
    let id :=
      match id with
      | Some i => i
      | None =>
          let base := from ++ "->" ++ to ++ ":" ++ type in
          free_edge_id (S (List.length (edges wb))) base base 1 (edges wb)
      end in
    if Dict.mem id (edges wb) then
      raise (value_error match impl with
                         | Sketch0 => "Edge id already exists: " ++ id
                         | Sketch3 => "edge exists"
                         end)
    else
      put_self (with_edges wb
                  (Dict.set id (mkEdge id type from to (or_empty attrs)) (edges wb))) ;;;
      _bump "create_edge" ;;;
      ret (REdge id type from to (or_empty attrs)).

(** [set_attr], lines 195-202. *)
Definition set_attr (tgt : string) (v : value) (confidence : option Q) : M retval :=
  res <- set_val tgt v ;;
  match confidence with
  | Some c =>
      r <- reading (_resolve_container tgt) ;;
      wb <- get_self ;;
      put_self (write_attr (fst r) (snd r ++ "__confidence") (VNum c) wb)
  | None => ret tt
  end ;;;
  _bump "set_attr" ;;;
  ret res.

(** [assert_constraint], lines 204-212 of sketch-gpt5-0.py (which refuses a
    taken id) and 174-178 of sketch-gpt5-3.py (which overwrites it). *)
Definition assert_constraint (tgt ex : string) (str : Q) (nt : option string)
    (id : option string) (uuid : string) : M retval :=
  let id := match id with Some i => i | None => "c_" ++ uuid end in
  wb <- get_self ;;
  if match impl with Sketch0 => Dict.mem id (constraints wb) | Sketch3 => false end then
    raise (value_error ("Constraint id already exists: " ++ id))
  else
    put_self (with_constraints wb
                (Dict.set id (mkConstraint id tgt ex str nt) (constraints wb))) ;;;
    _bump "assert_constraint" ;;;
    ret (RId id).

(** [upsert_constraint], lines 214-221: every field of an existing
    constraint is overwritten, a new one is added. *)
Definition upsert_constraint (id tgt ex : string) (str : Q) (nt : option string)
  : M retval :=
  wb <- get_self ;;
  put_self (with_constraints wb
              (Dict.set id (mkConstraint id tgt ex str nt) (constraints wb))) ;;;
  _bump "upsert_constraint" ;;;
  ret (RId id).

(** [remove_constraint], lines 223-228 of sketch-gpt5-0.py. *)
Definition remove_constraint (id : string) : M retval :=
  wb <- get_self ;;
  if Dict.mem id (constraints wb) then
    put_self (with_constraints wb (Dict.del id (constraints wb))) ;;;
    _bump "remove_constraint" ;;;
    ret (RRemoved (Some id))
  else ret (RRemoved None).

(** [define_rule], lines 230-234. *)
Definition define_rule (name : string) (nps : list NodePattern)
    (eps : list EdgePattern) (acts : list Action) : M retval :=
  wb <- get_self ;;
  put_self (with_rules wb (Dict.set name (mkRule name nps eps acts) (rules wb))) ;;;
  _bump "define_rule" ;;;
  ret (RName name).

(** *** Interval arithmetic *)

(** [Interval.__add__] (and [__radd__]), lines 30-34. *)
Definition interval_add (lo hi : Q) (other : value) : outcome value :=
  match other with
  | VInterval lo' hi' => Ok (Interval (lo + lo') (hi + hi'))
  | VNum x => Ok (Interval (lo + x) (hi + x))
  | _ => Raise (type_error "unsupported operand type(s) for +")
  end.

(** [Interval.__sub__], lines 35-38. *)
Definition interval_sub (lo hi : Q) (other : value) : outcome value :=
  match other with
  | VInterval lo' hi' => Ok (Interval (lo - hi') (hi - lo'))
  | VNum x => Ok (Interval (lo - x) (hi - x))
  | _ => Raise (type_error "unsupported operand type(s) for -")
  end.

(** [Interval.__rsub__], lines 39-42: [other - self]. *)
Definition interval_rsub (lo hi : Q) (other : value) : outcome value :=
  match other with
  | VInterval lo' hi' => Ok (Interval (lo' - hi) (hi' - lo))
  | VNum x => Ok (Interval (x - hi) (x - lo))
  | _ => Raise (type_error "unsupported operand type(s) for -")
  end.

(** [min] and [max] of a non-empty list of numbers. *)
Definition min_list (x : Q) (l : list Q) : Q := fold_left qmin l x.
Definition max_list (x : Q) (l : list Q) : Q := fold_left qmax l x.

(** [Interval.__mul__] (and [__rmul__]), lines 43-48. *)
Definition interval_mul (lo hi : Q) (other : value) : outcome value :=
  match other with
  | VInterval lo' hi' =>
      let candidates := [lo * hi'; hi * lo'; hi * hi']%Q in
      Ok (Interval (min_list (lo * lo')%Q candidates) (max_list (lo * lo')%Q candidates))
  | VNum x => Ok (Interval (qmin (lo * x) (hi * x)) (qmax (lo * x) (hi * x)))
  | _ => Raise (type_error "can't multiply sequence by non-int of type 'float'")
  end.

(** *** Expression evaluation *)

Definition zero_division : exn := Exn ZeroDivisionError "float division by zero".
Definition domain_error : exn := Exn ValueError "math domain error".
Definition name_error (n : string) : exn :=
  Exn NameError ("name '" ++ n ++ "' is not defined").

(** The names of the environment [_safe_eval] builds, lines 374-383. *)
Definition env_names : list string :=
  ["val"; "min"; "max"; "abs"; "sqrt"; "exp"; "log"; "Interval"].

Definition in_env (n : string) : bool := existsb (String.eqb n) env_names.

(** A binary operator on two values, through the operands' own methods. *)
Definition py_binop (op : binop) (a b : value) : outcome value :=
  match a, b with
  | VNum x, VNum y =>
      match op with
      | Add => Ok (VNum (x + y))
      | Sub => Ok (VNum (x - y))
      | Mul => Ok (VNum (x * y))
      | Div => if Qeq_bool y 0 then Raise zero_division else Ok (VNum (x / y))
      end
  | VInterval lo hi, _ =>
      match op with
      | Add => interval_add lo hi b
      | Sub => interval_sub lo hi b
      | Mul => interval_mul lo hi b
      | Div => Raise (type_error "unsupported operand type(s) for /")
      end
  | _, VInterval lo hi =>
      match op with
      | Add => interval_add lo hi a
      | Sub => interval_rsub lo hi a
      | Mul => interval_mul lo hi a
      | Div => Raise (type_error "unsupported operand type(s) for /")
      end
  | VStr s, VStr t =>
      match op with
      | Add => Ok (VStr (s ++ t))
      | _ => Raise (type_error "unsupported operand type(s)")
      end
  | _, _ => Raise (type_error "unsupported operand type(s)")
  end.

Definition all_nums (vs : list value) : option (list Q) :=
  fold_right (fun v acc =>
                match v, acc with
                | VNum x, Some l => Some (x :: l)
                | _, _ => None
                end) (Some []) vs.

Definition all_strs (vs : list value) : option (list string) :=
  fold_right (fun v acc =>
                match v, acc with
                | VStr s, Some l => Some (s :: l)
                | _, _ => None
                end) (Some []) vs.

Definition smin (a b : string) : string := if String.ltb b a then b else a.
Definition smax (a b : string) : string := if String.ltb a b then b else a.

Fixpoint chars (s : string) : list string :=
  match s with
  | EmptyString => []
  | String c r => String c EmptyString :: chars r
  end.

(** [min] and [max] of the arguments of a call: two or more numbers, two or more strings,
    or the characters of one string. *)
Definition py_minmax (is_min : bool) (vs : list value) : outcome value :=
  let pick_q := if is_min then min_list else max_list in
  let pick_s := fun x l => fold_left (if is_min then smin else smax) l x in
  match vs with
  | [] => Raise (type_error "expected at least 1 argument, got 0")
  | [VStr s] =>
      match chars s with
      | [] => Raise (value_error "arg is an empty sequence")
      | c :: cs => Ok (VStr (pick_s c cs))
      end
  | [_] => Raise (type_error "object is not iterable")
  | _ =>
      match all_nums vs, all_strs vs with
      | Some (x :: l), _ => Ok (VNum (pick_q x l))
      | _, Some (s :: l) => Ok (VStr (pick_s s l))
      | _, _ => Raise (type_error "'<' not supported between instances")
      end
  end.

(** A call of one of the environment's functions on evaluated arguments.
    [Interval] takes numbers, as its fields are annotated. *)
Definition call_env (wb : Workbench) (f : string) (vs : list value) : outcome value :=
  if String.eqb f "val" then
    match vs with
    | [VStr p] => val_of wb p
    | [_] => Raise (type_error "argument is not iterable")
    | _ => Raise (type_error "val() takes 1 positional argument")
    end
  else if String.eqb f "min" then py_minmax true vs
  else if String.eqb f "max" then py_minmax false vs
  else if String.eqb f "abs" then
    match vs with
    | [VNum x] => Ok (VNum (Qabs x))
    | [_] => Raise (type_error "bad operand type for abs()")
    | _ => Raise (type_error "abs() takes exactly one argument")
    end
  else if String.eqb f "sqrt" then
    match vs with
    | [VNum x] => if Qlt_bool x 0 then Raise domain_error else Ok (VNum (math_sqrt x))
    | [_] => Raise (type_error "must be real number")
    | _ => Raise (type_error "math.sqrt() takes exactly one argument")
    end
  else if String.eqb f "exp" then
    match vs with
    | [VNum x] => Ok (VNum (math_exp x))
    | [_] => Raise (type_error "must be real number")
    | _ => Raise (type_error "math.exp() takes exactly one argument")
    end
  else if String.eqb f "log" then
    match vs with
    | [VNum x] => if Qle_bool x 0 then Raise domain_error else Ok (VNum (math_log x))
    | [VNum x; VNum b] =>
        if Qle_bool x 0 || Qle_bool b 0 then Raise domain_error
        else if Qeq_bool (math_log b) 0 then Raise zero_division
        else Ok (VNum (math_log x / math_log b))
    | [_] | [_; _] => Raise (type_error "must be real number")
    | _ => Raise (type_error "log expected at most 2 arguments")
    end
  else if String.eqb f "Interval" then
    match vs with
    | [VNum lo; VNum hi] => Ok (Interval lo hi)
    | [_; _] => Raise (type_error "'>' not supported between instances")
    | _ => Raise (type_error "__init__() missing or extra positional arguments")
    end
  else Raise (name_error f).

(** [eval(expr, {"__builtins__": {}}, env)] on a parsed expression: the
    callee is looked up first, then the arguments are evaluated left to
    right. *)
Fixpoint eval_expr (wb : Workbench) (e : expr) : outcome value :=
  match e with
  | ENum x => Ok (VNum x)
  | EStr s => Ok (VStr s)
  | EName n => if in_env n then Ok (VFun n) else Raise (name_error n)
  | ENeg a =>
      match eval_expr wb a with
      | Ok (VNum x) => Ok (VNum (- x))
      | Ok _ => Raise (type_error "bad operand type for unary -")
      | Raise x => Raise x
      end
  | EBin op a b =>
      match eval_expr wb a with
      | Raise x => Raise x
      | Ok va =>
          match eval_expr wb b with
          | Raise x => Raise x
          | Ok vb => py_binop op va vb
          end
      end
  | ECall f args =>
      if in_env f then
        let fix eval_args (l : list expr) : outcome (list value) :=
          match l with
          | [] => Ok []
          | a :: r =>
              match eval_expr wb a with
              | Raise x => Raise x
              | Ok v =>
                  match eval_args r with
                  | Raise x => Raise x
                  | Ok vs => Ok (v :: vs)
                  end
              end
          end in
        match eval_args args with
        | Raise x => Raise x
        | Ok vs => call_env wb f vs
        end
      else Raise (name_error f)
  end.

(** [eval] on the source text: a text that does not parse is a [SyntaxError]. *)
Definition py_eval (src : string) (wb : Workbench) : outcome value :=
  match parse src with
  | None => Raise (Exn SyntaxError "invalid syntax")
  | Some e => eval_expr wb e
  end.

(** [_safe_eval], lines 373-387. *)
Definition _safe_eval (src : string) : M value :=
  try_except except_Exception (reading (py_eval src)) (fun _ => ret VNone).

Definition safe_eval_of (wb : Workbench) (src : string) : outcome value :=
  fst (_safe_eval src wb).

(** *** Rule engine *)

Definition type_ok (want : option string) (t : string) : bool :=
  match want with
  | Some w => if truthy w then String.eqb t w else true
  | None => true
  end.

(** [all(attrs.get(k) == v for k, v in where.items())] *)
Definition where_ok (wh attrs : list (string * value)) : bool :=
  forallb (fun kv =>
             py_eq (match Dict.get (fst kv) attrs with Some x => x | None => VNone end)
                   (snd kv)) wh.

(** [_node_candidates], lines 236-250. *)
Definition _node_candidates (pat : NodePattern) (wb : Workbench) : list string :=
  map n_id
    (filter (fun n => type_ok (np_type pat) (n_type n) && where_ok (np_where pat) (n_attrs n))
       (Dict.values (nodes wb))).

(** [var and env.get(var) and endpoint != env[var]] is false. *)
Definition endpoint_ok (var : option string) (env : list (string * string))
    (endpoint : string) : bool :=
  match var with
  | Some fv =>
      if truthy fv then
        match Dict.get fv env with
        | Some b => if truthy b then String.eqb endpoint b else true
        | None => true
        end
      else true
  | None => true
  end.

(** [_edge_candidates], lines 252-272; the edges themselves rather than
    their ids, which [_match_rule] looks up again at once. *)
Definition _edge_candidates (pat : EdgePattern) (env : list (string * string))
    (wb : Workbench) : list Edge :=
  filter (fun e =>
            type_ok (ep_type pat) (e_type e)
            && endpoint_ok (ep_from pat) env (from_id e)
            && endpoint_ok (ep_to pat) env (to_id e)
            && where_ok (ep_where pat) (e_attrs e))
    (Dict.values (edges wb)).

(** [if var and var not in env: env[var] = id] *)
Definition bind_if_free (var : option string) (id : string)
    (env : list (string * string)) : list (string * string) :=
  match var with
  | Some v => if truthy v && negb (Dict.mem v env) then Dict.set v id env else env
  | None => env
  end.

Definition in_values (id : string) (env : list (string * string)) : bool :=
  existsb (String.eqb id) (Dict.values env).

(** [backtrack_edges] of [_match_rule], lines 293-319: the environments
    yielded, each as it stands at its [yield], and the working dict as the
    generator leaves it.  The endpoint bindings an edge adds are not undone. *)
Fixpoint backtrack_edges (wb : Workbench) (pats : list EdgePattern) (j : nat)
    (env : list (string * string))
  : list (list (string * string)) * list (string * string) :=
  match pats with
  | [] => ([env], env)
  | pat :: rest =>
      let var := match ep_var pat with Some v => v | None => "e" ++ dec j end in
      fold_left
        (fun (st : list (list (string * string)) * list (string * string)) e =>
           let (ys, env0) := st in
           if match impl with Sketch0 => in_values (e_id e) env0 | Sketch3 => false end
           then (ys, env0)
           else
             let env1 := bind_if_free (ep_from pat) (from_id e) env0 in
             let env2 := bind_if_free (ep_to pat) (to_id e) env1 in
             let env3 := Dict.set var (e_id e) env2 in
             let (ys', env4) := backtrack_edges wb rest (S j) env3 in
             ((ys ++ ys')%list, Dict.del var env4))
        (_edge_candidates pat env wb) ([], env)
  end.

(** [backtrack_nodes] of [_match_rule], lines 280-291, over the shared
    [vars_env]; the edge search starts from a copy of it. *)
Fixpoint backtrack_nodes (wb : Workbench) (eps : list EdgePattern)
    (pats : list NodePattern) (vars_env : list (string * string))
  : list (list (string * string)) * list (string * string) :=
  match pats with
  | [] => (fst (backtrack_edges wb eps 0 vars_env), vars_env)
  | pat :: rest =>
      fold_left
        (fun (st : list (list (string * string)) * list (string * string)) nid =>
           let (ys, env0) := st in
           if in_values nid env0 then (ys, env0)
           else
             let (ys', env1) :=
               backtrack_nodes wb eps rest (Dict.set (np_var pat) nid env0) in
             ((ys ++ ys')%list, Dict.del (np_var pat) env1))
        (_node_candidates pat wb) ([], vars_env)
  end.

(** [_match_rule], lines 274-321: the environments in the order yielded. *)
Definition _match_rule (rule : Rule) (wb : Workbench) : list (list (string * string)) :=
  fst (backtrack_nodes wb (edge_patterns rule) (node_patterns rule) []).

(** [_format], lines 323-328. *)
Definition _format (template : string) (env : list (string * string)) : string :=
  fold_left (fun out kv => str_replace ("{" ++ fst kv ++ "}") (snd kv) out) env template.

Definition rule_cid (rule_name tgt : string) : string := "r:" ++ rule_name ++ ":" ++ tgt.

Definition default_strength (o : option Q) : Q :=
  match o with Some q => q | None => 1%Q end.

Definition default_note (o : option string) (rule_name : string) : option string :=
  match o with Some n => Some n | None => Some rule_name end.

(** The [for act in rule.actions] loop of [run_rules], lines 337-347. *)
Fixpoint apply_actions (rule_name : string) (env : list (string * string))
    (acts : list Action) (st : Z * list detail) : M (Z * list detail) :=
  match acts with
  | [] => ret st
  | act :: rest =>
      match ensure_constraint act with
      | Some spec =>
          let tgt := _format (es_target spec) env in
          let ex := _format (es_expr spec) env in
          let cid := rule_cid rule_name tgt in
          upsert_constraint cid tgt ex (default_strength (es_strength spec))
            (default_note (es_note spec) rule_name) ;;;
          apply_actions rule_name env rest
            (fst st + 1, (snd st ++ [mkDetail rule_name cid])%list)
      | None => apply_actions rule_name env rest st
      end
  end.

Definition limit_reached (limit : option Z) (applied : Z) : bool :=
  match limit with Some l => l <=? applied | None => false end.

(** The [for env in self._match_rule(rule)] loop, lines 334-347; reaching
    the limit leaves the loop. *)
Fixpoint match_loop (limit : option Z) (rule : Rule)
    (envs : list (list (string * string))) (st : Z * list detail)
  : M (Z * list detail) :=
  match envs with
  | [] => ret st
  | env :: rest =>
      if limit_reached limit (fst st) then ret st
      else
        st' <- apply_actions (r_name rule) env (actions rule) st ;;
        match_loop limit rule rest st'
  end.

Fixpoint rules_loop (limit : option Z) (rs : list Rule) (st : Z * list detail)
  : M (Z * list detail) :=
  match rs with
  | [] => ret st
  | rule :: rest =>
      wb <- get_self ;;
      st' <- match_loop limit rule (_match_rule rule wb) st ;;
      rules_loop limit rest st'
  end.

(** [run_rules], lines 330-349.  The [env] a detail record points to is the
    matcher's working dict and is left out of [detail]. *)
Definition run_rules (limit : option Z) : M (Z * list detail) :=
  wb <- get_self ;;
  st <- rules_loop limit (Dict.values (rules wb)) (0, []) ;;
  _bump "run_rules" ;;;
  ret st.

(** *** Propagation *)

Definition lift {A} (o : outcome A) : M A := fun wb => (o, wb).

(** The convergence measure of one write, lines 406-411. *)
Definition change_delta (current new_val : value) : Q :=
  match current, new_val with
  | VInterval lo hi, VInterval lo' hi' =>
      Qabs (mid lo' hi' - mid lo hi) + Qabs (width lo' hi' - width lo hi)
  | VNum a, VNum b => Qabs (b - a)
  | _, _ => 1
  end.

(** The body of the loop of [propagate_once], lines 392-411, for one
    constraint. *)
Definition propagate_constraint (cid : string) (c : Constraint)
    (acc : list update * Q) : M (list update * Q) :=
  target_value <- _safe_eval (expr_src c) ;;
  match target_value with
  | VNone => ret acc
  | _ =>
      r <- try_except except_KeyError
             (x <- reading (_resolve_container (target c)) ;; ret (Some x))
             (fun _ => ret None) ;;
      match r with
      | None => ret acc
      | Some (cont, key) =>
          wb <- get_self ;;
          let current := attr_or_unknown key (attrs_of cont wb) in
          new_val <- lift (blend current target_value (strength c)) ;;
          if negb (py_eq current new_val) then
            put_self (write_attr cont key new_val wb) ;;;
            ret ((fst acc ++ [mkUpdate cid (target c) new_val])%list,
                 (snd acc + change_delta current new_val)%Q)
          else ret acc
      end
  end.

Fixpoint propagate_loop (cs : list (string * Constraint)) (acc : list update * Q)
  : M (list update * Q) :=
  match cs with
  | [] => ret acc
  | (cid, c) :: rest =>
      acc' <- propagate_constraint cid c acc ;;
      propagate_loop rest acc'
  end.

(** [propagate_once], lines 389-414. *)
Definition propagate_once : M tick :=
  wb <- get_self ;;
  acc <- propagate_loop (constraints wb) ([], 0%Q) ;;
  _bump "propagate_once" ;;;
  ret (mkTick (fst acc) (Z.of_nat (List.length (fst acc))) (snd acc)).

Definition truthy_q (q : Q) : bool := negb (Qeq_bool q 0).

Definition truthy_steps (o : option Z) : bool :=
  match o with Some z => negb (z =? 0) | None => false end.

Definition steps_or_zero (o : option Z) : Z :=
  match o with Some z => z | None => 0 end.

(** The state of the [while] loop of [simulate]. *)
Record sim_state := mkSim {
  sim_ticks : Z;
  sim_steps : Z;
  sim_total : Z;
  sim_last : option Q
}.

(** [ticks > 0 or (max_steps and steps < max_steps)] *)
Definition sim_continue (max_steps : option Z) (st : sim_state) : bool :=
  (0 <? sim_ticks st) || (truthy_steps max_steps && (sim_steps st <? steps_or_zero max_steps)).

(** The [while] loop of [simulate], lines 420-431 of sketch-gpt5-0.py and
    284-288 of sketch-gpt5-3.py (where [max_steps] does not exist and is
    [None] here); [fuel] bounds the number of rounds. *)
Fixpoint sim_loop (fuel : nat) (until_delta : Q) (max_steps : option Z)
    (st : sim_state) : M sim_state :=
  match fuel with
  | O => ret st
  | S f =>
      if sim_continue max_steps st then
        r <- propagate_once ;;
        let st1 := mkSim (sim_ticks st - 1) (sim_steps st + 1)
                     (sim_total st + count r) (sim_last st) in
        if truthy_q until_delta && Qle_bool (delta r) until_delta then ret st1
        else if truthy_steps max_steps && (steps_or_zero max_steps <=? sim_steps st1)
        then ret st1
        else if (count r =? 0)
                && match sim_last st with Some d => Qeq_bool d 0 | None => true end
        then ret st1
        else sim_loop f until_delta max_steps
               (mkSim (sim_ticks st1) (sim_steps st1) (sim_total st1) (Some (delta r)))
      else ret st
  end.

(** Rounds after which the loop condition is false whatever happened. *)
Definition sim_fuel (ticks : Z) (max_steps : option Z) : nat :=
  Z.to_nat (Z.max ticks (steps_or_zero max_steps)).

(** [simulate], lines 416-434 of sketch-gpt5-0.py and 282-290 of
    sketch-gpt5-3.py: the steps taken and the updates made. *)
Definition simulate (ticks : Z) (until_delta : Q) (max_steps : option Z) : M (Z * Z) :=
  st <- sim_loop (sim_fuel ticks max_steps) until_delta max_steps
          (mkSim ticks 0 0 None) ;;
  _bump "simulate" ;;;
  ret (sim_steps st, sim_total st).

(** *** Queries, explain and diffs *)

(** [query_attr], lines 437-441 of sketch-gpt5-0.py (the record was built
    before the bump) and 293-295 of sketch-gpt5-3.py (the returned record is
    built after it). *)
Definition query_attr (path : string) : M (string * value * Z) :=
  v <- val path ;;
  before <- get_self ;;
  _bump "query_attr" ;;;
  after <- get_self ;;
  ret (path, v, match impl with
                | Sketch0 => version before
                | Sketch3 => version after
                end).

(** [query_nodes], lines 443-457 of sketch-gpt5-0.py. *)
Definition query_nodes (type : option string) (wh : option (list (string * value)))
  : M (list Node) :=
  wb <- get_self ;;
  let out := filter (fun n => type_ok type (n_type n) && where_ok (or_empty wh) (n_attrs n))
               (Dict.values (nodes wb)) in
  _bump "query_nodes" ;;;
  ret out.

Fixpoint explain_loop (path : string) (cs : list Constraint) : M (list contributor) :=
  match cs with
  | [] => ret []
  | c :: rest =>
      if String.eqb (target c) path then
        cur <- val path ;;
        ev <- _safe_eval (expr_src c) ;;
        more <- explain_loop path rest ;;
        ret (mkContributor (c_id c) (expr_src c) (strength c) (note c) cur ev :: more)
      else explain_loop path rest
  end.

(** [explain], lines 459-469. *)
Definition explain (path : string) : M (list contributor) :=
  wb <- get_self ;;
  explains <- explain_loop path (Dict.values (constraints wb)) ;;
  _bump "explain" ;;;
  ret explains.

(** [diff], lines 471-483: the entries themselves stand for the rows built
    from them. *)
Definition diff (since_version : Z) : M (list ProvenanceEntry) :=
  wb <- get_self ;;
  let diffs := filter (fun pe => since_version <? pe_version pe) (provenance wb) in
  _bump "diff" ;;;
  ret diffs.

(** *** Snapshots (sketch-gpt5-0.py) *)

Fixpoint zget {V} (k : Z) (d : list (Z * V)) : option V :=
  match d with
  | [] => None
  | (k', v) :: r => if k =? k' then Some v else zget k r
  end.

Fixpoint zset {V} (k : Z) (v : V) (d : list (Z * V)) : list (Z * V) :=
  match d with
  | [] => [(k, v)]
  | (k', v') :: r => if k =? k' then (k', v) :: r else (k', v') :: zset k v r
  end.

(** [snapshot], lines 351-359. *)
Definition snapshot : M Z :=
  wb <- get_self ;;
  put_self (with_snapshots wb
              (zset (version wb) (mkSnapshot (nodes wb) (edges wb) (constraints wb))
                 (snapshots wb))) ;;;
  _bump "snapshot" ;;;
  after <- get_self ;;
  ret (version after).

(** [revert], lines 361-369. *)
Definition revert (v : Z) : M Z :=
  wb <- get_self ;;
  match zget v (snapshots wb) with
  | None => raise (value_error ("No snapshot for version " ++ dec_z v))
  | Some snap =>
      put_self (with_constraints
                  (with_edges (with_nodes wb (s_nodes snap)) (s_edges snap))
                  (s_constraints snap)) ;;;
      _bump "revert" ;;;
      after <- get_self ;;
      ret (version after)
  end.

(** *** The JSONL command runner *)

(** A call of a public operation with keyword arguments of the annotated
    types.  Where the source draws a fresh id, the text drawn is an argument. *)
Inductive command :=
| CreateNode (type : string) (id : option string)
    (attrs : option (list (string * value))) (uuid : string)
| CreateEdge (type from to : string) (id : option string)
    (attrs : option (list (string * value)))
| SetAttr (tgt : string) (v : value) (confidence : option Q)
| AssertConstraint (tgt ex : string) (str : Q) (nt : option string)
    (id : option string) (uuid : string)
| UpsertConstraint (id tgt ex : string) (str : Q) (nt : option string)
| RemoveConstraint (id : string)
| DefineRule (name : string) (nps : list NodePattern) (eps : list EdgePattern)
    (acts : list Action)
| RunRules (limit : option Z)
| TakeSnapshot
| Revert (v : Z)
| PropagateOnce
| Simulate (ticks : Z) (until_delta : Q) (max_steps : option Z)
| QueryAttr (path : string)
| QueryNodes (type : option string) (wh : option (list (string * value)))
| Explain (path : string)
| Diff (since_version : Z).

Definition op_name (c : command) : string :=
  match c with
  | CreateNode _ _ _ _ => "create_node"
  | CreateEdge _ _ _ _ _ => "create_edge"
  | SetAttr _ _ _ => "set_attr"
  | AssertConstraint _ _ _ _ _ _ => "assert_constraint"
  | UpsertConstraint _ _ _ _ _ => "upsert_constraint"
  | RemoveConstraint _ => "remove_constraint"
  | DefineRule _ _ _ _ => "define_rule"
  | RunRules _ => "run_rules"
  | TakeSnapshot => "snapshot"
  | Revert _ => "revert"
  | PropagateOnce => "propagate_once"
  | Simulate _ _ _ => "simulate"
  | QueryAttr _ => "query_attr"
  | QueryNodes _ _ => "query_nodes"
  | Explain _ => "explain"
  | Diff _ => "diff"
  end.

(** One line of a batch, as [run_commands] meets it:
    - [Blank]: [line.strip()] is empty;
    - [NotJson]: [json.loads] raises;
    - [NotObject]: the JSON value is no object, [cmd.get] raises;
    - [NoOp]: an object without a string under ["op"], [hasattr] raises;
    - [Call c]: an object whose ["op"] is [op_name c] and whose other
      entries are the keyword arguments of [c];
    - [Other op]: an object whose ["op"] is [op] and whose other entries do
      not make a call: [op] is no attribute, or the attribute is not
      callable, or it does not take these keywords. *)
Inductive line :=
| Blank
| NotJson
| NotObject
| NoOp
| Call (c : command)
| Other (op : string).

(** The text an output record carries under ["error"]. *)
Inductive error_text :=
| Literal (s : string)
| StrOf (e : exn).

(** An output record; an absent key is [None]. *)
Record outrec := mkOut {
  o_ok : option bool;
  o_op : option string;
  o_result : option retval;
  o_error : option error_text;
  o_cmd : option line
}.

(** The attributes every object has. *)
Definition object_attrs : list string :=
  ["__class__"; "__delattr__"; "__dict__"; "__dir__"; "__doc__"; "__eq__";
   "__format__"; "__ge__"; "__getattribute__"; "__getstate__"; "__gt__";
   "__hash__"; "__init__"; "__init_subclass__"; "__le__"; "__lt__";
   "__module__"; "__ne__"; "__new__"; "__reduce__"; "__reduce_ex__";
   "__repr__"; "__setattr__"; "__sizeof__"; "__str__"; "__subclasshook__";
   "__weakref__"].

Definition data_attrs : list string :=
  ["nodes"; "edges"; "constraints"; "rules"; "version"; "provenance"; "snapshots"].

(** The methods the class body defines. *)
Definition method_attrs : list string :=
  match impl with
  | Sketch0 =>
      ["_bump"; "_resolve_container"; "val"; "set_val"; "create_node";
       "create_edge"; "set_attr"; "assert_constraint"; "upsert_constraint";
       "remove_constraint"; "define_rule"; "_node_candidates";
       "_edge_candidates"; "_match_rule"; "_format"; "run_rules"; "snapshot";
       "revert"; "_safe_eval"; "propagate_once"; "simulate"; "query_attr";
       "query_nodes"; "explain"; "diff"; "run_commands"]
  | Sketch3 =>
      ["_bump"; "_resolve_container"; "val"; "set_val"; "create_node";
       "create_edge"; "set_attr"; "assert_constraint"; "upsert_constraint";
       "define_rule"; "_node_candidates"; "_edge_candidates"; "_match_rule";
       "_fmt"; "run_rules"; "_safe_eval"; "propagate_once"; "simulate";
       "query_attr"; "explain"; "diff"; "run_commands"; "fork";
       "compare_scenarios"]
  end.

(** [hasattr(self, op)] *)
Definition hasattr (op : string) : bool :=
  existsb (String.eqb op) (method_attrs ++ data_attrs ++ object_attrs)%list.

(** [getattr(self, op)( **args )] for a [Call]. *)
Definition invoke (c : command) : M retval :=
  match c with
  | CreateNode t i a u => create_node t i a u
  | CreateEdge t f o i a => create_edge t f o i a
  | SetAttr p v cf => set_attr p v cf
  | AssertConstraint p x s n i u => assert_constraint p x s n i u
  | UpsertConstraint i p x s n => upsert_constraint i p x s n
  | RemoveConstraint i => remove_constraint i
  | DefineRule n nps eps acts => define_rule n nps eps acts
  | RunRules l => st <- run_rules l ;; ret (RRules (fst st) (snd st))
  | TakeSnapshot => v <- snapshot ;; ret (RVersion v)
  | Revert v => v' <- revert v ;; ret (RVersion v')
  | PropagateOnce => t <- propagate_once ;; ret (RTick t)
  | Simulate t u m =>
      match impl, m with
      | Sketch3, Some _ =>
          raise (type_error "simulate() got an unexpected keyword argument 'max_steps'")
      | _, _ => r <- simulate t u m ;; ret (RSim (fst r) (snd r))
      end
  | QueryAttr p => r <- query_attr p ;; ret (RQuery (fst (fst r)) (snd (fst r)) (snd r))
  | QueryNodes t w => ns <- query_nodes t w ;; ret (RNodes ns)
  | Explain p => xs <- explain p ;; ret (RExplain p xs)
  | Diff v => ds <- diff v ;; ret (RDiff ds)
  end.

(** The record for an op that is no attribute, line 495 of
    sketch-gpt5-0.py and line 315 of sketch-gpt5-3.py. *)
Definition unknown_record (l : line) (op : string) : outrec :=
  match impl with
  | Sketch0 => mkOut None None None (Some (Literal ("Unknown op: " ++ op))) (Some l)
  | Sketch3 => mkOut (Some false) None None (Some (Literal "unknown op")) (Some l)
  end.

Definition ok_record (op : string) (res : retval) : outrec :=
  mkOut (Some true) (Some op) (Some res) None None.

Definition error_record (l : line) (op : string) (e : exn) : outrec :=
  mkOut (Some false) (Some op) None (Some (StrOf e))
    match impl with Sketch0 => Some l | Sketch3 => None end.

(** The call of a line that names an attribute: what [fn( **args )] does. *)
Definition call_line (l : line) : M retval :=
  match l with
  | Call c => invoke c
  | _ => raise (type_error "object is not callable or got an unexpected keyword argument")
  end.

(** The loop of [run_commands], lines 486-503 of sketch-gpt5-0.py and
    310-320 of sketch-gpt5-3.py, over the lines of the stripped text. *)
Fixpoint run_lines (ls : list line) (outputs : list outrec) : M (list outrec) :=
  match ls with
  | [] => ret outputs
  | l :: rest =>
      match l with
      | Blank => run_lines rest outputs
      | NotJson => raise (Exn JSONDecodeError "Expecting value")
      | NotObject => raise (Exn AttributeError "object has no attribute 'get'")
      | NoOp => raise (type_error "attribute name must be string, not 'NoneType'")
      | Call _ | Other _ =>
          let op := match l with Call c => op_name c | Other o => o | _ => "" end in
          if negb (hasattr op) then
            run_lines rest (outputs ++ [unknown_record l op])
          else
            out <- try_except except_Exception
                     (res <- call_line l ;; ret (ok_record op res))
                     (fun e => ret (error_record l op e)) ;;
            run_lines rest (outputs ++ [out])
      end
  end.

Definition run_commands (jsonl : list line) : M (list outrec) := run_lines jsonl [].

(** *** Fork and compare (sketch-gpt5-3.py) *)

(** [fork], lines 323-324.  [deepcopy(self)] builds a second object graph
    that shares nothing with the first; as a value it is the state itself. *)
Definition fork : M Workbench := get_self.

(** A method call on another workbench object: [self] is not touched. *)
Definition call_on {A} (obj : Workbench) (m : M A) : M (A * Workbench) :=
  fun self =>
    match m obj with
    | (Ok a, obj') => (Ok (a, obj'), self)
    | (Raise e, _) => (Raise e, self)
    end.

Record scenario := mkScenario {
  sc_name : option string;
  sc_jsonl : list line
}.

(** [simulate_kwargs]: the keywords given; an empty dict is false. *)
Record sim_kwargs := mkSimKwargs {
  k_ticks : option Z;
  k_until_delta : option Q
}.

Definition kwargs_given (k : option sim_kwargs) : option sim_kwargs :=
  match k with
  | Some (mkSimKwargs None None) => None
  | _ => k
  end.

Fixpoint query_loop (queries : list string) (row : list (string * value))
  : M (list (string * value)) :=
  match queries with
  | [] => ret row
  | q :: rest =>
      r <- query_attr q ;;
      query_loop rest (Dict.set q (snd (fst r)) row)
  end.

(** The body of the loop of [compare_scenarios], lines 331-337, run with the
    fork as [self]. *)
Definition scenario_body (base_version : Z) (sc : scenario) (queries : list string)
    (kwargs : option sim_kwargs) : M (list (string * value)) :=
  match sc_jsonl sc with
  | [] => ret tt
  | ls => run_commands ls ;;; ret tt
  end ;;;
  match kwargs_given kwargs with
  | Some k =>
      simulate (match k_ticks k with Some t => t | None => 1 end)
        (match k_until_delta k with Some d => d | None => 0%Q end) None ;;;
      ret tt
  | None => ret tt
  end ;;;
  row <- query_loop queries
           [("scenario", VStr match sc_name sc with Some n => n | None => "unnamed" end)] ;;
  d <- diff base_version ;;
  ret (Dict.set "_ops_since_base" (VNum (inject_Z (Z.of_nat (List.length d)))) row).

Fixpoint compare_loop (base_version : Z) (queries : list string)
    (kwargs : option sim_kwargs) (scs : list scenario)
    (results : list (list (string * value))) : M (list (list (string * value))) :=
  match scs with
  | [] => ret results
  | sc :: rest =>
      wb2 <- fork ;;
      row <- call_on wb2 (scenario_body base_version sc queries kwargs) ;;
      compare_loop base_version queries kwargs rest (results ++ [fst row])
  end.

(** [compare_scenarios], lines 326-339. *)
Definition compare_scenarios (scenarios : list scenario) (queries : list string)
    (kwargs : option sim_kwargs) : M (list (list (string * value))) :=
  wb <- get_self ;;
  compare_loop (version wb) queries kwargs scenarios [].

(** *** Grounded answers (sketch-gpt5-3.py) *)

(** An [AnswerContext], lines 342-355.  Its [wb] is the workbench its
    methods run on: the object is shared, not copied. *)
Record AnswerContext := mkContext {
  a_label : string;
  start_version : Z;
  _queries : list (string * value * Z)
}.

(** What [commit] returns. *)
Record grounded := mkGrounded {
  g_label : string;
  g_text : string;
  g_queries : list (string * value * Z);
  g_diffs : list ProvenanceEntry;
  g_since_version : Z;
  g_final_version : Z
}.

(** [begin_answer], lines 357-358, with [AnswerContext.__init__]. *)
Definition begin_answer (label : string) : M AnswerContext :=
  wb <- get_self ;;
  ret (mkContext label (version wb) []).

(** [AnswerContext.query], lines 345-346: the value, and the context with
    the record appended. *)
Definition query (ctx : AnswerContext) (path : string) : M (value * AnswerContext) :=
  res <- query_attr path ;;
  ret (snd (fst res),
       mkContext (a_label ctx) (start_version ctx) (_queries ctx ++ [res])).

(** [AnswerContext.commit], lines 347-355; the entries of the dict are
    evaluated in order, [final_version] after the call of [diff]. *)
Definition commit (ctx : AnswerContext) (text : string) : M grounded :=
  d <- diff (start_version ctx) ;;
  wb <- get_self ;;
  ret (mkGrounded (a_label ctx) text (_queries ctx) d (start_version ctx) (version wb)).

(** *** The provenance log as a specification reads it *)

(** The entries [_bump] appends for the operations [ops], from version [v]. *)
Fixpoint entries_from (v : Z) (ops : list string) : list ProvenanceEntry :=
  match ops with
  | [] => []
  | op :: rest => mkEntry op (v + 1) :: entries_from (v + 1) rest
  end.

(** [wb'] has the log of [wb]. *)
Definition same_log (wb wb' : Workbench) : Prop :=
  version wb' = version wb /\ provenance wb' = provenance wb.

(** [wb'] has the log of [wb] extended by bumps, one entry and one version
    each. *)
Definition log_step (wb wb' : Workbench) : Prop :=
  exists ops,
    version wb' = version wb + Z.of_nat (List.length ops)
    /\ provenance wb' = (provenance wb ++ entries_from (version wb) ops)%list.

(** The log of a workbench that was only ever changed by its methods, with
    no entry removed: entry [i] carries version [i]. *)
Definition log_ok (wb : Workbench) : Prop :=
  exists ops,
    version wb = Z.of_nat (List.length ops) /\ provenance wb = entries_from 0 ops.

(** The entries [diff] is specified to return. *)
Definition newer_than (v : Z) (log : list ProvenanceEntry) : list ProvenanceEntry :=
  filter (fun pe => v <? pe_version pe) log.

(** The graph and everything else but the log. *)
Definition same_content (wb wb' : Workbench) : Prop :=
  nodes wb' = nodes wb /\ edges wb' = edges wb /\ constraints wb' = constraints wb
  /\ rules wb' = rules wb /\ snapshots wb' = snapshots wb.

(** How many times a call that returned [r] bumped the version: once,
    except that [run_rules] also upserts once per applied action,
    [simulate] also ticks once per step, and [remove_constraint] of an id
    that is not there changes nothing. *)
Definition bumps_of (c : command) (r : retval) : Z :=
  match c, r with
  | RunRules _, RRules applied _ => applied + 1
  | Simulate _ _ _, RSim steps _ => steps + 1
  | RemoveConstraint _, RRemoved None => 0
  | _, _ => 1
  end.

(** "Every mutating call increases [version] by exactly 1", for the calls a
    batch can make. *)
Definition version_steps_as_specified : Prop :=
  forall (c : command) (wb wb' : Workbench) (r : retval),
    invoke c wb = (Ok r, wb') -> wb' <> wb -> version wb' = version wb + 1.

(** [wb'] is [wb] after one bump under the name [op] and nothing else. *)
Definition logged_once (op : string) (wb wb' : Workbench) : Prop :=
  version wb' = version wb + 1
  /\ provenance wb' = (provenance wb ++ [mkEntry op (version wb + 1)])%list
  /\ same_content wb wb'.

(** The one way an exception leaves a tick: some constraint's expression
    evaluated to a value, its target resolved, and [blend] raised [e] on the
    target's current value and that value. *)
Definition blend_failure (cs : list (string * Constraint)) (e : exn) : Prop :=
  exists cid c wb1 tv cont key,
    In (cid, c) cs
    /\ py_eval (expr_src c) wb1 = Ok tv
    /\ _resolve_container (target c) wb1 = Ok (cont, key)
    /\ blend (attr_or_unknown key (attrs_of cont wb1)) tv (strength c) = Raise e.

(** Rounds the loop of [simulate] can still take from [st]. *)
Definition sim_measure (max_steps : option Z) (st : sim_state) : nat :=
  Z.to_nat (Z.max (sim_ticks st) (steps_or_zero max_steps - sim_steps st)).

(** *** The stopping rule of [simulate], as a specification reads it *)

(** The rule the code applies after a tick [r], [last] being the delta of
    the tick before it: the threshold test counts only for a threshold other
    than 0, and a tick without updates stops the run when the tick before it
    had delta 0 or when there was no tick before it. *)
Definition stops (until_delta : Q) (last : option Q) (r : tick) : bool :=
  (truthy_q until_delta && Qle_bool (delta r) until_delta)
  || ((count r =? 0) && match last with Some d => Qeq_bool d 0 | None => true end).

(** A run of [simulate] without [max_steps]: from [wb] with [ticks] left it
    takes [steps] ticks that make [total] updates and ends in [wb']. *)
Inductive sim_run (until_delta : Q)
  : Z -> option Q -> Workbench -> Z -> Z -> Workbench -> Prop :=
| run_budget ticks last wb :
    ticks <= 0 -> sim_run until_delta ticks last wb 0 0 wb
| run_stop ticks last wb r wb1 :
    0 < ticks ->
    propagate_once wb = (Ok r, wb1) ->
    stops until_delta last r = true ->
    sim_run until_delta ticks last wb 1 (count r) wb1
| run_go ticks last wb r wb1 n tot wb2 :
    0 < ticks ->
    propagate_once wb = (Ok r, wb1) ->
    stops until_delta last r = false ->
    sim_run until_delta (ticks - 1) (Some (delta r)) wb1 n tot wb2 ->
    sim_run until_delta ticks last wb (n + 1) (count r + tot) wb2.

(** The rule in the words of the specification: a tick's delta is at most
    the threshold, or this tick and the one before it both made no update. *)
Definition stops_as_specified (until_delta : Q) (prev : option tick) (r : tick) : bool :=
  Qle_bool (delta r) until_delta
  || ((count r =? 0) && match prev with Some p => count p =? 0 | None => false end).

(** The number of ticks a run takes when it stops by the specified rule or
    on an exhausted budget, whichever is first. *)
Fixpoint steps_as_specified (ticks : nat) (until_delta : Q) (prev : option tick)
    (steps : Z) : M Z :=
  match ticks with
  | O => ret steps
  | S k =>
      r <- propagate_once ;;
      if stops_as_specified until_delta prev r then ret (steps + 1)
      else steps_as_specified k until_delta (Some r) (steps + 1)
  end.

(** *** What [run_rules] materializes, as a specification reads it *)

(** The constraint one action yields in one environment: target and
    expression instantiated by [_format], the strength taken as it is
    (1 when absent), the id built from the rule's name and the target. *)
Definition instance (rule_name : string) (env : list (string * string))
    (spec : EnsureSpec) : string * Constraint :=
  let tgt := _format (es_target spec) env in
  let cid := rule_cid rule_name tgt in
  (cid, mkConstraint cid tgt (_format (es_expr spec) env)
          (default_strength (es_strength spec))
          (default_note (es_note spec) rule_name)).

(** The constraints of the ["ensure_constraint"] actions among [acts]. *)
Fixpoint action_instances (rule_name : string) (env : list (string * string))
    (acts : list Action) : list (string * Constraint) :=
  match acts with
  | [] => []
  | act :: rest =>
      match ensure_constraint act with
      | Some spec => instance rule_name env spec :: action_instances rule_name env rest
      | None => action_instances rule_name env rest
      end
  end.

(** Every match of every rule, every action: what a run without a limit
    upserts, in order. *)
Definition all_instances (wb : Workbench) : list (string * Constraint) :=
  flat_map (fun rule =>
              flat_map (fun env => action_instances (r_name rule) env (actions rule))
                (_match_rule rule wb))
    (Dict.values (rules wb)).

(** The same under a limit: a rule's matches are left once [applied] has
    reached it. *)
Fixpoint match_instances (limit : option Z) (rule : Rule)
    (envs : list (list (string * string))) (applied : Z) : list (string * Constraint) :=
  match envs with
  | [] => []
  | env :: rest =>
      if limit_reached limit applied then []
      else
        let us := action_instances (r_name rule) env (actions rule) in
        (us ++ match_instances limit rule rest (applied + Z.of_nat (List.length us)))%list
  end.

Fixpoint rules_instances (limit : option Z) (rs : list Rule) (wb : Workbench)
    (applied : Z) : list (string * Constraint) :=
  match rs with
  | [] => []
  | rule :: rest =>
      let us := match_instances limit rule (_match_rule rule wb) applied in
      (us ++ rules_instances limit rest wb (applied + Z.of_nat (List.length us)))%list
  end.

(** The id in the words of the specification. *)
Definition cid_as_specified (rule_name tgt : string) : string := rule_name ++ ":" ++ tgt.

(** Same graph and rules. *)
Definition same_graph (wb wb' : Workbench) : Prop :=
  nodes wb' = nodes wb /\ edges wb' = edges wb /\ rules wb' = rules wb.

(** *** The batch contract, as a specification reads it *)

(** The line went through [json.loads], [cmd.get] and [hasattr]'s check of
    its argument: it is blank, or an object with a string under ["op"]. *)
Definition parsed (l : line) : bool :=
  match l with
  | NotJson | NotObject | NoOp => false
  | Blank | Call _ | Other _ => true
  end.

Definition line_op (l : line) : option string :=
  match l with
  | Call c => Some (op_name c)
  | Other o => Some o
  | _ => None
  end.

(** The records a batch produces, line by line and in order: nothing for a
    blank line; the unknown-op record when the op is no attribute, the
    workbench untouched; the error record when the call raised, the
    workbench as the call left it; the success record with the call's
    result otherwise. *)
Inductive batch : list line -> Workbench -> list outrec -> Workbench -> Prop :=
| batch_done wb : batch [] wb [] wb
| batch_blank ls wb outs wb' :
    batch ls wb outs wb' -> batch (Blank :: ls) wb outs wb'
| batch_unknown l op ls wb outs wb' :
    line_op l = Some op -> hasattr op = false ->
    batch ls wb outs wb' ->
    batch (l :: ls) wb (unknown_record l op :: outs) wb'
| batch_failed l op e wb1 ls wb outs wb' :
    line_op l = Some op -> hasattr op = true ->
    call_line l wb = (Raise e, wb1) ->
    batch ls wb1 outs wb' ->
    batch (l :: ls) wb (error_record l op e :: outs) wb'
| batch_ok l op res wb1 ls wb outs wb' :
    line_op l = Some op -> hasattr op = true ->
    call_line l wb = (Ok res, wb1) ->
    batch ls wb1 outs wb' ->
    batch (l :: ls) wb (ok_record op res :: outs) wb'.

(** "One malformed line never aborts the batch." *)
Definition batch_never_aborts_as_specified : Prop :=
  forall (ls : list line) (wb : Workbench),
    exists outs wb', run_commands ls wb = (Ok outs, wb').
(** *** Interval arithmetic, as a user reads it *)

(** The number [x] is one the value [v] stands for: the number itself, or a
    point of the Interval. *)
Definition within (x : Q) (v : value) : Prop :=
  match v with
  | VNum y => (x == y)%Q
  | VInterval lo hi => (lo <= x <= hi)%Q
  | _ => False
  end.

(** The arithmetic of [+], [-] and [*] on numbers. *)
Definition arith (op : binop) (x y : Q) : Q :=
  match op with
  | Add => (x + y)%Q
  | Sub => (x - y)%Q
  | Mul => (x * y)%Q
  | Div => (x / y)%Q
  end.

(** The bounds of a Scalar (read as a degenerate Interval) or an Interval. *)
Definition bounds_of (v : value) : Q * Q :=
  match v with
  | VNum x => (x, x)
  | VInterval lo hi => (lo, hi)
  | _ => (0%Q, 0%Q)
  end.

(** [r] lies between [a] and [b], whichever of the two is smaller. *)
Definition between (a b r : Q) : Prop :=
  ((a <= b -> a <= r <= b) /\ (b <= a -> b <= r <= a))%Q.

(** *** Matching as a plain search *)

(** The variable an edge pattern binds: its ["var"], or [e<j>] at position
    [j]. *)
Definition edge_var (pat : EdgePattern) (j : nat) : string :=
  match ep_var pat with Some v => v | None => "e" ++ dec j end.

Fixpoint edge_vars (pats : list EdgePattern) (j : nat) : list string :=
  match pats with
  | [] => []
  | pat :: rest => edge_var pat j :: edge_vars rest (S j)
  end.

(** The matches of the edge patterns from [env], with no dict to undo. *)
Fixpoint edge_matches (wb : Workbench) (pats : list EdgePattern) (j : nat)
    (env : list (string * string)) : list (list (string * string)) :=
  match pats with
  | [] => [env]
  | pat :: rest =>
      flat_map
        (fun e =>
           if match impl with Sketch0 => in_values (e_id e) env | Sketch3 => false end
           then []
           else edge_matches wb rest (S j) (Dict.set (edge_var pat j) (e_id e) env))
        (_edge_candidates pat env wb)
  end.

(** The matches of the node patterns, then of the edge patterns. *)
Fixpoint node_matches (wb : Workbench) (eps : list EdgePattern)
    (pats : list NodePattern) (env : list (string * string))
  : list (list (string * string)) :=
  match pats with
  | [] => edge_matches wb eps 0 env
  | pat :: rest =>
      flat_map
        (fun nid =>
           if in_values nid env then []
           else node_matches wb eps rest (Dict.set (np_var pat) nid env))
        (_node_candidates pat wb)
  end.

(** An endpoint of an edge pattern names one of [vars], if it names any. *)
Definition names_one_of (vars : list string) (var : option string) : Prop :=
  match var with
  | Some v => truthy v = true -> In v vars
  | None => True
  end.

(** An endpoint variable that is given is bound in [env]. *)
Definition bound_endpoint (env : list (string * string)) (var : option string) : Prop :=
  match var with
  | Some v => truthy v = true -> Dict.mem v env = true
  | None => True
  end.

(** A rule whose variables are all different and whose edge patterns run
    between variables of its node patterns. *)
Definition well_scoped (rule : Rule) : Prop :=
  NoDup (map np_var (node_patterns rule) ++ edge_vars (edge_patterns rule) 0)%list
  /\ Forall (fun pat =>
               names_one_of (map np_var (node_patterns rule)) (ep_from pat)
               /\ names_one_of (map np_var (node_patterns rule)) (ep_to pat))
       (edge_patterns rule).

(** *** Derived edge ids *)

(** The ids [create_edge] tries when none is given: the base, then the base
    followed by [#1], [#2], ... *)
Definition derived_id (from to type : string) (m : nat) : string :=
  let base := from ++ "->" ++ to ++ ":" ++ type in
  match m with
  | O => base
  | S _ => base ++ "#" ++ dec m
  end.

(** *** A well-formed store *)

(** Every entry of a dict sits under its own id. *)
Definition keyed {V} (id : V -> string) (d : list (string * V)) : bool :=
  forallb (fun kv => String.eqb (id (snd kv)) (fst kv)) d.

(** Every edge of [es] starts and ends at a node of [ns]. *)
Definition linked (ns : list (string * Node)) (es : list (string * Edge)) : bool :=
  forallb (fun kv => Dict.mem (from_id (snd kv)) ns && Dict.mem (to_id (snd kv)) ns) es.

Definition graph_ok (ns : list (string * Node)) (es : list (string * Edge))
    (cs : list (string * Constraint)) : bool :=
  keyed n_id ns && keyed e_id es && linked ns es && keyed c_id cs.

(** The graph of the workbench and of each of its snapshots is well formed,
    and every rule sits under its name. *)
Definition integrity (wb : Workbench) : bool :=
  graph_ok (nodes wb) (edges wb) (constraints wb)
  && keyed r_name (rules wb)
  && forallb (fun s => graph_ok (s_nodes (snd s)) (s_edges (snd s)) (s_constraints (snd s)))
       (snapshots wb).

(** *** Snapshots as a later call finds them *)

(** No snapshot is stored under a version the workbench has not reached. *)
Definition behind (wb : Workbench) : bool :=
  forallb (fun s => fst s <=? version wb) (snapshots wb).

(** [wb'] is no older than [wb] and still holds every snapshot [wb] holds
    under a version below its own. *)
Definition holds_on (wb wb' : Workbench) : Prop :=
  version wb <= version wb'
  /\ forall k s, k < version wb ->
       zget k (snapshots wb) = Some s -> zget k (snapshots wb') = Some s.

(** [wb'] satisfies [P] if [wb] does. *)
Definition keeps (P : Workbench -> bool) (wb wb' : Workbench) : Prop :=
  P wb = true -> P wb' = true.

(** A computation every run of which takes the workbench to one related to
    it by [R], whether it returns or raises. *)
Definition steps (R : Workbench -> Workbench -> Prop) {A} (m : M A) : Prop :=
  forall wb, R wb (snd (m wb)).

(** *** Notions the proofs about the log use *)

(** A computation that only extends the log by bumps. *)
Definition logs {A} (m : M A) : Prop := forall wb, log_step wb (snd (m wb)).

(** A computation that leaves the log alone. *)
Definition quiet {A} (m : M A) : Prop := forall wb, same_log wb (snd (m wb)).

(** A call that, when it returns, has bumped once under the name [op]. *)
Definition bumps_once {A} (op : string) (m : M A) : Prop :=
  forall wb a wb', m wb = (Ok a, wb') ->
    version wb' = version wb + 1
    /\ provenance wb' = (provenance wb ++ [mkEntry op (version wb + 1)])%list.

End Engine.
End Workbench.

(** ** gpt5-synthesis-2.py: branch hypotheses and their collapse *)

Module Synthesis2.

(** The values an attribute holds: numbers, Intervals, strings, and under the
    key ["branches"] the candidate lists of the node, by attribute name. *)
Inductive hval :=
| HNone
| HUnknown (hint : option string)
| HNum (x : Q)
| HInterval (lo hi : Q)
| HStr (s : string)
| HBranches (bs : list (string * list branch))
with branch :=
| mkBranch (b_name : string) (b_value : hval) (b_metaphor : string)
    (b_confidence : Q) (b_context : list string).

Definition b_name (b : branch) : string := let (n, _, _, _, _) := b in n.
Definition b_value (b : branch) : hval := let (_, v, _, _, _) := b in v.
Definition b_metaphor (b : branch) : string := let (_, _, m, _, _) := b in m.
Definition b_confidence (b : branch) : Q := let (_, _, _, c, _) := b in c.

(** [Interval(lo, hi)], lines 22-35, with the swap of [__post_init__]. *)
Definition HIv (lo hi : Q) : Q * Q := if Qle_bool lo hi then (lo, hi) else (hi, lo).

(** [to_interval], lines 37-40: an Interval as it is, a number as a
    degenerate Interval, anything else [None]. *)
Definition to_interval (v : hval) : option (Q * Q) :=
  match v with
  | HInterval lo hi => Some (lo, hi)
  | HNum x => Some (HIv x x)
  | _ => None
  end.

Record history_entry := mkHistory {
  h_path : string;
  h_from : hval;
  h_to : hval;
  h_source : string;
  h_meaning : option string
}.

Record Node := mkNode {
  n_id : string;
  n_type : string;
  attrs : list (string * hval);
  semantics : list string;
  history : list history_entry
}.

Record HybridWB := mkWB {
  nodes : list (string * Node);
  provenance : list string;
  version : Z
}.

(** [_bump], lines 63-65. *)
Definition _bump (op : string) (wb : HybridWB) : HybridWB :=
  mkWB (nodes wb) (provenance wb ++ [op]) (version wb + 1).

(** [create_node], lines 67-71; [uuid] is the text drawn when no id is
    given.  A node of the same id is replaced. *)
Definition create_node (type : string) (id : option string)
    (ats : option (list (string * hval))) (sem : option (list string)) (uuid : string)
    (wb : HybridWB) : string * HybridWB :=
  let id := match id with Some i => i | None => "n_" ++ uuid end in
  (id, _bump "create_node"
         (mkWB (Dict.set id
                  (mkNode id type (match ats with Some a => a | None => [] end)
                     (match sem with Some l => l | None => [] end) [])
                  (nodes wb))
            (provenance wb) (version wb))).

Definition unpack_error : exn :=
  Exn ValueError "not enough values to unpack (expected 2, got 1)".

(** [set_attr], lines 73-81. *)
Definition set_attr (path : string) (v : hval) (source : string)
    (meaning : option string) (wb : HybridWB) : outcome unit * HybridWB :=
  match split_dot path with
  | None => (Raise unpack_error, wb)
  | Some (ent, key) =>
      match Dict.get ent (nodes wb) with
      | None => (Raise (Exn KeyError ent), wb)
      | Some n =>
          let old := match Dict.get key (attrs n) with Some o => o | None => HNone end in
          let n' :=
            mkNode (n_id n) (n_type n) (Dict.set key v (attrs n))
              (match meaning with
               | Some m => if truthy m then semantics n ++ [m] else semantics n
               | None => semantics n
               end)
              (history n ++ [mkHistory path old v source meaning]) in
          (Ok tt, _bump "set_attr"
                    (mkWB (Dict.set ent n' (nodes wb)) (provenance wb) (version wb)))
      end
  end.

(** [max(branches, key=lambda b: b["confidence"])]: the first candidate of
    highest confidence. *)
Definition max_conf (b : branch) (bs : list branch) : branch :=
  fold_left (fun best c => if Qlt_bool (b_confidence best) (b_confidence c) then c else best)
    bs b.

(** The accumulation loop of the [weighted_mean] policy, lines 162-167:
    the weighted midpoints, the weighted widths and the total confidence. *)
Fixpoint weigh (bs : list branch) (acc : list Q * list Q * Q) : list Q * list Q * Q :=
  match bs with
  | [] => acc
  | b :: rest =>
      match to_interval (b_value b) with
      | None => weigh rest acc
      | Some (lo, hi) =>
          let '(mids, widths, total_c) := acc in
          let c := b_confidence b in
          weigh rest ((mids ++ [mid lo hi * c])%list%Q,
                      (widths ++ [width lo hi * c])%list%Q,
                      (total_c + c)%Q)
      end
  end.

(** [sum(xs)] *)
Definition qsum (xs : list Q) : Q := fold_left Qplus xs 0%Q.

Inductive policy := MaxConf | WeightedMean | OtherPolicy (name : string).

Definition policy_name (p : policy) : string :=
  match p with
  | MaxConf => "max_conf"
  | WeightedMean => "weighted_mean"
  | OtherPolicy n => n
  end.

(** The candidate [collapse_branches] settles on, lines 157-174. *)
Definition choose (p : policy) (b0 : branch) (rest : list branch) : branch :=
  match p with
  | MaxConf => max_conf b0 rest
  | WeightedMean =>
      let '(mids, widths, total_c) := weigh (b0 :: rest) ([], [], 0%Q) in
      if Qeq_bool total_c 0 then b0
      else
        let m := (qsum mids / total_c)%Q in
        let w := (qsum widths / total_c)%Q in
        let (lo, hi) := HIv (m - w / 2) (m + w / 2) in
        mkBranch "weighted" (HInterval lo hi) "Weighted collapse of branches" 1 []
  | OtherPolicy _ => b0
  end.

(** [collapse_branches], lines 152-177: the chosen candidate, [None] when
    the attribute has no candidates. *)
Definition collapse_branches (target_path : string) (method : policy) (wb : HybridWB)
  : outcome (option branch) * HybridWB :=
  match split_dot target_path with
  | None => (Raise unpack_error, wb)
  | Some (ent, key) =>
      match Dict.get ent (nodes wb) with
      | None => (Raise (Exn KeyError ent), wb)
      | Some n =>
          match Dict.get "branches" (attrs n) with
          | Some (HBranches bs) =>
              match Dict.get key bs with
              | None | Some [] => (Ok None, wb)
              | Some (b0 :: rest) =>
                  let chosen := choose method b0 rest in
                  match set_attr target_path (b_value chosen)
                          ("collapse:" ++ policy_name method)
                          (Some ("Collapsed from branches via " ++ policy_name method)) wb
                  with
                  | (Ok _, wb') => (Ok (Some chosen), wb')
                  | (Raise e, wb') => (Raise e, wb')
                  end
              end
          | None => (Ok None, wb)
          | Some _ => (Raise (Exn AttributeError "object has no attribute 'get'"), wb)
          end
      end
  end.

(** [val], lines 83-88: a missing node and a missing attribute read as
    [None]; the path is unpacked before anything is looked up. *)
Definition val (path : string) (wb : HybridWB) : outcome hval :=
  match split_dot path with
  | None => Raise unpack_error
  | Some (ent, key) =>
      match Dict.get ent (nodes wb) with
      | None => Ok HNone
      | Some n =>
          match Dict.get key (attrs n) with
          | None | Some (HUnknown _) => Ok HNone
          | Some v => Ok v
          end
      end
  end.

(** [Interval.__mul__], lines 29-30. *)
Definition interval_mul (iv : Q * Q) (k : Q) : Q * Q :=
  HIv (qmin (fst iv * k) (snd iv * k)) (qmax (fst iv * k) (snd iv * k)).

(** [mul(k)] of [MetaphorFork.interpret], lines 106-107:
    [(to_interval(v) * k) if to_interval(v) else v]. *)
Definition transform (k : Q) (v : hval) : hval :=
  match to_interval v with
  | Some iv => HInterval (fst (interval_mul iv k)) (snd (interval_mul iv k))
  | None => v
  end.

(** One reading of a context: its metaphor, the factor of its transform
    and its confidence. *)
Record reading := mkReading {
  r_metaphor : string;
  r_factor : Q;
  r_confidence : Q
}.

(** [MetaphorFork.interpret], lines 104-120: the readings by name, in the
    order of the dict returned. *)
Definition interpret (context : list string) : list (string * reading) :=
  if existsb (String.eqb "betrayal") context then
    [("pessimistic",
      mkReading "Trust crumbles; each crack weakens the whole" (3 # 10) (7 # 10));
     ("resilient",
      mkReading "Trust bends but doesn't break; scars make it wiser" (6 # 10) (3 # 10))]
  else if existsb (String.eqb "repair") context then
    [("hopeful",
      mkReading "Trust rebuilds stronger at the broken places" (11 # 10) (6 # 10));
     ("cautious",
      mkReading "Trust returns but keeps one eye open" (9 # 10) (4 # 10))]
  else
    [("default", mkReading "Trust flows like water, finding its level" 1 1)].

(** The candidate one reading yields; the ["from"] and ["when"] entries of
    the dict are not represented. *)
Definition candidate (context : list string) (source_val : hval)
    (named : string * reading) : branch :=
  mkBranch (fst named) (transform (r_factor (snd named)) source_val)
    (r_metaphor (snd named)) (r_confidence (snd named)) context.

(** The body of the loop of [apply_metaphor_fork], lines 129-148, on the
    node [n] the target path names.  A ["branches"] attribute that is no
    dict makes the membership test or the item access raise before anything
    is written. *)
Definition add_candidate (target_path key : string) (entry : branch) (n : Node)
  : outcome Node :=
  let record (bs : list (string * list branch)) (ats : list (string * hval)) :=
    let old := match Dict.get key bs with Some l => l | None => [] end in
    mkNode (n_id n) (n_type n)
      (Dict.set "branches" (HBranches (Dict.set key (old ++ [entry])%list bs)) ats)
      (semantics n ++ [b_metaphor entry])
      (history n ++ [mkHistory target_path HNone (b_value entry)
                       ("fork:" ++ b_name entry) (Some (b_metaphor entry))]) in
  match Dict.get "branches" (attrs n) with
  | None => Ok (record [] (attrs n))
  | Some (HBranches bs) => Ok (record bs (attrs n))
  | Some _ => Raise (type_error "argument is not iterable or does not support item assignment")
  end.

(** The loop itself: the entries added so far and the node as the loop
    leaves it, also when it raises. *)
Fixpoint fork_loop (target_path key : string) (entries : list branch) (n : Node)
    (out : list branch) : outcome (list branch) * Node :=
  match entries with
  | [] => (Ok out, n)
  | entry :: rest =>
      match add_candidate target_path key entry n with
      | Raise e => (Raise e, n)
      | Ok n' => fork_loop target_path key rest n' (out ++ [entry])%list
      end
  end.

(** [apply_metaphor_fork], lines 122-150. *)
Definition apply_metaphor_fork (source_path target_path : string)
    (context : list string) (wb : HybridWB) : outcome (list branch) * HybridWB :=
  match val source_path wb with
  | Raise e => (Raise e, wb)
  | Ok source_val =>
      match split_dot target_path with
      | None => (Raise unpack_error, wb)
      | Some (ent, key) =>
          match Dict.get ent (nodes wb) with
          | None => (Raise (Exn KeyError ent), wb)
          | Some n =>
              let entries := map (candidate context source_val) (interpret context) in
              match fork_loop target_path key entries n [] with
              | (Ok out, n') =>
                  (Ok out,
                   _bump "apply_metaphor_fork"
                     (mkWB (Dict.set ent n' (nodes wb)) (provenance wb) (version wb)))
              | (Raise e, n') =>
                  (Raise e, mkWB (Dict.set ent n' (nodes wb)) (provenance wb) (version wb))
              end
          end
      end
  end.

(** *** The weighted mean, as a specification reads it *)

(** A candidate the [weighted_mean] policy counts: its value is an Interval
    or a number. *)
Definition counted (b : branch) : bool :=
  match b_value b with HInterval _ _ | HNum _ => true | _ => false end.

(** A candidate whose value is an Interval. *)
Definition interval_valued (b : branch) : bool :=
  match b_value b with HInterval _ _ => true | _ => false end.

(** The bounds a counted candidate contributes: those of its Interval, or
    the number itself twice. *)
Definition bounds (b : branch) : Q * Q :=
  match b_value b with
  | HInterval lo hi => (lo, hi)
  | HNum x => (x, x)
  | _ => (0%Q, 0%Q)
  end.

Definition weighted_mid (b : branch) : Q :=
  (mid (fst (bounds b)) (snd (bounds b)) * b_confidence b)%Q.

Definition weighted_width (b : branch) : Q :=
  (width (fst (bounds b)) (snd (bounds b)) * b_confidence b)%Q.

(** The Interval rebuilt from the confidence-weighted means of midpoint and
    width over the candidates that satisfy [keep]. *)
Definition mean_interval (keep : branch -> bool) (bs : list branch) : hval :=
  let kept := filter keep bs in
  let total_c := qsum (map b_confidence kept) in
  let m := (qsum (map weighted_mid kept) / total_c)%Q in
  let w := (qsum (map weighted_width kept) / total_c)%Q in
  let (lo, hi) := HIv (m - w / 2) (m + w / 2) in
  HInterval lo hi.

(** [==] on two Intervals. *)
Definition same_interval (a b : hval) : bool :=
  match a, b with
  | HInterval l h, HInterval l' h' => Qeq_bool l l' && Qeq_bool h h'
  | _, _ => false
  end.

(** The committed value of [key] on node [ent]. *)
Definition committed (ent key : string) (wb : HybridWB) : option hval :=
  match Dict.get ent (nodes wb) with
  | Some n => Dict.get key (attrs n)
  | None => None
  end.

(** The candidates a node holds for [key]. *)
Definition recorded (key : string) (n : Node) : list branch :=
  match Dict.get "branches" (attrs n) with
  | Some (HBranches bs) => match Dict.get key bs with Some l => l | None => [] end
  | _ => []
  end.

(** The candidates recorded for [key] on node [ent]. *)
Definition candidates (ent key : string) (wb : HybridWB) : list branch :=
  match Dict.get ent (nodes wb) with
  | Some n => recorded key n
  | None => []
  end.

End Synthesis2.

(** ** gpt5-synthesis-3.py: the minimal hybrid workbench *)

Module Synthesis3.

Record Node := mkNode {
  n_id : string;
  n_type : string;
  attrs : list (string * value)
}.

Record HybridWB := mkWB { nodes : list (string * Node) }.

(** [create_node], lines 25-28; [uuid] is the text drawn when no id is
    given. *)
Definition create_node (type : string) (id : option string) (uuid : string)
    (wb : HybridWB) : string * HybridWB :=
  let id := match id with Some i => i | None => "n_" ++ uuid end in
  (id, mkWB (Dict.set id (mkNode id type []) (nodes wb))).

(** [val], lines 36-38: [self.nodes[ent].attrs.get(key)]. *)
Definition val (path : string) (wb : HybridWB) : outcome value :=
  match split_dot path with
  | None => Raise (Exn ValueError "not enough values to unpack (expected 2, got 1)")
  | Some (ent, key) =>
      match Dict.get ent (nodes wb) with
      | None => Raise (Exn KeyError ent)
      | Some n =>
          Ok (match Dict.get key (attrs n) with Some v => v | None => VNone end)
      end
  end.

End Synthesis3.

(** ** A runtime and workbenches for the closed examples *)

(** The expressions the examples use, as the interpreter reads them. *)
Definition demo_parse (src : string) : option expr :=
  if String.eqb src "val('a.x')" then Some (ECall "val" [EStr "a.x"])
  else if String.eqb src "val('x.level') * val('e.beta')" then
    Some (EBin Mul (ECall "val" [EStr "x.level"]) (ECall "val" [EStr "e.beta"]))
  else if String.eqb src "1/0" then Some (EBin Div (ENum 1) (ENum 0))
  else if String.eqb src "nope(1)" then Some (ECall "nope" [ENum 1])
  else if String.eqb src "abs()" then Some (ECall "abs" [])
  else if String.eqb src "'a' - 1" then Some (EBin Sub (EStr "a") (ENum 1))
  else if String.eqb src "val('ghost.x') * 2" then
    Some (EBin Mul (ECall "val" [EStr "ghost.x"]) (ENum 2))
  else None.

(** None of the examples calls [sqrt], [exp] or [log]. *)
Definition demo_runtime : runtime :=
  {| parse := demo_parse;
     math_sqrt := fun q => q;
     math_exp := fun q => q;
     math_log := fun q => q |}.

(** The state after running [m] from [wb]. *)
Definition after {A} (m : Workbench.M A) (wb : Workbench.Workbench) : Workbench.Workbench :=
  snd (m wb).

(** Nodes [a] (with [x = 1]) and [b], and the constraint [b.y = val('a.x')]
    at strength 1. *)
Definition demo_wb (impl : variant) : Workbench.Workbench :=
  after (Workbench.assert_constraint "b.y" "val('a.x')" 1 None (Some "c1") "")
    (after (Workbench.create_node "Factor" (Some "b") None "")
       (after (Workbench.create_node "Factor" (Some "a") (Some [("x", VNum 1)]) "")
          Workbench.init)).

(** A node [emergence] whose attribute [trust] has two candidates of
    confidence 1: the number 0 and the Interval [1, 2]. *)
Definition two_candidates : list Synthesis2.branch :=
  [Synthesis2.mkBranch "flat" (Synthesis2.HNum 0) "" 1 [];
   Synthesis2.mkBranch "wide" (Synthesis2.HInterval 1 2) "" 1 []].

Definition branches_wb : Synthesis2.HybridWB :=
  snd (Synthesis2.create_node "Phenomenon" (Some "emergence")
         (Some [("branches", Synthesis2.HBranches [("trust", two_candidates)])]) None ""
         (Synthesis2.mkWB [] [] 0)).

(** The graph of the coffee scenario before any rule has run: two Factor
    nodes, a [causes] edge with its derived id, and the rule
    [linear_cause]. *)
Definition rules_wb (impl : variant) : Workbench.Workbench :=
  after (Workbench.define_rule "linear_cause"
           [Workbench.mkNodePattern "x" (Some "Factor") [];
            Workbench.mkNodePattern "y" (Some "Factor") []]
           [Workbench.mkEdgePattern (Some "e") (Some "causes") (Some "x") (Some "y") []]
           [Workbench.mkAction
              (Some (Workbench.mkEnsure "{y}.level"
                       "val('{x}.level') * val('{e}.beta')" (Some 1%Q) None))])
    (after (Workbench.create_edge "causes" "coffee" "alertness" None
              (Some [("beta", VNum (6 # 10))]))
       (after (Workbench.create_node "Factor" (Some "alertness")
                 (Some [("level", VUnknown (Some "infer"))]) "")
          (after (Workbench.create_node "Factor" (Some "coffee")
                    (Some [("level", VInterval (7 # 10) (9 # 10))]) "")
             Workbench.init))).

(** A batch of three lines: a valid call, an op that does not exist, a
    valid call. *)
Definition three_lines : list Workbench.line :=
  [Workbench.Call (Workbench.CreateNode "Claim" (Some "c1") None "");
   Workbench.Other "frobnicate";
   Workbench.Call (Workbench.QueryAttr "c1.score")].

(** A hybrid workbench with the nodes [human], whose [trust] is the
    Interval [0.4, 0.7], and [emergence]. *)
Definition fork_wb : Synthesis2.HybridWB :=
  snd (Synthesis2.set_attr "human.trust" (Synthesis2.HInterval (4 # 10) (7 # 10))
         "event" (Some "Betrayal widens uncertainty")
         (snd (Synthesis2.create_node "Phenomenon" (Some "emergence") None None ""
                 (snd (Synthesis2.create_node "Agent" (Some "human") None None ""
                         (Synthesis2.mkWB [] [] 0)))))).

(** The rule of the coffee scenario. *)
Definition linear_cause : Workbench.Rule :=
  Workbench.mkRule "linear_cause"
    [Workbench.mkNodePattern "x" (Some "Factor") [];
     Workbench.mkNodePattern "y" (Some "Factor") []]
    [Workbench.mkEdgePattern (Some "e") (Some "causes") (Some "x") (Some "y") []]
    [Workbench.mkAction
       (Some (Workbench.mkEnsure "{y}.level"
                "val('{x}.level') * val('{e}.beta')" (Some 1%Q) None))].

(** * Properties *)

(** ** The blend operator *)

Lemma Interval_ordered (lo hi : Q) : (lo <= hi)%Q -> Interval lo hi = VInterval lo hi.
Proof.
  intros H. unfold Interval.
  destruct (Qle_bool lo hi) eqn:E; [reflexivity|].
  apply Qle_bool_iff in H. congruence.
Qed.

Lemma blend_unknown (h : option string) (target : value) (s : Q) :
  blend (VUnknown h) target s = Ok target.
Proof. reflexivity. Qed.

Lemma beside_same_kind (other v : value) :
  numeric other = true -> numeric v = true ->
  is_interval other = is_interval v -> beside other v = v.
Proof.
  destruct other, v; simpl; intros; try reflexivity; discriminate.
Qed.

Lemma blend_at_0 (old target : value) :
  numeric old = true -> numeric target = true -> wf_value old = true ->
  exists r, blend old target 0 = Ok r /\ py_eq r (beside target old) = true.
Proof.
  intros Ho Ht Hw.
  destruct old as [| |a| |lo hi|]; try discriminate Ho;
    destruct target as [| |b| |lo' hi'|]; try discriminate Ht; simpl in *.
  - eexists; split; [reflexivity|]. simpl. apply Qeq_bool_iff. ring.
  - rewrite Interval_ordered by lra.
    eexists; split; [reflexivity|]. simpl.
    apply andb_true_iff; split; apply Qeq_bool_iff; ring.
  - apply Qle_bool_iff in Hw. rewrite Interval_ordered by lra.
    eexists; split; [reflexivity|]. simpl.
    apply andb_true_iff; split; apply Qeq_bool_iff; ring.
  - apply Qle_bool_iff in Hw. rewrite Interval_ordered by lra.
    eexists; split; [reflexivity|]. simpl.
    apply andb_true_iff; split; apply Qeq_bool_iff; ring.
Qed.

Lemma blend_at_1 (old target : value) :
  numeric old = true -> numeric target = true -> wf_value target = true ->
  exists r, blend old target 1 = Ok r /\ py_eq r (beside old target) = true.
Proof.
  intros Ho Ht Hw.
  destruct old as [| |a| |lo hi|]; try discriminate Ho;
    destruct target as [| |b| |lo' hi'|]; try discriminate Ht; simpl in *.
  - eexists; split; [reflexivity|]. simpl. apply Qeq_bool_iff. ring.
  - apply Qle_bool_iff in Hw. rewrite Interval_ordered by lra.
    eexists; split; [reflexivity|]. simpl.
    apply andb_true_iff; split; apply Qeq_bool_iff; ring.
  - rewrite Interval_ordered by lra.
    eexists; split; [reflexivity|]. simpl.
    apply andb_true_iff; split; apply Qeq_bool_iff; ring.
  - apply Qle_bool_iff in Hw. rewrite Interval_ordered by lra.
    eexists; split; [reflexivity|]. simpl.
    apply andb_true_iff; split; apply Qeq_bool_iff; ring.
Qed.




(** ** Dictionaries *)

Section DictFacts.
Context {V : Type}.
Implicit Types (d e : list (string * V)) (k : string) (v : V).

Lemma get_set_same k v d : Dict.get k (Dict.set k v d) = Some v.
Proof.
  induction d as [|[k' v'] r IH]; simpl.
  - rewrite String.eqb_refl. reflexivity.
  - destruct (String.eqb k k') eqn:E; simpl; rewrite E; auto.
Qed.

Lemma get_set_other k k' v d :
  k' <> k -> Dict.get k' (Dict.set k v d) = Dict.get k' d.
Proof.
  intros Hne. induction d as [|[k0 v0] r IH]; simpl.
  - destruct (String.eqb k' k) eqn:E; [apply String.eqb_eq in E; contradiction|reflexivity].
  - destruct (String.eqb k k0) eqn:E; simpl.
    + apply String.eqb_eq in E. subst k0.
      apply String.eqb_neq in Hne. rewrite Hne. reflexivity.
    + rewrite IH. reflexivity.
Qed.

Lemma mem_set k k' v d :
  Dict.mem k' (Dict.set k v d) = String.eqb k' k || Dict.mem k' d.
Proof.
  unfold Dict.mem. destruct (String.eqb k' k) eqn:E.
  - apply String.eqb_eq in E. subst. rewrite get_set_same. reflexivity.
  - apply String.eqb_neq in E. rewrite get_set_other by exact E. reflexivity.
Qed.

Lemma set_set_same k v v' d : Dict.set k v (Dict.set k v' d) = Dict.set k v d.
Proof.
  induction d as [|[k0 v0] r IH]; simpl.
  - rewrite String.eqb_refl. reflexivity.
  - destruct (String.eqb k k0) eqn:E; simpl; rewrite E; [reflexivity|].
    rewrite IH. reflexivity.
Qed.

(** Two writes commute when the first key written is already present: that
    write is in place, whatever the other one does. *)
Lemma set_set_comm k k1 v v1 d :
  Dict.mem k1 d = true -> k1 <> k ->
  Dict.set k1 v1 (Dict.set k v d) = Dict.set k v (Dict.set k1 v1 d).
Proof.
  intros Hm Hne. induction d as [|[k0 v0] r IH].
  - discriminate Hm.
  - unfold Dict.mem in Hm. simpl in Hm. simpl.
    destruct (String.eqb k k0) eqn:E; destruct (String.eqb k1 k0) eqn:E1; simpl;
      rewrite ?E, ?E1; try reflexivity.
    + apply String.eqb_eq in E. apply String.eqb_eq in E1. congruence.
    + f_equal. apply IH. unfold Dict.mem. exact Hm.
Qed.

Lemma upserts_app d (a b : list (string * V)) :
  upserts d (a ++ b) = upserts (upserts d a) b.
Proof. unfold upserts. apply fold_left_app. Qed.

Lemma mem_upserts_keep k d (l : list (string * V)) :
  Dict.mem k d = true -> Dict.mem k (upserts d l) = true.
Proof.
  revert d. induction l as [|[k0 v0] r IH]; intros d H; simpl; [exact H|].
  apply IH. rewrite mem_set, H. apply orb_true_r.
Qed.

Lemma mem_upserts_written d (l : list (string * V)) :
  Forall (fun kv => Dict.mem (fst kv) (upserts d l) = true) l.
Proof.
  revert d. induction l as [|[k0 v0] r IH]; intros d; constructor; simpl.
  - apply mem_upserts_keep. rewrite mem_set, String.eqb_refl. reflexivity.
  - apply IH.
Qed.

Lemma upserts_absorb k v e (l : list (string * V)) :
  Forall (fun kv => Dict.mem (fst kv) e = true) l ->
  Dict.set k v (upserts (Dict.set k v e) l) = Dict.set k v (upserts e l).
Proof.
  revert e. induction l as [|[k1 v1] r IH]; intros e H; simpl.
  - apply set_set_same.
  - inversion H as [|? ? Hk1 Hr]; subst. simpl in Hk1.
    destruct (String.eqb k1 k) eqn:E.
    + apply String.eqb_eq in E. subst k1. rewrite set_set_same. reflexivity.
    + apply String.eqb_neq in E.
      rewrite set_set_comm by assumption.
      apply IH. eapply Forall_impl; [|exact Hr].
      intros kv Hkv. rewrite mem_set, Hkv. apply orb_true_r.
Qed.

(** Writing the same pairs a second time changes nothing. *)
Lemma upserts_twice d (l : list (string * V)) :
  upserts (upserts d l) l = upserts d l.
Proof.
  induction l as [|[k v] l IH] using rev_ind; [reflexivity|].
  rewrite !upserts_app. simpl.
  set (e := upserts d l) in *.
  rewrite upserts_absorb by apply mem_upserts_written.
  rewrite IH. reflexivity.
Qed.

Lemma forallb_set (P : string * V -> bool) k v d :
  forallb P d = true -> P (k, v) = true -> forallb P (Dict.set k v d) = true.
Proof.
  intros Hd Hv. induction d as [|[k0 v0] r IH]; simpl in *.
  - rewrite Hv. reflexivity.
  - apply andb_true_iff in Hd. destruct Hd as [H0 Hr].
    destruct (String.eqb k k0) eqn:E; simpl.
    + apply String.eqb_eq in E. subst k0. rewrite Hv, Hr. reflexivity.
    + rewrite H0, IH by exact Hr. reflexivity.
Qed.

Lemma forallb_del (P : string * V -> bool) k d :
  forallb P d = true -> forallb P (Dict.del k d) = true.
Proof.
  intros Hd. induction d as [|[k0 v0] r IH]; simpl in *; [reflexivity|].
  apply andb_true_iff in Hd. destruct Hd as [H0 Hr].
  destruct (String.eqb k k0); simpl; [exact Hr|].
  rewrite H0, IH by exact Hr. reflexivity.
Qed.

Lemma forallb_get (P : string * V -> bool) k v d :
  forallb P d = true -> Dict.get k d = Some v -> P (k, v) = true.
Proof.
  intros Hd Hg. induction d as [|[k0 v0] r IH]; simpl in *; [discriminate|].
  apply andb_true_iff in Hd. destruct Hd as [H0 Hr].
  destruct (String.eqb k k0) eqn:E.
  - apply String.eqb_eq in E. inversion Hg. subst. exact H0.
  - apply IH; assumption.
Qed.

Lemma mem_get k d : Dict.mem k d = true <-> exists v, Dict.get k d = Some v.
Proof.
  unfold Dict.mem. destruct (Dict.get k d) as [v|]; split; intros H;
    try reflexivity; try discriminate; [exists v; reflexivity|].
  destruct H as [v H]. discriminate.
Qed.

(** Deleting a key just added under a fresh name gives the dict back. *)
Lemma del_set_fresh k v d : Dict.mem k d = false -> Dict.del k (Dict.set k v d) = d.
Proof.
  intros Hm. induction d as [|[k0 v0] r IH]; simpl.
  - rewrite String.eqb_refl. reflexivity.
  - unfold Dict.mem in Hm. simpl in Hm.
    destruct (String.eqb k k0) eqn:E; [discriminate|]. simpl. rewrite E.
    f_equal. apply IH. unfold Dict.mem. exact Hm.
Qed.

End DictFacts.

(** ** The Workbench of sketch-gpt5-0.py and sketch-gpt5-3.py *)

Section WorkbenchProperties.
Import Workbench.
Context {rt : runtime} {impl : variant}.

Notation "x <- m ;; k" := (bind m (fun x => k))
  (at level 61, m at next level, right associativity).
Notation "m ;;; k" := (bind m (fun _ => k))
  (at level 61, right associativity).

(** Unfolding of the monadic plumbing. *)
Ltac unfold_m :=
  unfold bind, ret, raise, get_self, put_self, reading, lift, try_except in *.

Ltac break_match :=
  match goal with
  | |- context [match ?x with _ => _ end] => destruct x eqn:?
  end.

(** *** Reads *)

Lemma resolve_raises_KeyError (path : string) (wb : Workbench) (e : exn) :
  _resolve_container path wb = Raise e -> exn_cls e = KeyError.
Proof.
  unfold _resolve_container. intros H.
  destruct (split_dot path) as [[ent key]|].
  - destruct (Dict.mem ent (nodes wb)); [discriminate|].
    destruct (Dict.mem ent (edges wb)); [discriminate|].
    inversion H; reflexivity.
  - inversion H; reflexivity.
Qed.

(** [val] always returns, and leaves the workbench as it found it. *)
Lemma val_returns (path : string) (wb : Workbench) :
  exists v, val path wb = (Ok v, wb).
Proof.
  unfold val. unfold_m.
  destruct (_resolve_container path wb) as [[c key]|e] eqn:E; simpl.
  - destruct (is_unknown _); eauto.
  - rewrite (resolve_raises_KeyError _ _ _ E). simpl. eauto.
Qed.

Lemma val_missing_entity (path ent key : string) (wb : Workbench) :
  split_dot path = Some (ent, key) ->
  Dict.mem ent (nodes wb) = false -> Dict.mem ent (edges wb) = false ->
  val path wb = (Ok VNone, wb).
Proof.
  intros Hs Hn He. unfold val, _resolve_container. unfold_m.
  rewrite Hs, Hn, He. reflexivity.
Qed.

Lemma val_missing_attr (path : string) (c : container) (key : string) (wb : Workbench) :
  _resolve_container path wb = Ok (c, key) ->
  Dict.get key (attrs_of c wb) = None ->
  val path wb = (Ok VNone, wb).
Proof.
  intros Hr Hk. unfold val, attr_or_unknown. unfold_m.
  rewrite Hr. simpl. rewrite Hk. reflexivity.
Qed.

Lemma val_no_dot (path : string) (wb : Workbench) :
  split_dot path = None -> val path wb = (Ok VNone, wb).
Proof.
  intros Hs. unfold val, _resolve_container. unfold_m. rewrite Hs. reflexivity.
Qed.

(** A write through a path whose entity is absent fails with [KeyError] and
    changes nothing. *)
Lemma set_val_missing_entity (path ent key : string) (v : value) (wb : Workbench) :
  split_dot path = Some (ent, key) ->
  Dict.mem ent (nodes wb) = false -> Dict.mem ent (edges wb) = false ->
  exists e, set_val path v wb = (Raise e, wb) /\ exn_cls e = KeyError.
Proof.
  intros Hs Hn He. unfold set_val, _resolve_container. unfold_m.
  rewrite Hs, Hn, He. eexists; split; reflexivity.
Qed.

(** [_safe_eval] always returns, and leaves the workbench as it found it. *)
Lemma safe_eval_returns (src : string) (wb : Workbench) :
  exists v, _safe_eval src wb = (Ok v, wb).
Proof.
  unfold _safe_eval, except_Exception. unfold_m.
  destruct (py_eval src wb); eauto.
Qed.

Lemma safe_eval_failure (src : string) (wb : Workbench) (e : exn) :
  py_eval src wb = Raise e -> _safe_eval src wb = (Ok VNone, wb).
Proof.
  intros H. unfold _safe_eval, except_Exception. unfold_m. rewrite H. reflexivity.
Qed.

Lemma safe_eval_success (src : string) (wb : Workbench) (v : value) :
  py_eval src wb = Ok v -> _safe_eval src wb = (Ok v, wb).
Proof.
  intros H. unfold _safe_eval. unfold_m. rewrite H. reflexivity.
Qed.


(** X1.  In sketch-gpt5-0.py and sketch-gpt5-3.py a read never raises and
    never changes the workbench: a path without a dot, a missing entity and a
    missing attribute all read as [None].  A write through a path whose
    entity is absent raises [KeyError] and changes nothing. *)
Theorem workbench_val_never_raises (path : string) (wb : Workbench) :
  (exists v, val path wb = (Ok v, wb))
  /\ (split_dot path = None -> val path wb = (Ok VNone, wb))
  /\ (forall ent key,
        split_dot path = Some (ent, key) ->
        Dict.mem ent (nodes wb) = false -> Dict.mem ent (edges wb) = false ->
        val path wb = (Ok VNone, wb)
        /\ forall v, exists e, set_val path v wb = (Raise e, wb) /\ exn_cls e = KeyError)
  /\ (forall c key,
        _resolve_container path wb = Ok (c, key) ->
        Dict.get key (attrs_of c wb) = None ->
        val path wb = (Ok VNone, wb)).
Proof.
  split; [apply val_returns|]. split; [apply val_no_dot|]. split.
  - intros ent key Hs Hn He. split; [eapply val_missing_entity; eauto|].
    intros v. eapply set_val_missing_entity; eauto.
  - intros c key. apply val_missing_attr.
Qed.

(** *** The provenance log *)

Lemma same_log_refl (wb : Workbench) : same_log wb wb.
Proof. split; reflexivity. Qed.

Lemma same_log_step (wb wb' : Workbench) : same_log wb wb' -> log_step wb wb'.
Proof.
  intros [Hv Hp]. exists []. simpl. rewrite Hv, Hp, app_nil_r. split; [lia|reflexivity].
Qed.

Lemma log_step_refl (wb : Workbench) : log_step wb wb.
Proof. apply same_log_step, same_log_refl. Qed.

Lemma entries_from_app (v : Z) (a b : list string) :
  entries_from v (a ++ b) = (entries_from v a ++ entries_from (v + Z.of_nat (List.length a)) b)%list.
Proof.
  revert v. induction a as [|x a IH]; intros v; simpl.
  - f_equal. lia.
  - rewrite IH. do 3 f_equal. lia.
Qed.

Lemma log_step_trans (a b c : Workbench) : log_step a b -> log_step b c -> log_step a c.
Proof.
  intros [o1 [Hv1 Hp1]] [o2 [Hv2 Hp2]]. exists (o1 ++ o2)%list.
  rewrite Hv2, Hp2, Hv1, Hp1, entries_from_app, length_app, <- app_assoc.
  split; [lia|reflexivity].
Qed.

Lemma bump_step (op : string) (wb : Workbench) : log_step wb (snd (_bump op wb)).
Proof. exists [op]. simpl. split; reflexivity. Qed.

Lemma log_ok_init : log_ok init.
Proof. exists []. split; reflexivity. Qed.

Lemma log_ok_step (wb wb' : Workbench) : log_ok wb -> log_step wb wb' -> log_ok wb'.
Proof.
  intros [o [Hv Hp]] [o' [Hv' Hp']]. exists (o ++ o')%list.
  rewrite Hv', Hp', Hp, Hv, entries_from_app, length_app. simpl.
  split; [lia|reflexivity].
Qed.

Lemma write_attr_same_log (c : container) (k : string) (v : value) (wb : Workbench) :
  same_log wb (write_attr c k v wb).
Proof.
  unfold write_attr. destruct c; break_match; split; reflexivity.
Qed.

Lemma quiet_logs {A} (m : M A) : quiet m -> logs m.
Proof. intros H wb. apply same_log_step, H. Qed.

Lemma logs_bind {A B} (m : M A) (k : A -> M B) :
  logs m -> (forall a, logs (k a)) -> logs (bind m k).
Proof.
  intros Hm Hk wb. unfold bind. specialize (Hm wb).
  destruct (m wb) as [[a|e] wb1]; simpl in *.
  - eapply log_step_trans; [exact Hm|apply Hk].
  - exact Hm.
Qed.

Lemma quiet_bind {A B} (m : M A) (k : A -> M B) :
  quiet m -> (forall a, quiet (k a)) -> quiet (bind m k).
Proof.
  intros Hm Hk wb. unfold bind. specialize (Hm wb).
  destruct (m wb) as [[a|e] wb1]; simpl in *.
  - destruct Hm as [Hv Hp]. destruct (Hk a wb1) as [Hv' Hp'].
    split; congruence.
  - exact Hm.
Qed.

Lemma logs_try {A} (c : exn_class -> bool) (m : M A) (h : exn -> M A) :
  logs m -> (forall e, logs (h e)) -> logs (try_except c m h).
Proof.
  intros Hm Hh wb. unfold try_except. specialize (Hm wb).
  destruct (m wb) as [[a|e] wb1]; simpl in *; [exact Hm|].
  destruct (c (exn_cls e)); simpl; [|exact Hm].
  eapply log_step_trans; [exact Hm|apply Hh].
Qed.

Lemma quiet_try {A} (c : exn_class -> bool) (m : M A) (h : exn -> M A) :
  quiet m -> (forall e, quiet (h e)) -> quiet (try_except c m h).
Proof.
  intros Hm Hh wb. unfold try_except. specialize (Hm wb).
  destruct (m wb) as [[a|e] wb1]; simpl in *; [exact Hm|].
  destruct (c (exn_cls e)); simpl; [|exact Hm].
  destruct Hm as [Hv Hp]. destruct (Hh e wb1) as [Hv' Hp']. split; congruence.
Qed.

Lemma quiet_ret {A} (a : A) : quiet (ret a).
Proof. intros wb. apply same_log_refl. Qed.

Lemma quiet_raise {A} (e : exn) : quiet (@raise A e).
Proof. intros wb. apply same_log_refl. Qed.

Lemma quiet_reading {A} (f : Workbench -> outcome A) : quiet (reading f).
Proof. intros wb. apply same_log_refl. Qed.

Lemma quiet_lift {A} (o : outcome A) : quiet (lift o).
Proof. intros wb. apply same_log_refl. Qed.

Lemma logs_bump (op : string) : logs (_bump op).
Proof. intros wb. apply bump_step. Qed.

(** [self] read, then the rest run from that very state. *)
Lemma logs_get {A} (k : Workbench -> M A) :
  (forall wb, log_step wb (snd (k wb wb))) -> logs (bind get_self k).
Proof. intros H wb. unfold bind, get_self. apply H. Qed.

Lemma quiet_get {A} (k : Workbench -> M A) :
  (forall wb, same_log wb (snd (k wb wb))) -> quiet (bind get_self k).
Proof. intros H wb. unfold bind, get_self. apply H. Qed.

(** A store of a state with the log of the current one, then the rest. *)
Lemma log_step_put {A} (wb wb1 : Workbench) (k : M A) :
  same_log wb wb1 -> logs k -> log_step wb (snd (bind (put_self wb1) (fun _ => k) wb)).
Proof.
  intros Hs Hk. unfold bind, put_self.
  eapply log_step_trans; [apply same_log_step, Hs|apply Hk].
Qed.

Lemma same_log_put {A} (wb wb1 : Workbench) (k : M A) :
  same_log wb wb1 -> quiet k -> same_log wb (snd (bind (put_self wb1) (fun _ => k) wb)).
Proof.
  intros [Hv Hp] Hk. unfold bind, put_self.
  destruct (Hk wb1) as [Hv' Hp']. split; congruence.
Qed.

Create HintDb wblog.
#[local] Hint Resolve quiet_ret quiet_raise quiet_reading quiet_lift logs_bump
  quiet_logs same_log_refl log_step_refl write_attr_same_log : wblog.

Lemma quiet_val (path : string) : quiet (val path).
Proof. intros wb. destruct (val_returns path wb) as [v ->]. apply same_log_refl. Qed.

Lemma quiet_safe_eval (src : string) : quiet (_safe_eval src).
Proof. intros wb. destruct (safe_eval_returns src wb) as [v ->]. apply same_log_refl. Qed.

Lemma quiet_set_val (path : string) (v : value) : quiet (set_val path v).
Proof.
  unfold set_val. apply quiet_bind; [auto with wblog|]. intros r.
  apply quiet_get. intros wb. apply same_log_put; auto with wblog.
Qed.

#[local] Hint Resolve quiet_val quiet_safe_eval quiet_set_val : wblog.

Lemma logs_create_node t i a u : logs (create_node t i a u).
Proof.
  unfold create_node. apply logs_get. intros wb.
  destruct (Dict.mem _ _); [apply log_step_refl|].
  apply log_step_put; [split; reflexivity|].
  apply logs_bind; auto with wblog.
Qed.

Lemma logs_create_edge t f o i a : logs (create_edge t f o i a).
Proof.
  unfold create_edge. apply logs_get. intros wb.
  destruct (_ || _); [apply log_step_refl|].
  destruct (Dict.mem _ _); [apply log_step_refl|].
  apply log_step_put; [split; reflexivity|].
  apply logs_bind; auto with wblog.
Qed.

Lemma logs_set_attr p v c : logs (set_attr p v c).
Proof.
  unfold set_attr. apply logs_bind; [auto with wblog|]. intros r.
  apply logs_bind.
  - destruct c; [|auto with wblog].
    apply quiet_logs, quiet_bind; [auto with wblog|]. intros x.
    apply quiet_get. intros wb. unfold put_self. simpl. auto with wblog.
  - intros _. apply logs_bind; auto with wblog.
Qed.

Lemma logs_assert_constraint p x s n i u : logs (assert_constraint p x s n i u).
Proof.
  unfold assert_constraint. apply logs_get. intros wb.
  break_match; [apply log_step_refl|].
  apply log_step_put; [split; reflexivity|].
  apply logs_bind; auto with wblog.
Qed.

Lemma logs_upsert_constraint i p x s n : logs (upsert_constraint i p x s n).
Proof.
  unfold upsert_constraint. apply logs_get. intros wb.
  apply log_step_put; [split; reflexivity|].
  apply logs_bind; auto with wblog.
Qed.

Lemma logs_remove_constraint i : logs (remove_constraint i).
Proof.
  unfold remove_constraint. apply logs_get. intros wb.
  break_match; [|apply log_step_refl].
  apply log_step_put; [split; reflexivity|].
  apply logs_bind; auto with wblog.
Qed.

Lemma logs_define_rule n a b c : logs (define_rule n a b c).
Proof.
  unfold define_rule. apply logs_get. intros wb.
  apply log_step_put; [split; reflexivity|].
  apply logs_bind; auto with wblog.
Qed.

Lemma logs_apply_actions name env acts st : logs (apply_actions name env acts st).
Proof.
  revert st. induction acts as [|act rest IH]; intros st; simpl; [auto with wblog|].
  destruct (ensure_constraint act); [|apply IH].
  apply logs_bind; [apply logs_upsert_constraint|]. intros _. apply IH.
Qed.

Lemma logs_match_loop limit rule envs st : logs (match_loop limit rule envs st).
Proof.
  revert st. induction envs as [|env rest IH]; intros st; simpl; [auto with wblog|].
  destruct (limit_reached limit (fst st)); [auto with wblog|].
  apply logs_bind; [apply logs_apply_actions|]. intros st'. apply IH.
Qed.

Lemma logs_rules_loop limit rs st : logs (rules_loop limit rs st).
Proof.
  revert st. induction rs as [|rule rest IH]; intros st; simpl; [auto with wblog|].
  apply logs_get. intros wb.
  change (log_step wb (snd (bind (match_loop limit rule (_match_rule rule wb) st)
                              (fun st' => rules_loop limit rest st') wb))).
  apply logs_bind; [apply logs_match_loop|]. intros st'. apply IH.
Qed.

Lemma logs_run_rules limit : logs (run_rules limit).
Proof.
  unfold run_rules. apply logs_get. intros wb.
  change (log_step wb (snd (bind (rules_loop limit (Dict.values (rules wb)) (0, []))
                              (fun st => bind (_bump "run_rules") (fun _ => ret st)) wb))).
  apply logs_bind; [apply logs_rules_loop|]. intros st.
  apply logs_bind; auto with wblog.
Qed.

Lemma quiet_propagate_constraint cid c acc : quiet (propagate_constraint cid c acc).
Proof.
  unfold propagate_constraint. apply quiet_bind; [auto with wblog|]. intros tv.
  assert (H : quiet
    (r <- try_except except_KeyError
            (x <- reading (_resolve_container (target c)) ;; ret (Some x))
            (fun _ => ret None) ;;
     match r with
     | None => ret acc
     | Some (cont, key) =>
         wb <- get_self ;;
         let current := attr_or_unknown key (attrs_of cont wb) in
         new_val <- lift (blend current tv (strength c)) ;;
         if negb (py_eq current new_val) then
           put_self (write_attr cont key new_val wb) ;;;
           ret ((fst acc ++ [mkUpdate cid (target c) new_val])%list,
                (snd acc + change_delta current new_val)%Q)
         else ret acc
     end)).
  { apply quiet_bind.
    - apply quiet_try; [|auto with wblog].
      apply quiet_bind; auto with wblog.
    - intros [[cont key]|]; [|auto with wblog].
      apply quiet_get. intros wb. cbv zeta.
      unfold bind at 1, lift at 1.
      destruct (blend _ _ _) as [nv|e]; [|apply same_log_refl].
      destruct (negb _); [|apply same_log_refl].
      apply same_log_put; auto with wblog. }
  destruct tv; auto with wblog.
Qed.

Lemma quiet_propagate_loop cs acc : quiet (propagate_loop cs acc).
Proof.
  revert acc. induction cs as [|[cid c] rest IH]; intros acc; simpl; [auto with wblog|].
  apply quiet_bind; [apply quiet_propagate_constraint|]. intros acc'. apply IH.
Qed.

Lemma logs_propagate_once : logs propagate_once.
Proof.
  unfold propagate_once. apply logs_get. intros wb.
  change (log_step wb (snd (bind (propagate_loop (constraints wb) ([], 0%Q))
            (fun acc => bind (_bump "propagate_once")
               (fun _ => ret (mkTick (fst acc) (Z.of_nat (List.length (fst acc))) (snd acc))))
            wb))).
  apply logs_bind; [apply quiet_logs, quiet_propagate_loop|]. intros acc.
  apply logs_bind; auto with wblog.
Qed.

Lemma logs_sim_loop fuel ud ms st : logs (sim_loop fuel ud ms st).
Proof.
  revert st. induction fuel as [|f IH]; intros st; simpl; [auto with wblog|].
  destruct (sim_continue ms st); [|auto with wblog].
  apply logs_bind; [apply logs_propagate_once|]. intros r.
  repeat (break_match; [auto with wblog|]). apply IH.
Qed.

Lemma logs_simulate t ud ms : logs (simulate t ud ms).
Proof.
  unfold simulate. apply logs_bind; [apply logs_sim_loop|]. intros st.
  apply logs_bind; auto with wblog.
Qed.

Lemma logs_query_attr p : logs (query_attr p).
Proof.
  unfold query_attr. apply logs_bind; [auto with wblog|]. intros v.
  apply logs_get. intros wb.
  change (log_step wb (snd (bind (_bump "query_attr")
            (fun _ => bind get_self (fun after =>
               ret (p, v, match impl with
                          | Sketch0 => version wb
                          | Sketch3 => version after
                          end))) wb))).
  apply logs_bind; [auto with wblog|]. intros _.
  apply logs_get. intros wb'. apply log_step_refl.
Qed.

Lemma logs_query_nodes t w : logs (query_nodes t w).
Proof.
  unfold query_nodes. apply logs_get. intros wb. cbv zeta.
  match goal with |- log_step _ (snd (bind ?m ?k _)) => apply (logs_bind m k) end;
    auto with wblog.
Qed.

(** [explain]'s loop only reads. *)
Lemma explain_loop_returns path cs wb :
  exists xs, explain_loop path cs wb = (Ok xs, wb).
Proof.
  induction cs as [|c rest [xs IH]]; simpl; [eexists; reflexivity|].
  destruct (String.eqb (target c) path); [|eauto].
  unfold bind. destruct (val_returns path wb) as [v ->].
  destruct (safe_eval_returns (expr_src c) wb) as [ev ->].
  rewrite IH. eexists; reflexivity.
Qed.

Lemma logs_explain p : logs (explain p).
Proof.
  unfold explain. apply logs_get. intros wb.
  unfold bind at 1.
  destruct (explain_loop_returns p (Dict.values (constraints wb)) wb) as [xs ->].
  match goal with |- log_step _ (snd (bind ?m ?k _)) => apply (logs_bind m k) end;
    auto with wblog.
Qed.

Lemma logs_diff v : logs (diff v).
Proof.
  unfold diff. apply logs_get. intros wb. cbv zeta.
  match goal with |- log_step _ (snd (bind ?m ?k _)) => apply (logs_bind m k) end;
    auto with wblog.
Qed.

Lemma logs_snapshot : logs snapshot.
Proof.
  unfold snapshot. apply logs_get. intros wb.
  apply log_step_put; [split; reflexivity|].
  apply logs_bind; [auto with wblog|]. intros _.
  apply logs_get. intros wb'. apply log_step_refl.
Qed.

Lemma logs_revert v : logs (revert v).
Proof.
  unfold revert. apply logs_get. intros wb.
  destruct (zget v (snapshots wb)); [|apply log_step_refl].
  apply log_step_put; [split; reflexivity|].
  apply logs_bind; [auto with wblog|]. intros _.
  apply logs_get. intros wb'. apply log_step_refl.
Qed.

Lemma invoke_simulate_cases (t : Z) (u : Q) (m : option Z) :
  invoke (Simulate t u m)
  = raise (type_error "simulate() got an unexpected keyword argument 'max_steps'")
  \/ invoke (Simulate t u m) = (r <- simulate t u m ;; ret (RSim (fst r) (snd r))).
Proof. unfold invoke. destruct impl, m; auto. Qed.

Lemma logs_invoke (c : command) : logs (invoke c).
Proof.
  destruct c; simpl.
  - apply logs_create_node.
  - apply logs_create_edge.
  - apply logs_set_attr.
  - apply logs_assert_constraint.
  - apply logs_upsert_constraint.
  - apply logs_remove_constraint.
  - apply logs_define_rule.
  - apply logs_bind; [apply logs_run_rules|intros; auto with wblog].
  - apply logs_bind; [apply logs_snapshot|intros; auto with wblog].
  - apply logs_bind; [apply logs_revert|intros; auto with wblog].
  - apply logs_bind; [apply logs_propagate_once|intros; auto with wblog].
  - destruct (invoke_simulate_cases ticks until_delta max_steps) as [E|E];
      unfold invoke in E; rewrite E; [auto with wblog|].
    apply logs_bind; [apply logs_simulate|intros; auto with wblog].
  - apply logs_bind; [apply logs_query_attr|intros; auto with wblog].
  - apply logs_bind; [apply logs_query_nodes|intros; auto with wblog].
  - apply logs_bind; [apply logs_explain|intros; auto with wblog].
  - apply logs_bind; [apply logs_diff|intros; auto with wblog].
Qed.

Lemma logs_call_line (l : line) : logs (call_line l).
Proof. destruct l; simpl; auto with wblog. apply logs_invoke. Qed.

Lemma logs_run_lines ls outs : logs (run_lines ls outs).
Proof.
  revert outs. induction ls as [|l rest IH]; intros outs; simpl; [auto with wblog|].
  destruct l; auto with wblog;
    (destruct (negb (hasattr _)); [apply IH|];
     apply logs_bind; [|intros; apply IH];
     apply logs_try; [|intros; auto with wblog];
     apply logs_bind; [apply logs_call_line|intros; auto with wblog]).
Qed.

(** Every operation extends the log by bumps only, whether it returns or
    raises, so [log_ok] holds of every workbench built from [Workbench()]
    by its operations. *)
Lemma log_ok_invoke (c : command) (wb : Workbench) :
  log_ok wb -> log_ok (snd (invoke c wb)).
Proof. intros H. eapply log_ok_step; [exact H|apply logs_invoke]. Qed.

Lemma log_ok_run_commands (ls : list line) (wb : Workbench) :
  log_ok wb -> log_ok (snd (run_commands ls wb)).
Proof. intros H. eapply log_ok_step; [exact H|apply logs_run_lines]. Qed.

(** *** Version steps *)

Lemma bind_ok_inv {A B} (m : M A) (k : A -> M B) (wb wb' : Workbench) (b : B) :
  bind m k wb = (Ok b, wb') ->
  exists a wb1, m wb = (Ok a, wb1) /\ k a wb1 = (Ok b, wb').
Proof.
  unfold bind. destruct (m wb) as [[a|e] wb1]; intros H; [eauto|discriminate].
Qed.

Ltac inv_m H :=
  repeat match type of H with
         | context [match ?x with _ => _ end] => destruct x eqn:?; try discriminate H
         end;
  try (inversion H; subst; clear H).

Lemma resolve_pure_write (c : container) (k : string) (v : value) (wb : Workbench) :
  version (write_attr c k v wb) = version wb
  /\ provenance (write_attr c k v wb) = provenance wb.
Proof. apply write_attr_same_log. Qed.

Lemma create_node_bumps t i a u : bumps_once "create_node" (create_node t i a u).
Proof.
  intros wb r wb' H. unfold create_node, _bump in H. unfold_m.
  inv_m H; simpl; auto.
Qed.

Lemma create_edge_bumps t f o i a : bumps_once "create_edge" (create_edge t f o i a).
Proof.
  intros wb r wb' H. unfold create_edge, _bump in H. unfold_m.
  inv_m H; simpl; auto.
Qed.

Lemma set_attr_bumps p v c : bumps_once "set_attr" (set_attr p v c).
Proof.
  intros wb r wb' H. unfold set_attr, set_val, _bump in H. unfold_m.
  destruct (_resolve_container p wb) as [[ct k]|] eqn:E; [|discriminate].
  simpl in H. destruct c as [q|].
  - destruct (_resolve_container p (write_attr ct k v wb)) as [[ct' k']|] eqn:E';
      [|discriminate].
    simpl in H. inversion H; subst; clear H. simpl.
    destruct (resolve_pure_write ct' (k' ++ "__confidence") (VNum q) (write_attr ct k v wb))
      as [-> ->].
    destruct (resolve_pure_write ct k v wb) as [-> ->]. auto.
  - inversion H; subst; clear H. simpl.
    destruct (resolve_pure_write ct k v wb) as [-> ->]. auto.
Qed.

Lemma assert_constraint_bumps p x s n i u :
  bumps_once "assert_constraint" (assert_constraint p x s n i u).
Proof.
  intros wb r wb' H. unfold assert_constraint, _bump in H. unfold_m.
  inv_m H; simpl; auto.
Qed.

Lemma upsert_constraint_bumps i p x s n :
  bumps_once "upsert_constraint" (upsert_constraint i p x s n).
Proof.
  intros wb r wb' H. unfold upsert_constraint, _bump in H. unfold_m.
  inv_m H; simpl; auto.
Qed.

Lemma define_rule_bumps n a b c : bumps_once "define_rule" (define_rule n a b c).
Proof.
  intros wb r wb' H. unfold define_rule, _bump in H. unfold_m.
  inv_m H; simpl; auto.
Qed.

Lemma snapshot_bumps : bumps_once "snapshot" snapshot.
Proof.
  intros wb r wb' H. unfold snapshot, _bump in H. unfold_m.
  inv_m H; simpl; auto.
Qed.

Lemma revert_bumps v : bumps_once "revert" (revert v).
Proof.
  intros wb r wb' H. unfold revert, _bump in H. unfold_m.
  inv_m H; simpl; auto.
Qed.

Lemma remove_constraint_bumps i wb r wb' :
  remove_constraint i wb = (Ok r, wb') ->
  (r = RRemoved None /\ wb' = wb)
  \/ (r = RRemoved (Some i) /\ version wb' = version wb + 1
      /\ provenance wb' = (provenance wb ++ [mkEntry "remove_constraint" (version wb + 1)])%list).
Proof.
  intros H. unfold remove_constraint, _bump in H. unfold_m.
  inv_m H; simpl; auto.
Qed.

Lemma query_nodes_bumps t w : bumps_once "query_nodes" (query_nodes t w).
Proof.
  intros wb r wb' H. unfold query_nodes, _bump in H. unfold_m.
  inv_m H; simpl; auto.
Qed.

(** [query_attr] always returns; it bumps once and changes nothing else. *)
Lemma query_attr_returns (path : string) (wb : Workbench) :
  exists v,
    val path wb = (Ok v, wb)
    /\ query_attr path wb
       = (Ok (path, v, match impl with
                       | Sketch0 => version wb
                       | Sketch3 => version wb + 1
                       end),
          with_log wb (version wb + 1)
            (provenance wb ++ [mkEntry "query_attr" (version wb + 1)])).
Proof.
  destruct (val_returns path wb) as [v Hv]. exists v. split; [exact Hv|].
  unfold query_attr, _bump. unfold_m. rewrite Hv. simpl.
  destruct impl; reflexivity.
Qed.

(** [explain] always returns; it bumps once and changes nothing else. *)
Lemma explain_returns (path : string) (wb : Workbench) :
  exists xs,
    explain path wb
    = (Ok xs, with_log wb (version wb + 1)
                (provenance wb ++ [mkEntry "explain" (version wb + 1)])).
Proof.
  destruct (explain_loop_returns path (Dict.values (constraints wb)) wb) as [xs Hx].
  exists xs. unfold explain, _bump. unfold_m. rewrite Hx. reflexivity.
Qed.

(** [diff] always returns the entries newer than [v], in log order; it
    bumps once and changes nothing else. *)
Lemma diff_returns (v : Z) (wb : Workbench) :
  diff v wb
  = (Ok (newer_than v (provenance wb)),
     with_log wb (version wb + 1)
       (provenance wb ++ [mkEntry "diff" (version wb + 1)])).
Proof. reflexivity. Qed.

Lemma quiet_ok {A} (m : M A) (wb wb' : Workbench) (o : outcome A) :
  quiet m -> m wb = (o, wb') ->
  version wb' = version wb /\ provenance wb' = provenance wb.
Proof. intros Hq H. specialize (Hq wb). rewrite H in Hq. exact Hq. Qed.

Lemma propagate_once_bumps : bumps_once "propagate_once" propagate_once.
Proof.
  intros wb r wb' H. unfold propagate_once in H.
  unfold bind at 1, get_self at 1 in H.
  apply bind_ok_inv in H. destruct H as [acc [wb1 [Hl H]]].
  apply (quiet_ok _ _ _ _ (quiet_propagate_loop _ _)) in Hl. destruct Hl as [Hv Hp].
  unfold _bump in H. unfold_m. inversion H; subst; clear H. simpl.
  rewrite Hv, Hp. auto.
Qed.

Lemma apply_actions_versions name env acts st wb st' wb' :
  apply_actions name env acts st wb = (Ok st', wb') ->
  version wb' = version wb + (fst st' - fst st).
Proof.
  revert st wb. induction acts as [|act rest IH]; intros st wb H; simpl in H.
  - unfold ret in H. inversion H; subst. lia.
  - destruct (ensure_constraint act).
    + apply bind_ok_inv in H. destruct H as [r [wb1 [Hu H]]].
      apply upsert_constraint_bumps in Hu. destruct Hu as [Hv _].
      apply IH in H. simpl in H. lia.
    + apply IH in H. exact H.
Qed.

Lemma match_loop_versions limit rule envs st wb st' wb' :
  match_loop limit rule envs st wb = (Ok st', wb') ->
  version wb' = version wb + (fst st' - fst st).
Proof.
  revert st wb. induction envs as [|env rest IH]; intros st wb H; simpl in H.
  - unfold ret in H. inversion H; subst. lia.
  - destruct (limit_reached limit (fst st)).
    + unfold ret in H. inversion H; subst. lia.
    + apply bind_ok_inv in H. destruct H as [st1 [wb1 [Ha H]]].
      apply apply_actions_versions in Ha. apply IH in H. lia.
Qed.

Lemma rules_loop_versions limit rs st wb st' wb' :
  rules_loop limit rs st wb = (Ok st', wb') ->
  version wb' = version wb + (fst st' - fst st).
Proof.
  revert st wb. induction rs as [|rule rest IH]; intros st wb H; simpl in H.
  - unfold ret in H. inversion H; subst. lia.
  - unfold bind at 1, get_self at 1 in H.
    apply bind_ok_inv in H. destruct H as [st1 [wb1 [Ha H]]].
    apply match_loop_versions in Ha. apply IH in H. lia.
Qed.

(** [run_rules] bumps once per applied action and once for itself. *)
Lemma run_rules_versions limit wb st wb' :
  run_rules limit wb = (Ok st, wb') -> version wb' = version wb + fst st + 1.
Proof.
  intros H. unfold run_rules in H. unfold bind at 1, get_self at 1 in H.
  apply bind_ok_inv in H. destruct H as [st1 [wb1 [Ha H]]].
  apply rules_loop_versions in Ha. simpl in Ha.
  unfold _bump in H. unfold_m. inversion H; subst; clear H. simpl. lia.
Qed.

Lemma sim_loop_versions fuel ud ms st wb st' wb' :
  sim_loop fuel ud ms st wb = (Ok st', wb') ->
  version wb' = version wb + (sim_steps st' - sim_steps st).
Proof.
  revert st wb. induction fuel as [|f IH]; intros st wb H; simpl in H.
  - unfold ret in H. inversion H; subst. lia.
  - destruct (sim_continue ms st).
    + apply bind_ok_inv in H. destruct H as [r [wb1 [Hp H]]].
      apply propagate_once_bumps in Hp. destruct Hp as [Hv _].
      repeat match type of H with
             | context [if ?b then _ else _] => destruct b
             end;
        try (unfold ret in H; inversion H; subst; simpl; lia).
      apply IH in H. simpl in H. lia.
    + unfold ret in H. inversion H; subst. lia.
Qed.

(** [simulate] bumps once per tick and once for itself. *)
Lemma simulate_versions t ud ms wb r wb' :
  simulate t ud ms wb = (Ok r, wb') -> version wb' = version wb + fst r + 1.
Proof.
  intros H. unfold simulate in H.
  apply bind_ok_inv in H. destruct H as [st1 [wb1 [Ha H]]].
  apply sim_loop_versions in Ha. simpl in Ha.
  unfold _bump in H. unfold_m. inversion H; subst; clear H. simpl. lia.
Qed.

Lemma invoke_version_step (c : command) (wb wb' : Workbench) (r : retval) :
  invoke c wb = (Ok r, wb') -> version wb' = version wb + bumps_of c r.
Proof.
  intros H. destruct c; simpl in H.
  - apply create_node_bumps in H. destruct H as [H _].
    rewrite H. destruct r; reflexivity.
  - apply create_edge_bumps in H. destruct H as [H _].
    rewrite H. destruct r; reflexivity.
  - apply set_attr_bumps in H. destruct H as [H _].
    rewrite H. destruct r; reflexivity.
  - apply assert_constraint_bumps in H. destruct H as [H _].
    rewrite H. destruct r; reflexivity.
  - apply upsert_constraint_bumps in H. destruct H as [H _].
    rewrite H. destruct r; reflexivity.
  - apply remove_constraint_bumps in H.
    destruct H as [[-> ->]|[-> [H _]]]; simpl; lia.
  - apply define_rule_bumps in H. destruct H as [H _].
    rewrite H. destruct r; reflexivity.
  - apply bind_ok_inv in H. destruct H as [st [wb1 [Hr H]]].
    apply run_rules_versions in Hr. unfold ret in H. inversion H; subst. simpl. lia.
  - apply bind_ok_inv in H. destruct H as [v [wb1 [Hr H]]].
    apply snapshot_bumps in Hr. unfold ret in H. inversion H; subst. simpl. tauto.
  - apply bind_ok_inv in H. destruct H as [v' [wb1 [Hr H]]].
    apply revert_bumps in Hr. unfold ret in H. inversion H; subst. simpl. tauto.
  - apply bind_ok_inv in H. destruct H as [t [wb1 [Hr H]]].
    apply propagate_once_bumps in Hr. unfold ret in H. inversion H; subst. simpl. tauto.
  - destruct (invoke_simulate_cases ticks until_delta max_steps) as [E|E];
      unfold invoke in E; rewrite E in H; [discriminate|].
    apply bind_ok_inv in H. destruct H as [s [wb1 [Hr H]]].
    apply simulate_versions in Hr. unfold ret in H. inversion H; subst. simpl. lia.
  - apply bind_ok_inv in H. destruct H as [q [wb1 [Hr H]]].
    destruct (query_attr_returns path wb) as [v [_ Hq]]. rewrite Hq in Hr.
    unfold ret in H. inversion H; inversion Hr; subst. simpl. reflexivity.
  - apply bind_ok_inv in H. destruct H as [ns [wb1 [Hr H]]].
    apply query_nodes_bumps in Hr. unfold ret in H. inversion H; subst. simpl. tauto.
  - apply bind_ok_inv in H. destruct H as [xs [wb1 [Hr H]]].
    destruct (explain_returns path wb) as [xs' Hq]. rewrite Hq in Hr.
    unfold ret in H. inversion H; inversion Hr; subst. simpl. reflexivity.
  - apply bind_ok_inv in H. destruct H as [ds [wb1 [Hr H]]].
    rewrite diff_returns in Hr.
    unfold ret in H. inversion H; inversion Hr; subst. simpl. reflexivity.
Qed.

(** *** What [diff] returns *)

Lemma newer_than_newer (v : Z) (log : list ProvenanceEntry) (pe : ProvenanceEntry) :
  In pe (newer_than v log) <-> In pe log /\ v < pe_version pe.
Proof.
  unfold newer_than. rewrite filter_In. rewrite Z.ltb_lt. tauto.
Qed.

Lemma newer_than_all (v a : Z) (ops : list string) :
  v <= a -> newer_than v (entries_from a ops) = entries_from a ops.
Proof.
  revert a. induction ops as [|op rest IH]; intros a Hv; simpl; [reflexivity|].
  destruct (v <? a + 1) eqn:E; [|apply Z.ltb_ge in E; lia].
  f_equal. apply IH. lia.
Qed.

Lemma length_entries_from (a : Z) (ops : list string) :
  List.length (entries_from a ops) = List.length ops.
Proof. revert a. induction ops as [|op rest IH]; intros a; simpl; auto. Qed.

Lemma newer_than_length (v a : Z) (ops : list string) :
  a <= v <= a + Z.of_nat (List.length ops) ->
  Z.of_nat (List.length (newer_than v (entries_from a ops)))
  = a + Z.of_nat (List.length ops) - v.
Proof.
  revert a. induction ops as [|op rest IH]; intros a Hv.
  - simpl in *. lia.
  - cbn [entries_from newer_than filter pe_version].
    destruct (Z.eq_dec v a) as [->|Hne].
    + destruct (a <? a + 1) eqn:E; [|apply Z.ltb_ge in E; lia].
      fold (newer_than a (entries_from (a + 1) rest)).
      rewrite newer_than_all by lia.
      cbn [List.length]. rewrite length_entries_from. lia.
    + destruct (v <? a + 1) eqn:E; [apply Z.ltb_lt in E; lia|].
      fold (newer_than v (entries_from (a + 1) rest)).
      rewrite IH; cbn [List.length] in *; lia.
Qed.

Lemma diff_length (v : Z) (wb : Workbench) :
  log_ok wb -> 0 <= v <= version wb ->
  Z.of_nat (List.length (newer_than v (provenance wb))) = version wb - v.
Proof.
  intros [ops [Hv Hp]] Hr. rewrite Hp, Hv. rewrite newer_than_length; lia.
Qed.

(** *** Evaluation failures *)

Lemma propagate_constraint_skips cid c acc wb e :
  py_eval (expr_src c) wb = Raise e ->
  propagate_constraint cid c acc wb = (Ok acc, wb).
Proof.
  intros H. unfold propagate_constraint. unfold bind at 1.
  rewrite (safe_eval_failure _ _ _ H). reflexivity.
Qed.

Lemma resolve_in_try (path : string) (wb : Workbench) :
  try_except except_KeyError
    (x <- reading (_resolve_container path) ;; ret (Some x))
    (fun _ => ret None) wb
  = (Ok match _resolve_container path wb with
        | Ok x => Some x
        | Raise _ => None
        end, wb).
Proof.
  unfold_m. destruct (_resolve_container path wb) eqn:E; [reflexivity|].
  rewrite (resolve_raises_KeyError _ _ _ E). reflexivity.
Qed.

Lemma propagate_constraint_raises cid c acc wb e wb' :
  propagate_constraint cid c acc wb = (Raise e, wb') ->
  exists tv cont key,
    py_eval (expr_src c) wb = Ok tv
    /\ _resolve_container (target c) wb = Ok (cont, key)
    /\ blend (attr_or_unknown key (attrs_of cont wb)) tv (strength c) = Raise e.
Proof.
  unfold propagate_constraint. unfold bind at 1.
  destruct (py_eval (expr_src c) wb) as [tv|x] eqn:E.
  - rewrite (safe_eval_success _ _ _ E). intros H.
    assert (H' :
      (r <- try_except except_KeyError
              (x <- reading (_resolve_container (target c)) ;; ret (Some x))
              (fun _ => ret None) ;;
       match r with
       | None => ret acc
       | Some (cont, key) =>
           wb0 <- get_self ;;
           let current := attr_or_unknown key (attrs_of cont wb0) in
           new_val <- lift (blend current tv (strength c)) ;;
           if negb (py_eq current new_val) then
             put_self (write_attr cont key new_val wb0) ;;;
             ret ((fst acc ++ [mkUpdate cid (target c) new_val])%list,
                  (snd acc + change_delta current new_val)%Q)
           else ret acc
       end) wb = (Raise e, wb')).
    { destruct tv; try exact H. discriminate H. }
    clear H. unfold bind at 1 in H'. rewrite resolve_in_try in H'.
    destruct (_resolve_container (target c) wb) as [[cont key]|] eqn:R;
      [|discriminate H'].
    exists tv, cont, key. repeat split; auto.
    unfold_m. cbv zeta in H'.
    destruct (blend _ tv (strength c)) as [nv|e'] eqn:B.
    + destruct (negb _); discriminate H'.
    + inversion H'; subst. reflexivity.
  - rewrite (safe_eval_failure _ _ _ E). discriminate.
Qed.

Lemma propagate_loop_raises cs acc wb e wb' :
  propagate_loop cs acc wb = (Raise e, wb') -> blend_failure cs e.
Proof.
  revert acc wb. induction cs as [|[cid c] rest IH]; intros acc wb H; simpl in H.
  - discriminate.
  - unfold bind in H.
    destruct (propagate_constraint cid c acc wb) as [[acc1|e1] wb1] eqn:P.
    + apply IH in H. destruct H as [cid' [c' [w [tv [ct [k [Hin Hrest]]]]]]].
      exists cid', c', w, tv, ct, k. split; [right; exact Hin|exact Hrest].
    + inversion H; subst.
      apply propagate_constraint_raises in P.
      destruct P as [tv [ct [k [He [Hr Hb]]]]].
      exists cid, c, wb, tv, ct, k. split; [left; reflexivity|auto].
Qed.

Lemma propagate_once_raises wb e wb' :
  propagate_once wb = (Raise e, wb') -> blend_failure (constraints wb) e.
Proof.
  unfold propagate_once. unfold bind at 1, get_self at 1. unfold bind at 1.
  destruct (propagate_loop (constraints wb) ([], 0%Q) wb) as [[acc|e1] wb1] eqn:P.
  - unfold _bump, bind, ret. discriminate.
  - intros H. inversion H; subst. eapply propagate_loop_raises. exact P.
Qed.

Lemma sim_loop_raises fuel ud ms st wb e wb' :
  sim_loop fuel ud ms st wb = (Raise e, wb') ->
  exists wb1 wb2, propagate_once wb1 = (Raise e, wb2).
Proof.
  revert st wb. induction fuel as [|f IH]; intros st wb H; simpl in H.
  - discriminate.
  - destruct (sim_continue ms st); [|discriminate].
    unfold bind in H.
    destruct (propagate_once wb) as [[r|e1] wb1] eqn:P.
    + repeat match type of H with
             | context [if ?b then _ else _] => destruct b
             end; try discriminate H.
      eapply IH. exact H.
    + inversion H; subst. eauto.
Qed.

Lemma simulate_raises t ud ms wb e wb' :
  simulate t ud ms wb = (Raise e, wb') ->
  exists wb1, blend_failure (constraints wb1) e.
Proof.
  unfold simulate. unfold bind at 1.
  destruct (sim_loop _ _ _ _ wb) as [[st|e1] wb1] eqn:S.
  - unfold _bump, bind, ret. discriminate.
  - intros H. inversion H; subst.
    apply sim_loop_raises in S. destruct S as [w1 [w2 P]].
    exists w1. eapply propagate_once_raises. exact P.
Qed.


(** *** The simulate loop *)

Lemma sim_continue_measure ms st :
  sim_continue ms st = true -> (1 <= sim_measure ms st)%nat.
Proof.
  unfold sim_continue, sim_measure. intros H.
  apply orb_true_iff in H. destruct H as [H|H].
  - apply Z.ltb_lt in H. lia.
  - apply andb_true_iff in H. destruct H as [_ H]. apply Z.ltb_lt in H. lia.
Qed.

(** The bound [sim_loop] is given never cuts the [while] loop short: any
    two bounds of at least [sim_measure] rounds give the same run. *)
Lemma sim_loop_fuel f1 f2 ud ms st wb :
  (sim_measure ms st <= f1)%nat -> (sim_measure ms st <= f2)%nat ->
  sim_loop f1 ud ms st wb = sim_loop f2 ud ms st wb.
Proof.
  revert f2 st wb. induction f1 as [|f1 IH]; intros f2 st wb H1 H2.
  - destruct f2 as [|f2]; [reflexivity|]. simpl.
    destruct (sim_continue ms st) eqn:E; [|reflexivity].
    apply sim_continue_measure in E. lia.
  - destruct f2 as [|f2]; simpl.
    + destruct (sim_continue ms st) eqn:E; [|reflexivity].
      apply sim_continue_measure in E. lia.
    + destruct (sim_continue ms st) eqn:E; [|reflexivity].
      apply sim_continue_measure in E.
      unfold bind. destruct (propagate_once wb) as [[r|e] wb1]; [|reflexivity].
      repeat match goal with
             | |- context [if ?b then _ else _] => destruct b; [reflexivity|]
             end.
      apply IH; unfold sim_measure in *; simpl; lia.
Qed.

Lemma sim_fuel_adequate extra ticks ud ms wb :
  sim_loop (sim_fuel ticks ms + extra) ud ms (mkSim ticks 0 0 None) wb
  = sim_loop (sim_fuel ticks ms) ud ms (mkSim ticks 0 0 None) wb.
Proof.
  apply sim_loop_fuel; unfold sim_measure, sim_fuel; simpl;
    rewrite Z.sub_0_r; lia.
Qed.

Lemma sim_loop_sound fuel ud st wb st' wb' :
  (Z.to_nat (sim_ticks st) <= fuel)%nat ->
  sim_loop fuel ud None st wb = (Ok st', wb') ->
  exists n tot,
    sim_run ud (sim_ticks st) (sim_last st) wb n tot wb'
    /\ sim_steps st' = sim_steps st + n
    /\ sim_total st' = sim_total st + tot.
Proof.
  revert st wb. induction fuel as [|f IH]; intros st wb Hf H; simpl in H.
  - unfold ret in H. inversion H; subst.
    exists 0, 0. split; [apply run_budget; lia|lia].
  - unfold sim_continue in H. simpl in H. rewrite orb_false_r in H.
    destruct (0 <? sim_ticks st) eqn:Ht.
    + apply Z.ltb_lt in Ht.
      apply bind_ok_inv in H. destruct H as [r [wb1 [Hp H]]].
      simpl in H.
      destruct (truthy_q ud && Qle_bool (delta r) ud) eqn:E1.
      { unfold ret in H. inversion H; subst. simpl.
        exists 1, (count r). split; [|lia].
        eapply run_stop; eauto. unfold stops. rewrite E1. reflexivity. }
      destruct ((count r =? 0)
                && match sim_last st with Some d => Qeq_bool d 0 | None => true end) eqn:E2.
      { unfold ret in H. inversion H; subst. simpl.
        exists 1, (count r). split; [|lia].
        eapply run_stop; eauto. unfold stops. rewrite E1, E2. reflexivity. }
      apply IH in H; [|simpl; lia].
      destruct H as [n [tot [Hrun [Hs Htot]]]]. simpl in *.
      exists (n + 1), (count r + tot). split; [|lia].
      eapply run_go; eauto. unfold stops. rewrite E1, E2. reflexivity.
    + apply Z.ltb_ge in Ht. unfold ret in H. inversion H; subst.
      exists 0, 0. split; [apply run_budget; lia|lia].
Qed.

Lemma sim_loop_complete ud ticks last wb n tot wb' :
  sim_run ud ticks last wb n tot wb' ->
  forall fuel st,
    (Z.to_nat ticks <= fuel)%nat -> sim_ticks st = ticks -> sim_last st = last ->
    exists st',
      sim_loop fuel ud None st wb = (Ok st', wb')
      /\ sim_steps st' = sim_steps st + n
      /\ sim_total st' = sim_total st + tot.
Proof.
  induction 1 as [ticks last wb Hle
                 |ticks last wb r wb1 Hlt Hp Hs
                 |ticks last wb r wb1 n tot wb2 Hlt Hp Hs Hrun IH];
    intros fuel st Hf Ht Hl.
  - exists st. split; [|lia].
    destruct fuel; simpl; [reflexivity|].
    unfold sim_continue. simpl. rewrite orb_false_r.
    destruct (0 <? sim_ticks st) eqn:E; [apply Z.ltb_lt in E; lia|reflexivity].
  - destruct fuel as [|f]; [lia|]. simpl.
    unfold sim_continue. simpl. rewrite orb_false_r.
    destruct (0 <? sim_ticks st) eqn:E; [|apply Z.ltb_ge in E; lia].
    unfold bind. rewrite Hp. simpl.
    unfold stops in Hs. rewrite Hl.
    destruct (truthy_q ud && Qle_bool (delta r) ud) eqn:E1.
    + eexists. split; [reflexivity|]. simpl. lia.
    + simpl in Hs. rewrite Hs. eexists. split; [reflexivity|]. simpl. lia.
  - destruct fuel as [|f]; [lia|]. simpl.
    unfold sim_continue. simpl. rewrite orb_false_r.
    destruct (0 <? sim_ticks st) eqn:E; [|apply Z.ltb_ge in E; lia].
    unfold bind. rewrite Hp. simpl.
    unfold stops in Hs. rewrite Hl.
    apply orb_false_iff in Hs. destruct Hs as [E1 E2]. rewrite E1, E2.
    destruct (IH f (mkSim (sim_ticks st - 1) (sim_steps st + 1)
                      (sim_total st + count r) (Some (delta r))))
      as [st' [Hloop [Hs' Ht']]]; simpl; try lia; try reflexivity.
    exists st'. split; [exact Hloop|]. simpl in *. lia.
Qed.

(** C7, as amended.  [simulate(ticks, until_delta)] returns [steps] and
    [total] exactly when the ticks run as [sim_run] describes: it stops when
    the budget is used up, or after the first tick for which [stops] holds,
    that is, the threshold is not 0 and the tick's delta is at most the
    threshold, or the tick made no update and the tick before it had delta 0
    or there was no tick before it.  It then bumps once itself. *)
Theorem simulate_stopping_rule (ticks : Z) (until_delta : Q) (wb wb' : Workbench)
    (steps total : Z) :
  simulate ticks until_delta None wb = (Ok (steps, total), wb') <->
  exists wb1,
    sim_run until_delta ticks None wb steps total wb1
    /\ wb' = snd (_bump "simulate" wb1).
Proof.
  unfold simulate. split.
  - intros H. apply bind_ok_inv in H. destruct H as [st [wb1 [Hl H]]].
    apply sim_loop_sound in Hl; [|unfold sim_fuel; simpl; lia].
    destruct Hl as [n [tot [Hrun [Hs Ht]]]]. simpl in *.
    unfold _bump, bind, ret in H. inversion H; subst; clear H.
    exists wb1. split; [|reflexivity]. exact Hrun.
  - intros [wb1 [Hrun ->]].
    destruct (sim_loop_complete _ _ _ _ _ _ _ Hrun (sim_fuel ticks None)
                (mkSim ticks 0 0 None)) as [st [Hl [Hs Ht]]];
      try reflexivity; [unfold sim_fuel; simpl; lia|].
    unfold bind. rewrite Hl. simpl in *. unfold _bump, ret. simpl.
    rewrite Hs, Ht. reflexivity.
Qed.

(** *** Rules *)

Lemma fold_left_ext {A B} (f g : A -> B -> A) (l : list B) (a : A) :
  (forall a b, f a b = g a b) -> fold_left f l a = fold_left g l a.
Proof.
  intros H. revert a. induction l as [|b r IH]; intros a; simpl; [reflexivity|].
  rewrite H. apply IH.
Qed.

Lemma node_candidates_graph pat wb wb' :
  nodes wb' = nodes wb -> _node_candidates pat wb' = _node_candidates pat wb.
Proof. intros H. unfold _node_candidates. rewrite H. reflexivity. Qed.

Lemma edge_candidates_graph pat env wb wb' :
  edges wb' = edges wb -> _edge_candidates pat env wb' = _edge_candidates pat env wb.
Proof. intros H. unfold _edge_candidates. rewrite H. reflexivity. Qed.

Lemma backtrack_edges_graph wb wb' pats j env :
  edges wb' = edges wb -> backtrack_edges wb' pats j env = backtrack_edges wb pats j env.
Proof.
  intros He. revert j env. induction pats as [|pat rest IH]; intros j env; simpl.
  - reflexivity.
  - rewrite (edge_candidates_graph _ _ _ _ He).
    apply fold_left_ext. intros [ys env0] e.
    destruct (match impl with Sketch0 => _ | Sketch3 => _ end); [reflexivity|].
    rewrite IH. reflexivity.
Qed.

Lemma backtrack_nodes_graph wb wb' eps pats env :
  nodes wb' = nodes wb -> edges wb' = edges wb ->
  backtrack_nodes wb' eps pats env = backtrack_nodes wb eps pats env.
Proof.
  intros Hn He. revert env. induction pats as [|pat rest IH]; intros env; simpl.
  - rewrite (backtrack_edges_graph _ _ _ _ _ He). reflexivity.
  - rewrite (node_candidates_graph _ _ _ Hn).
    apply fold_left_ext. intros [ys env0] nid.
    destruct (in_values nid env0); [reflexivity|].
    rewrite IH. reflexivity.
Qed.

(** The matches of a rule depend on the graph only. *)
Lemma match_rule_graph rule wb wb' :
  same_graph wb wb' -> _match_rule rule wb' = _match_rule rule wb.
Proof.
  intros [Hn [He _]]. unfold _match_rule.
  rewrite (backtrack_nodes_graph _ _ _ _ _ Hn He). reflexivity.
Qed.

Lemma same_graph_refl wb : same_graph wb wb.
Proof. repeat split. Qed.

Lemma same_graph_trans a b c : same_graph a b -> same_graph b c -> same_graph a c.
Proof. intros [? [? ?]] [? [? ?]]. repeat split; congruence. Qed.

Lemma upsert_constraint_effect i p x s n wb :
  exists wb',
    upsert_constraint i p x s n wb = (Ok (RId i), wb')
    /\ constraints wb' = Dict.set i (mkConstraint i p x s n) (constraints wb)
    /\ same_graph wb wb'.
Proof. eexists. split; [reflexivity|]. repeat split. Qed.

Lemma apply_actions_effect name env acts st wb :
  exists details wb',
    apply_actions name env acts st wb
    = (Ok (fst st + Z.of_nat (List.length (action_instances name env acts)), details), wb')
    /\ constraints wb' = upserts (constraints wb) (action_instances name env acts)
    /\ same_graph wb wb'.
Proof.
  revert st wb. induction acts as [|act rest IH]; intros st wb; simpl.
  - exists (snd st), wb. unfold ret. rewrite Z.add_0_r. destruct st.
    repeat split.
  - destruct (ensure_constraint act) as [spec|]; [|apply IH].
    unfold bind.
    destruct (upsert_constraint_effect
                (rule_cid name (_format (es_target spec) env))
                (_format (es_target spec) env) (_format (es_expr spec) env)
                (default_strength (es_strength spec))
                (default_note (es_note spec) name) wb) as [wb1 [-> [Hc Hg]]].
    destruct (IH (fst st + 1,
                  (snd st ++ [mkDetail name (rule_cid name (_format (es_target spec) env))])%list)
                 wb1) as [details [wb' [-> [Hc' Hg']]]].
    exists details, wb'. split; [|split].
    + simpl. do 3 f_equal. lia.
    + rewrite Hc', Hc. reflexivity.
    + eapply same_graph_trans; eauto.
Qed.

Lemma match_loop_effect limit rule envs st wb :
  exists details wb',
    match_loop limit rule envs st wb
    = (Ok (fst st + Z.of_nat (List.length (match_instances limit rule envs (fst st))),
           details), wb')
    /\ constraints wb' = upserts (constraints wb) (match_instances limit rule envs (fst st))
    /\ same_graph wb wb'.
Proof.
  revert st wb. induction envs as [|env rest IH]; intros st wb; simpl.
  - exists (snd st), wb. unfold ret. rewrite Z.add_0_r. destruct st. repeat split.
  - destruct (limit_reached limit (fst st)).
    + exists (snd st), wb. unfold ret. simpl. rewrite Z.add_0_r. destruct st.
      repeat split.
    + unfold bind.
      destruct (apply_actions_effect (r_name rule) env (actions rule) st wb)
        as [d1 [wb1 [-> [Hc Hg]]]].
      destruct (IH (fst st + Z.of_nat (List.length
                                         (action_instances (r_name rule) env (actions rule))),
                    d1) wb1) as [d2 [wb' [-> [Hc' Hg']]]].
      exists d2, wb'. simpl in *. split; [|split].
      * rewrite length_app. do 3 f_equal. lia.
      * rewrite Hc', Hc, upserts_app. reflexivity.
      * eapply same_graph_trans; eauto.
Qed.

Lemma rules_instances_graph limit rs wb wb' applied :
  same_graph wb wb' -> rules_instances limit rs wb' applied = rules_instances limit rs wb applied.
Proof.
  intros Hg. revert applied. induction rs as [|rule rest IH]; intros applied; simpl.
  - reflexivity.
  - rewrite (match_rule_graph _ _ _ Hg), IH. reflexivity.
Qed.

Lemma rules_loop_effect limit rs st wb :
  exists details wb',
    rules_loop limit rs st wb
    = (Ok (fst st + Z.of_nat (List.length (rules_instances limit rs wb (fst st))),
           details), wb')
    /\ constraints wb' = upserts (constraints wb) (rules_instances limit rs wb (fst st))
    /\ same_graph wb wb'.
Proof.
  revert st wb. induction rs as [|rule rest IH]; intros st wb; simpl.
  - exists (snd st), wb. unfold ret. rewrite Z.add_0_r. destruct st. repeat split.
  - unfold bind at 1, get_self at 1. unfold bind.
    destruct (match_loop_effect limit rule (_match_rule rule wb) st wb)
      as [d1 [wb1 [-> [Hc Hg]]]].
    destruct (IH (fst st + Z.of_nat (List.length
                                       (match_instances limit rule (_match_rule rule wb) (fst st))),
                  d1) wb1) as [d2 [wb' [-> [Hc' Hg']]]].
    simpl in *. rewrite (rules_instances_graph _ _ _ _ _ Hg) in Hc' |- *.
    exists d2, wb'. split; [|split].
    + rewrite length_app. do 3 f_equal. lia.
    + rewrite Hc', Hc, upserts_app. reflexivity.
    + eapply same_graph_trans; eauto.
Qed.

(** [run_rules] always returns; it upserts [rules_instances] in order and
    leaves the graph and the rules alone. *)
Lemma run_rules_effect limit wb :
  exists details wb',
    run_rules limit wb
    = (Ok (Z.of_nat (List.length (rules_instances limit (Dict.values (rules wb)) wb 0)),
           details), wb')
    /\ constraints wb'
       = upserts (constraints wb) (rules_instances limit (Dict.values (rules wb)) wb 0)
    /\ same_graph wb wb'.
Proof.
  unfold run_rules. unfold bind at 1, get_self at 1. unfold bind at 1.
  destruct (rules_loop_effect limit (Dict.values (rules wb)) (0, []) wb)
    as [d [wb1 [-> [Hc Hg]]]].
  simpl in *. eexists d, _. split; [reflexivity|]. simpl.
  split; [exact Hc|]. destruct Hg as [? [? ?]]. repeat split; assumption.
Qed.

Lemma match_instances_unlimited rule envs applied :
  match_instances None rule envs applied
  = flat_map (fun env => action_instances (r_name rule) env (actions rule)) envs.
Proof.
  revert applied. induction envs as [|env rest IH]; intros applied; simpl; [reflexivity|].
  rewrite IH. reflexivity.
Qed.

Lemma rules_instances_unlimited rs wb applied :
  rules_instances None rs wb applied
  = flat_map (fun rule =>
                flat_map (fun env => action_instances (r_name rule) env (actions rule))
                  (_match_rule rule wb)) rs.
Proof.
  revert applied. induction rs as [|rule rest IH]; intros applied; simpl; [reflexivity|].
  rewrite match_instances_unlimited, IH. reflexivity.
Qed.

Lemma action_instances_in name env acts kc :
  In kc (action_instances name env acts) ->
  exists spec, In (mkAction (Some spec)) acts /\ kc = instance name env spec.
Proof.
  induction acts as [|[[spec|]] rest IH]; simpl; intros H.
  - contradiction.
  - destruct H as [<-|H]; [eauto|].
    destruct (IH H) as [s [Hin ->]]. eauto.
  - destruct (IH H) as [s [Hin ->]]. eauto.
Qed.


(** *** Command batches *)

Lemma run_lines_batch ls acc wb :
  forallb parsed ls = true ->
  exists outs wb',
    run_lines ls acc wb = (Ok (acc ++ outs)%list, wb') /\ batch ls wb outs wb'.
Proof.
  revert acc wb. induction ls as [|l rest IH]; intros acc wb Hp.
  - exists [], wb. simpl. unfold ret. rewrite app_nil_r. split; [reflexivity|constructor].
  - simpl in Hp. apply andb_true_iff in Hp. destruct Hp as [Hl Hp].
    assert (Hcall : forall op, line_op l = Some op ->
              exists outs wb',
                (if negb (hasattr op)
                 then run_lines rest (acc ++ [unknown_record l op])
                 else
                   out <- try_except except_Exception
                            (res <- call_line l ;; ret (ok_record op res))
                            (fun e => ret (error_record l op e)) ;;
                   run_lines rest (acc ++ [out])) wb
                = (Ok (acc ++ outs)%list, wb') /\ batch (l :: rest) wb outs wb').
    { intros op Hop. destruct (hasattr op) eqn:Hh; simpl.
      - unfold bind, try_except, except_Exception.
        destruct (call_line l wb) as [[res|e] wb1] eqn:Hc; simpl.
        + destruct (IH (acc ++ [ok_record op res])%list wb1 Hp) as [outs [wb' [-> Hb]]].
          exists (ok_record op res :: outs), wb'.
          rewrite <- app_assoc. split; [reflexivity|].
          eapply batch_ok; eauto.
        + destruct (IH (acc ++ [error_record l op e])%list wb1 Hp) as [outs [wb' [Hr Hb]]].
          exists (error_record l op e :: outs), wb'.
          rewrite Hr, <- app_assoc. split; [reflexivity|].
          eapply batch_failed; eauto.
      - destruct (IH (acc ++ [unknown_record l op])%list wb Hp) as [outs [wb' [-> Hb]]].
        exists (unknown_record l op :: outs), wb'.
        rewrite <- app_assoc. split; [reflexivity|].
        eapply batch_unknown; eauto. }
    destruct l; try discriminate Hl; simpl.
    + destruct (IH acc wb Hp) as [outs [wb' [-> Hb]]].
      exists outs, wb'. split; [reflexivity|constructor; exact Hb].
    + apply (Hcall (op_name c)). reflexivity.
    + apply (Hcall op). reflexivity.
Qed.

Lemma run_lines_aborts pre l post acc wb :
  forallb parsed pre = true -> parsed l = false ->
  exists e wb', run_lines (pre ++ l :: post) acc wb = (Raise e, wb').
Proof.
  intros Hp Hl. revert acc wb.
  induction pre as [|p pre IH]; intros acc wb.
  - simpl. destruct l; try discriminate Hl; unfold raise; eauto.
  - simpl in Hp. apply andb_true_iff in Hp. destruct Hp as [Hp0 Hp].
    specialize (IH Hp). simpl.
    destruct p; try discriminate Hp0.
    + apply IH.
    + destruct (negb (hasattr (op_name c))); [apply IH|].
      unfold bind at 1.
      destruct (try_except _ _ _ wb) as [[out|e] wb1]; [apply IH|eauto].
    + destruct (negb (hasattr op)); [apply IH|].
      unfold bind at 1.
      destruct (try_except _ _ _ wb) as [[out|e] wb1]; [apply IH|eauto].
Qed.

(** C1, as amended.  When every non-blank line of the batch is a JSON
    object with a string under ["op"], [run_commands] returns one record per
    non-blank line, in order, as [batch] describes: the unknown-op record
    for an op that is no attribute of the Workbench, the error record with
    the exception's text for a call that raised, the success record with the
    result otherwise, each later line run on the workbench the earlier ones
    left.  A line that is not such an object aborts the batch: the
    exception leaves [run_commands] and no record list is returned. *)
Theorem run_commands_isolates_failures (ls : list line) (wb : Workbench) :
  forallb parsed ls = true ->
  (exists outs wb', run_commands ls wb = (Ok outs, wb') /\ batch ls wb outs wb')
  /\ (forall l post, parsed l = false ->
        exists e wb', run_commands (ls ++ l :: post) wb = (Raise e, wb')).
Proof.
  intros Hp. split.
  - destruct (run_lines_batch ls [] wb Hp) as [outs [wb' [H Hb]]]. eauto.
  - intros l post Hl. apply run_lines_aborts; assumption.
Qed.

(** *** Forks *)

Lemma call_on_self {A} (obj : Workbench) (m : M A) (self : Workbench) :
  snd (call_on obj m self) = self.
Proof. unfold call_on. destruct (m obj) as [[a|e] obj']; reflexivity. Qed.

Lemma compare_loop_self bv qs k scs results wb :
  snd (compare_loop bv qs k scs results wb) = wb.
Proof.
  revert results. induction scs as [|sc rest IH]; intros results; simpl.
  - reflexivity.
  - unfold bind at 1, fork, get_self. unfold bind.
    pose proof (call_on_self wb (scenario_body bv sc qs k) wb) as H.
    destruct (call_on wb (scenario_body bv sc qs k) wb) as [[row|e] wb1];
      simpl in H; subst wb1; [apply IH|reflexivity].
Qed.




(** *** Interval arithmetic *)

Lemma Qlt_bool_iff (a b : Q) : Qlt_bool a b = true <-> (a < b)%Q.
Proof.
  unfold Qlt_bool. rewrite negb_true_iff. split; intros H.
  - apply Qnot_le_lt. intros Hle. apply Qle_bool_iff in Hle. congruence.
  - destruct (Qle_bool b a) eqn:E; [|reflexivity].
    apply Qle_bool_iff in E. exfalso. apply (Qlt_not_le _ _ H E).
Qed.

Lemma Qlt_bool_false (a b : Q) : Qlt_bool a b = false <-> (b <= a)%Q.
Proof.
  unfold Qlt_bool. rewrite negb_false_iff. apply Qle_bool_iff.
Qed.

Lemma qmin_spec (a b : Q) : (qmin a b <= a /\ qmin a b <= b)%Q.
Proof.
  unfold qmin. destruct (Qlt_bool b a) eqn:E.
  - apply Qlt_bool_iff in E. split; lra.
  - apply Qlt_bool_false in E. split; lra.
Qed.

Lemma qmax_spec (a b : Q) : (a <= qmax a b /\ b <= qmax a b)%Q.
Proof.
  unfold qmax. destruct (Qlt_bool a b) eqn:E.
  - apply Qlt_bool_iff in E. split; lra.
  - apply Qlt_bool_false in E. split; lra.
Qed.

Lemma wf_Interval (a b : Q) : wf_value (Interval a b) = true.
Proof.
  unfold Interval. destruct (Qle_bool a b) eqn:E; simpl; [exact E|].
  apply Qle_bool_iff. destruct (Qlt_le_dec b a) as [H|H]; [lra|].
  apply Qle_bool_iff in H. congruence.
Qed.

Lemma within_Interval (a b z : Q) : (a <= z)%Q -> (z <= b)%Q -> within z (Interval a b).
Proof.
  intros H1 H2. rewrite Interval_ordered by lra. simpl. split; assumption.
Qed.

Lemma min_list_le (c0 c1 c2 c3 : Q) :
  (min_list c0 [c1; c2; c3] <= c0 /\ min_list c0 [c1; c2; c3] <= c1
   /\ min_list c0 [c1; c2; c3] <= c2 /\ min_list c0 [c1; c2; c3] <= c3)%Q.
Proof.
  unfold min_list. simpl.
  pose proof (qmin_spec c0 c1) as [? ?].
  pose proof (qmin_spec (qmin c0 c1) c2) as [? ?].
  pose proof (qmin_spec (qmin (qmin c0 c1) c2) c3) as [? ?].
  repeat split; lra.
Qed.

Lemma max_list_ge (c0 c1 c2 c3 : Q) :
  (c0 <= max_list c0 [c1; c2; c3] /\ c1 <= max_list c0 [c1; c2; c3]
   /\ c2 <= max_list c0 [c1; c2; c3] /\ c3 <= max_list c0 [c1; c2; c3])%Q.
Proof.
  unfold max_list. simpl.
  pose proof (qmax_spec c0 c1) as [? ?].
  pose proof (qmax_spec (qmax c0 c1) c2) as [? ?].
  pose proof (qmax_spec (qmax (qmax c0 c1) c2) c3) as [? ?].
  repeat split; lra.
Qed.

(** A product of two points lies between two of the four corner products. *)
Lemma product_between_corners (a b c d x y : Q) :
  (a <= x <= b)%Q -> (c <= y <= d)%Q ->
  ((a * c <= x * y \/ a * d <= x * y \/ b * c <= x * y \/ b * d <= x * y)
   /\ (x * y <= a * c \/ x * y <= a * d \/ x * y <= b * c \/ x * y <= b * d))%Q.
Proof.
  intros [Hax Hxb] [Hcy Hyd].
  destruct (Qlt_le_dec y 0) as [Hy|Hy];
    destruct (Qlt_le_dec a 0) as [Ha|Ha];
    destruct (Qlt_le_dec b 0) as [Hb|Hb];
    split; try (left; nra); try (right; left; nra);
    try (right; right; left; nra); try (right; right; right; nra).
Qed.

Lemma scaled_between (lo hi x k : Q) :
  (lo <= x <= hi)%Q ->
  (qmin (lo * k) (hi * k) <= x * k <= qmax (lo * k) (hi * k))%Q.
Proof.
  intros [H1 H2].
  pose proof (qmin_spec (lo * k) (hi * k)) as [? ?].
  pose proof (qmax_spec (lo * k) (hi * k)) as [? ?].
  destruct (Qlt_le_dec k 0); split; nra.
Qed.


(** *** Blend *)

Lemma convex_between (a b s : Q) :
  (0 <= s <= 1)%Q -> between a b ((1 - s) * a + s * b).
Proof. intros [H0 H1]. split; intros H; split; nra. Qed.


(** *** A frame rule for the operations

    Whatever relation holds across each kind of store update the methods
    make (a bump, an attribute write, a new node, a new edge, a constraint
    set or deleted, a rule set, a snapshot taken, a revert) holds across
    every operation, every batch and every simulation. *)

Section Steps.
Variable R : Workbench -> Workbench -> Prop.
Hypothesis R_refl : forall wb, R wb wb.
Hypothesis R_trans : forall a b c, R a b -> R b c -> R a c.
Hypothesis R_bump : forall op wb, R wb (snd (_bump op wb)).
Hypothesis R_write : forall c k v wb, R wb (write_attr c k v wb).
Hypothesis R_node :
  forall wb id t a,
    Dict.mem id (nodes wb) = false ->
    R wb (with_nodes wb (Dict.set id (mkNode id t a) (nodes wb))).
Hypothesis R_edge :
  forall wb id t f o a,
    Dict.mem f (nodes wb) = true -> Dict.mem o (nodes wb) = true ->
    Dict.mem id (edges wb) = false ->
    R wb (with_edges wb (Dict.set id (mkEdge id t f o a) (edges wb))).
Hypothesis R_constraint :
  forall wb id p x s n,
    R wb (with_constraints wb (Dict.set id (mkConstraint id p x s n) (constraints wb))).
Hypothesis R_unconstraint :
  forall wb id, R wb (with_constraints wb (Dict.del id (constraints wb))).
Hypothesis R_rule :
  forall wb name a b c,
    R wb (with_rules wb (Dict.set name (mkRule name a b c) (rules wb))).
Hypothesis R_snapshot :
  forall wb,
    R wb (with_snapshots wb
            (zset (version wb) (mkSnapshot (nodes wb) (edges wb) (constraints wb))
               (snapshots wb))).
Hypothesis R_revert :
  forall wb v snap,
    zget v (snapshots wb) = Some snap ->
    R wb (with_constraints (with_edges (with_nodes wb (s_nodes snap)) (s_edges snap))
            (s_constraints snap)).

Lemma steps_ret {A} (a : A) : steps R (ret a).
Proof. intros wb. apply R_refl. Qed.

Lemma steps_raise {A} (e : exn) : steps R (@raise A e).
Proof. intros wb. apply R_refl. Qed.

Lemma steps_reading {A} (f : Workbench -> outcome A) : steps R (reading f).
Proof. intros wb. apply R_refl. Qed.

Lemma steps_lift {A} (o : outcome A) : steps R (lift o).
Proof. intros wb. apply R_refl. Qed.

Lemma steps_bump (op : string) : steps R (_bump op).
Proof. intros wb. apply R_bump. Qed.

Lemma steps_bind {A B} (m : M A) (k : A -> M B) :
  steps R m -> (forall a, steps R (k a)) -> steps R (bind m k).
Proof.
  intros Hm Hk wb. unfold bind. specialize (Hm wb).
  destruct (m wb) as [[a|e] wb1]; simpl in *; [|exact Hm].
  eapply R_trans; [exact Hm|apply Hk].
Qed.

Lemma steps_try {A} (c : exn_class -> bool) (m : M A) (h : exn -> M A) :
  steps R m -> (forall e, steps R (h e)) -> steps R (try_except c m h).
Proof.
  intros Hm Hh wb. unfold try_except. specialize (Hm wb).
  destruct (m wb) as [[a|e] wb1]; simpl in *; [exact Hm|].
  destruct (c (exn_cls e)); simpl; [|exact Hm].
  eapply R_trans; [exact Hm|apply Hh].
Qed.

Lemma steps_get {A} (k : Workbench -> M A) :
  (forall wb, R wb (snd (k wb wb))) -> steps R (bind get_self k).
Proof. intros H wb. unfold bind, get_self. apply H. Qed.

Lemma step_put {A} (wb wb1 : Workbench) (k : M A) :
  R wb wb1 -> steps R k -> R wb (snd (bind (put_self wb1) (fun _ => k) wb)).
Proof.
  intros Hs Hk. unfold bind, put_self. eapply R_trans; [exact Hs|apply Hk].
Qed.

Lemma steps_pure {A} (m : M A) :
  (forall wb, exists a, m wb = (Ok a, wb)) -> steps R m.
Proof. intros H wb. destruct (H wb) as [a ->]. apply R_refl. Qed.

Lemma steps_set_val p v : steps R (set_val p v).
Proof.
  unfold set_val. apply steps_bind; [apply steps_reading|]. intros r.
  apply steps_get. intros wb. apply step_put; [apply R_write|apply steps_ret].
Qed.

Lemma steps_create_node t i a u : steps R (create_node t i a u).
Proof.
  unfold create_node. apply steps_get. intros wb.
  destruct (Dict.mem _ _) eqn:E; [apply R_refl|].
  apply step_put; [apply R_node; exact E|].
  apply steps_bind; [apply steps_bump|intros; apply steps_ret].
Qed.

Lemma steps_create_edge t f o i a : steps R (create_edge t f o i a).
Proof.
  unfold create_edge. apply steps_get. intros wb.
  destruct (_ || _) eqn:E; [apply R_refl|].
  apply orb_false_iff in E. destruct E as [E1 E2].
  apply negb_false_iff in E1. apply negb_false_iff in E2.
  destruct (Dict.mem _ (edges wb)) eqn:E; [apply R_refl|].
  apply step_put; [apply R_edge; assumption|].
  apply steps_bind; [apply steps_bump|intros; apply steps_ret].
Qed.

Lemma steps_set_attr p v c : steps R (set_attr p v c).
Proof.
  unfold set_attr. apply steps_bind; [apply steps_set_val|]. intros r.
  apply steps_bind.
  - destruct c; [|apply steps_ret].
    apply steps_bind; [apply steps_reading|]. intros x.
    apply steps_get. intros wb. unfold put_self. simpl. apply R_write.
  - intros _. apply steps_bind; [apply steps_bump|intros; apply steps_ret].
Qed.

Lemma steps_assert_constraint p x s n i u : steps R (assert_constraint p x s n i u).
Proof.
  unfold assert_constraint. apply steps_get. intros wb.
  break_match; [apply R_refl|].
  apply step_put; [apply R_constraint|].
  apply steps_bind; [apply steps_bump|intros; apply steps_ret].
Qed.

Lemma steps_upsert_constraint i p x s n : steps R (upsert_constraint i p x s n).
Proof.
  unfold upsert_constraint. apply steps_get. intros wb.
  apply step_put; [apply R_constraint|].
  apply steps_bind; [apply steps_bump|intros; apply steps_ret].
Qed.

Lemma steps_remove_constraint i : steps R (remove_constraint i).
Proof.
  unfold remove_constraint. apply steps_get. intros wb.
  break_match; [|apply R_refl].
  apply step_put; [apply R_unconstraint|].
  apply steps_bind; [apply steps_bump|intros; apply steps_ret].
Qed.

Lemma steps_define_rule n a b c : steps R (define_rule n a b c).
Proof.
  unfold define_rule. apply steps_get. intros wb.
  apply step_put; [apply R_rule|].
  apply steps_bind; [apply steps_bump|intros; apply steps_ret].
Qed.

Lemma steps_apply_actions name env acts st : steps R (apply_actions name env acts st).
Proof.
  revert st. induction acts as [|act rest IH]; intros st; simpl; [apply steps_ret|].
  destruct (ensure_constraint act); [|apply IH].
  apply steps_bind; [apply steps_upsert_constraint|]. intros _. apply IH.
Qed.

Lemma steps_match_loop limit rule envs st : steps R (match_loop limit rule envs st).
Proof.
  revert st. induction envs as [|env rest IH]; intros st; simpl; [apply steps_ret|].
  destruct (limit_reached limit (fst st)); [apply steps_ret|].
  apply steps_bind; [apply steps_apply_actions|]. intros st'. apply IH.
Qed.

Lemma steps_rules_loop limit rs st : steps R (rules_loop limit rs st).
Proof.
  revert st. induction rs as [|rule rest IH]; intros st; simpl; [apply steps_ret|].
  apply steps_get. intros wb.
  change (R wb (snd (bind (match_loop limit rule (_match_rule rule wb) st)
                       (fun st' => rules_loop limit rest st') wb))).
  apply steps_bind; [apply steps_match_loop|]. intros st'. apply IH.
Qed.

Lemma steps_run_rules limit : steps R (run_rules limit).
Proof.
  unfold run_rules. apply steps_get. intros wb.
  change (R wb (snd (bind (rules_loop limit (Dict.values (rules wb)) (0, []))
                       (fun st => bind (_bump "run_rules") (fun _ => ret st)) wb))).
  apply steps_bind; [apply steps_rules_loop|]. intros st.
  apply steps_bind; [apply steps_bump|intros; apply steps_ret].
Qed.

Lemma steps_propagate_constraint cid c acc : steps R (propagate_constraint cid c acc).
Proof.
  intros wb. unfold propagate_constraint. unfold bind at 1.
  destruct (safe_eval_returns (expr_src c) wb) as [tv ->].
  assert (H : R wb (snd (
    (r <- try_except except_KeyError
            (x <- reading (_resolve_container (target c)) ;; ret (Some x))
            (fun _ => ret None) ;;
     match r with
     | None => ret acc
     | Some (cont, key) =>
         wb0 <- get_self ;;
         let current := attr_or_unknown key (attrs_of cont wb0) in
         new_val <- lift (blend current tv (strength c)) ;;
         if negb (py_eq current new_val) then
           put_self (write_attr cont key new_val wb0) ;;;
           ret ((fst acc ++ [mkUpdate cid (target c) new_val])%list,
                (snd acc + change_delta current new_val)%Q)
         else ret acc
     end) wb))).
  { unfold bind at 1. rewrite resolve_in_try.
    destruct (_resolve_container (target c) wb) as [[cont key]|]; [|apply R_refl].
    unfold bind at 1, get_self at 1. cbv zeta. unfold bind at 1, lift at 1.
    destruct (blend _ _ _) as [nv|e]; [|apply R_refl].
    destruct (negb _); [|apply R_refl].
    apply step_put; [apply R_write|apply steps_ret]. }
  destruct tv; try exact H. apply R_refl.
Qed.

Lemma steps_propagate_loop cs acc : steps R (propagate_loop cs acc).
Proof.
  revert acc. induction cs as [|[cid c] rest IH]; intros acc; simpl; [apply steps_ret|].
  apply steps_bind; [apply steps_propagate_constraint|]. intros acc'. apply IH.
Qed.

Lemma steps_propagate_once : steps R propagate_once.
Proof.
  unfold propagate_once. apply steps_get. intros wb.
  change (R wb (snd (bind (propagate_loop (constraints wb) ([], 0%Q))
            (fun acc => bind (_bump "propagate_once")
               (fun _ => ret (mkTick (fst acc) (Z.of_nat (List.length (fst acc))) (snd acc))))
            wb))).
  apply steps_bind; [apply steps_propagate_loop|]. intros acc.
  apply steps_bind; [apply steps_bump|intros; apply steps_ret].
Qed.

Lemma steps_sim_loop fuel ud ms st : steps R (sim_loop fuel ud ms st).
Proof.
  revert st. induction fuel as [|f IH]; intros st; simpl; [apply steps_ret|].
  destruct (sim_continue ms st); [|apply steps_ret].
  apply steps_bind; [apply steps_propagate_once|]. intros r.
  repeat (break_match; [apply steps_ret|]). apply IH.
Qed.

Lemma steps_simulate t ud ms : steps R (simulate t ud ms).
Proof.
  unfold simulate. apply steps_bind; [apply steps_sim_loop|]. intros st.
  apply steps_bind; [apply steps_bump|intros; apply steps_ret].
Qed.

Lemma steps_query_attr p : steps R (query_attr p).
Proof.
  intros wb. destruct (query_attr_returns p wb) as [v [_ ->]]. apply (R_bump "query_attr").
Qed.

Lemma steps_query_nodes t w : steps R (query_nodes t w).
Proof. intros wb. apply (R_bump "query_nodes"). Qed.

Lemma steps_explain p : steps R (explain p).
Proof.
  intros wb. destruct (explain_returns p wb) as [xs ->]. apply (R_bump "explain").
Qed.

Lemma steps_diff v : steps R (diff v).
Proof. intros wb. apply (R_bump "diff"). Qed.

Lemma steps_snapshot : steps R snapshot.
Proof.
  unfold snapshot. apply steps_get. intros wb.
  apply step_put; [apply R_snapshot|].
  apply steps_bind; [apply steps_bump|]. intros _.
  apply steps_get. intros wb'. apply R_refl.
Qed.

Lemma steps_revert v : steps R (revert v).
Proof.
  unfold revert. apply steps_get. intros wb.
  destruct (zget v (snapshots wb)) eqn:E; [|apply R_refl].
  apply step_put; [eapply R_revert; exact E|].
  apply steps_bind; [apply steps_bump|]. intros _.
  apply steps_get. intros wb'. apply R_refl.
Qed.

Lemma steps_invoke (c : command) : steps R (invoke c).
Proof.
  destruct c; simpl.
  - apply steps_create_node.
  - apply steps_create_edge.
  - apply steps_set_attr.
  - apply steps_assert_constraint.
  - apply steps_upsert_constraint.
  - apply steps_remove_constraint.
  - apply steps_define_rule.
  - apply steps_bind; [apply steps_run_rules|intros; apply steps_ret].
  - apply steps_bind; [apply steps_snapshot|intros; apply steps_ret].
  - apply steps_bind; [apply steps_revert|intros; apply steps_ret].
  - apply steps_bind; [apply steps_propagate_once|intros; apply steps_ret].
  - destruct (invoke_simulate_cases ticks until_delta max_steps) as [E|E];
      unfold invoke in E; rewrite E; [apply steps_raise|].
    apply steps_bind; [apply steps_simulate|intros; apply steps_ret].
  - apply steps_bind; [apply steps_query_attr|intros; apply steps_ret].
  - apply steps_bind; [apply steps_query_nodes|intros; apply steps_ret].
  - apply steps_bind; [apply steps_explain|intros; apply steps_ret].
  - apply steps_bind; [apply steps_diff|intros; apply steps_ret].
Qed.

Lemma steps_run_lines ls outs : steps R (run_lines ls outs).
Proof.
  revert outs. induction ls as [|l rest IH]; intros outs; simpl; [apply steps_ret|].
  destruct l; try apply steps_raise; try apply IH;
    (destruct (negb (hasattr _)); [apply IH|];
     apply steps_bind; [|intros; apply IH];
     apply steps_try; [|intros; apply steps_ret];
     apply steps_bind; [|intros; apply steps_ret]).
  - apply steps_invoke.
  - apply steps_raise.
Qed.

Lemma steps_run_commands ls : steps R (run_commands ls).
Proof. apply steps_run_lines. Qed.

End Steps.

(** *** Integrity of the store *)

Lemma linked_more_nodes ns ns' es :
  (forall k, Dict.mem k ns = true -> Dict.mem k ns' = true) ->
  linked ns es = true -> linked ns' es = true.
Proof.
  intros Hsub. unfold linked. induction es as [|[k e] r IH]; simpl; [reflexivity|].
  intros H. apply andb_true_iff in H. destruct H as [H0 Hr].
  apply andb_true_iff in H0. destruct H0 as [Hf Ht].
  rewrite (Hsub _ Hf), (Hsub _ Ht), IH by exact Hr. reflexivity.
Qed.

Lemma graph_ok_inv ns es cs :
  graph_ok ns es cs = true <->
  keyed n_id ns = true /\ keyed e_id es = true /\ linked ns es = true
  /\ keyed c_id cs = true.
Proof.
  unfold graph_ok. rewrite !andb_true_iff. tauto.
Qed.

Lemma integrity_inv wb :
  integrity wb = true <->
  graph_ok (nodes wb) (edges wb) (constraints wb) = true
  /\ keyed r_name (rules wb) = true
  /\ forallb (fun s => graph_ok (s_nodes (snd s)) (s_edges (snd s)) (s_constraints (snd s)))
       (snapshots wb) = true.
Proof.
  unfold integrity. rewrite !andb_true_iff. tauto.
Qed.

Lemma graph_ok_set_node ns es cs i n :
  graph_ok ns es cs = true -> n_id n = i -> graph_ok (Dict.set i n ns) es cs = true.
Proof.
  rewrite !graph_ok_inv. intros [Hn [He [Hl Hc]]] Hi. repeat split; auto.
  - apply forallb_set; [exact Hn|]. simpl. rewrite Hi. apply String.eqb_refl.
  - eapply linked_more_nodes; [|exact Hl]. intros k Hk.
    rewrite mem_set, Hk. apply orb_true_r.
Qed.

Lemma graph_ok_set_edge ns es cs i e :
  graph_ok ns es cs = true -> e_id e = i ->
  Dict.mem (from_id e) ns = true -> Dict.mem (to_id e) ns = true ->
  graph_ok ns (Dict.set i e es) cs = true.
Proof.
  rewrite !graph_ok_inv. intros [Hn [He [Hl Hc]]] Hi Hf Ht. repeat split; auto.
  - apply forallb_set; [exact He|]. simpl. rewrite Hi. apply String.eqb_refl.
  - apply forallb_set; [exact Hl|]. simpl. rewrite Hf, Ht. reflexivity.
Qed.

Lemma keeps_write c k v wb : keeps integrity wb (write_attr c k v wb).
Proof.
  unfold keeps. rewrite !integrity_inv. intros [Hg [Hr Hs]].
  destruct c as [i|i]; simpl.
  - destruct (Dict.get i (nodes wb)) as [n|] eqn:E; [|auto].
    simpl. repeat split; auto. apply graph_ok_set_node; [exact Hg|]. simpl.
    apply graph_ok_inv in Hg. destruct Hg as [Hn _].
    apply (forallb_get _ _ _ _ Hn) in E. simpl in E. apply String.eqb_eq. exact E.
  - destruct (Dict.get i (edges wb)) as [e|] eqn:E; [|auto].
    simpl. repeat split; auto.
    pose proof Hg as Hg'. apply graph_ok_inv in Hg'. destruct Hg' as [_ [He [Hl _]]].
    pose proof (forallb_get _ _ _ _ He E) as Hi. simpl in Hi.
    pose proof (forallb_get _ _ _ _ Hl E) as Hft. simpl in Hft.
    apply andb_true_iff in Hft. destruct Hft as [Hf Ht].
    apply graph_ok_set_edge; simpl; auto. apply String.eqb_eq. exact Hi.
Qed.

Lemma zset_forallb {V} (P : Z * V -> bool) k v (d : list (Z * V)) :
  forallb P d = true -> P (k, v) = true -> forallb P (zset k v d) = true.
Proof.
  intros Hd Hv. induction d as [|[k0 v0] r IH]; simpl in *.
  - rewrite Hv. reflexivity.
  - apply andb_true_iff in Hd. destruct Hd as [H0 Hr].
    destruct (k =? k0) eqn:E; simpl.
    + apply Z.eqb_eq in E. subst k0. rewrite Hv, Hr. reflexivity.
    + rewrite H0, IH by exact Hr. reflexivity.
Qed.

Lemma zget_forallb {V} (P : Z * V -> bool) k v (d : list (Z * V)) :
  forallb P d = true -> zget k d = Some v -> P (k, v) = true.
Proof.
  intros Hd Hg. induction d as [|[k0 v0] r IH]; simpl in *; [discriminate|].
  apply andb_true_iff in Hd. destruct Hd as [H0 Hr].
  destruct (k =? k0) eqn:E.
  - apply Z.eqb_eq in E. inversion Hg. subst. exact H0.
  - apply IH; assumption.
Qed.

Lemma integrity_kept {A} (m : M A) :
  (forall R : Workbench -> Workbench -> Prop,
      (forall wb, R wb wb) ->
      (forall a b c, R a b -> R b c -> R a c) ->
      (forall op wb, R wb (snd (_bump op wb))) ->
      (forall c k v wb, R wb (write_attr c k v wb)) ->
      (forall wb id t a,
          Dict.mem id (nodes wb) = false ->
          R wb (with_nodes wb (Dict.set id (mkNode id t a) (nodes wb)))) ->
      (forall wb id t f o a,
          Dict.mem f (nodes wb) = true -> Dict.mem o (nodes wb) = true ->
          Dict.mem id (edges wb) = false ->
          R wb (with_edges wb (Dict.set id (mkEdge id t f o a) (edges wb)))) ->
      (forall wb id p x s n,
          R wb (with_constraints wb
                  (Dict.set id (mkConstraint id p x s n) (constraints wb)))) ->
      (forall wb id, R wb (with_constraints wb (Dict.del id (constraints wb)))) ->
      (forall wb name a b c,
          R wb (with_rules wb (Dict.set name (mkRule name a b c) (rules wb)))) ->
      (forall wb,
          R wb (with_snapshots wb
                  (zset (version wb) (mkSnapshot (nodes wb) (edges wb) (constraints wb))
                     (snapshots wb)))) ->
      (forall wb v snap,
          zget v (snapshots wb) = Some snap ->
          R wb (with_constraints
                  (with_edges (with_nodes wb (s_nodes snap)) (s_edges snap))
                  (s_constraints snap))) ->
      steps R m) ->
  forall wb, integrity wb = true -> integrity (snd (m wb)) = true.
Proof.
  intros H wb. apply (H (keeps integrity)); clear H wb; unfold keeps.
  - auto.
  - auto.
  - intros op wb H. exact H.
  - apply keeps_write.
  - intros wb id t a _. rewrite !integrity_inv. simpl. intros [Hg [Hr Hs]].
    repeat split; auto. apply graph_ok_set_node; auto.
  - intros wb id t f o a Hf Ho _. rewrite !integrity_inv. simpl. intros [Hg [Hr Hs]].
    repeat split; auto. apply graph_ok_set_edge; auto.
  - intros wb id p x s n. rewrite !integrity_inv. simpl. intros [Hg [Hr Hs]].
    repeat split; auto. apply graph_ok_inv in Hg. apply graph_ok_inv.
    destruct Hg as [Hn [He [Hl Hc]]]. repeat split; auto.
    apply forallb_set; [exact Hc|]. simpl. apply String.eqb_refl.
  - intros wb id. rewrite !integrity_inv. simpl. intros [Hg [Hr Hs]].
    repeat split; auto. apply graph_ok_inv in Hg. apply graph_ok_inv.
    destruct Hg as [Hn [He [Hl Hc]]]. repeat split; auto.
    apply forallb_del. exact Hc.
  - intros wb name a b c. rewrite !integrity_inv. simpl. intros [Hg [Hr Hs]].
    repeat split; auto. apply forallb_set; [exact Hr|]. simpl. apply String.eqb_refl.
  - intros wb. rewrite !integrity_inv. simpl. intros [Hg [Hr Hs]].
    repeat split; auto. apply zset_forallb; [exact Hs|]. simpl. exact Hg.
  - intros wb v snap E. rewrite !integrity_inv. simpl. intros [Hg [Hr Hs]].
    repeat split; auto. apply (zget_forallb _ _ _ _ Hs E).
Qed.


(** *** Calls that fail *)

Lemma mem_write_attr_nodes c k v wb x :
  Dict.mem x (nodes (write_attr c k v wb)) = Dict.mem x (nodes wb).
Proof.
  destruct c as [i|i]; simpl.
  - destruct (Dict.get i (nodes wb)) as [n|] eqn:E; [|reflexivity].
    simpl. rewrite mem_set. destruct (String.eqb x i) eqn:X; [|reflexivity].
    apply String.eqb_eq in X. subst x. unfold Dict.mem. rewrite E. reflexivity.
  - destruct (Dict.get i (edges wb)); reflexivity.
Qed.

Lemma mem_write_attr_edges c k v wb x :
  Dict.mem x (edges (write_attr c k v wb)) = Dict.mem x (edges wb).
Proof.
  destruct c as [i|i]; simpl.
  - destruct (Dict.get i (nodes wb)); reflexivity.
  - destruct (Dict.get i (edges wb)) as [n|] eqn:E; [|reflexivity].
    simpl. rewrite mem_set. destruct (String.eqb x i) eqn:X; [|reflexivity].
    apply String.eqb_eq in X. subst x. unfold Dict.mem. rewrite E. reflexivity.
Qed.

(** A write moves no path: every path resolves as before. *)
Lemma resolve_write c k v wb p :
  _resolve_container p (write_attr c k v wb) = _resolve_container p wb.
Proof.
  unfold _resolve_container. destruct (split_dot p) as [[ent key]|]; [|reflexivity].
  rewrite mem_write_attr_nodes, mem_write_attr_edges. reflexivity.
Qed.

Lemma blend_raises_TypeError old target s e :
  blend old target s = Raise e -> exn_cls e = TypeError.
Proof.
  unfold blend, promote. intros H.
  destruct old, target; simpl in H; inversion H; reflexivity.
Qed.

Lemma blend_failure_TypeError cs e : blend_failure cs e -> exn_cls e = TypeError.
Proof.
  intros [cid [c [w [tv [ct [k [_ [_ [_ H]]]]]]]]]. eapply blend_raises_TypeError. exact H.
Qed.

Lemma set_attr_raises p v cf wb e wb' :
  set_attr p v cf wb = (Raise e, wb') -> wb' = wb /\ exn_cls e = KeyError.
Proof.
  unfold set_attr, set_val. unfold bind at 1. unfold bind at 1. unfold reading at 1.
  destruct (_resolve_container p wb) as [[c k]|e0] eqn:E.
  - unfold bind at 1, get_self at 1. unfold bind at 1, put_self at 1.
    unfold ret at 1. unfold bind at 1. simpl fst. simpl snd.
    destruct cf as [q|].
    + unfold bind at 1, reading at 1. rewrite resolve_write, E.
      unfold_m. unfold _bump. discriminate.
    + unfold_m. unfold _bump. discriminate.
  - intros H. inversion H; subst. split; [reflexivity|].
    eapply resolve_raises_KeyError. exact E.
Qed.

Lemma bind_ret_raises {A B} (m : M A) (f : A -> B) wb e wb' :
  bind m (fun a => ret (f a)) wb = (Raise e, wb') -> m wb = (Raise e, wb').
Proof.
  unfold bind, ret. destruct (m wb) as [[a|e0] w]; intros H; [discriminate|].
  inversion H; reflexivity.
Qed.

Lemma rules_loop_returns limit rs st wb :
  exists st' wb', rules_loop limit rs st wb = (Ok st', wb').
Proof.
  assert (Ha : forall name env acts st wb,
             exists st' wb', apply_actions name env acts st wb = (Ok st', wb')).
  { intros name env acts. induction acts as [|act rest IH]; intros st0 wb0; simpl.
    - unfold ret. eauto.
    - destruct (ensure_constraint act); [|apply IH].
      unfold bind at 1. unfold upsert_constraint, _bump. unfold_m. apply IH. }
  assert (Hm : forall rule envs st wb,
             exists st' wb', match_loop limit rule envs st wb = (Ok st', wb')).
  { intros rule envs. induction envs as [|env rest IH]; intros st0 wb0; simpl.
    - unfold ret. eauto.
    - destruct (limit_reached limit (fst st0)); [unfold ret; eauto|].
      unfold bind at 1.
      destruct (Ha (r_name rule) env (actions rule) st0 wb0) as [s1 [w1 ->]].
      apply IH. }
  revert st wb. induction rs as [|rule rest IH]; intros st wb; simpl.
  - unfold ret. eauto.
  - unfold bind at 1, get_self at 1. unfold bind at 1.
    destruct (Hm rule (_match_rule rule wb) st wb) as [s1 [w1 ->]]. apply IH.
Qed.

Lemma run_rules_returns limit wb : exists st wb', run_rules limit wb = (Ok st, wb').
Proof.
  unfold run_rules. unfold bind at 1, get_self at 1. unfold bind at 1.
  destruct (rules_loop_returns limit (Dict.values (rules wb)) (0, []) wb) as [s1 [w1 ->]].
  unfold _bump. unfold_m. eauto.
Qed.


(** *** Writing and reading back *)

Lemma split_dot_app p s ent key :
  split_dot p = Some (ent, key) -> split_dot (p ++ s) = Some (ent, key ++ s).
Proof.
  revert ent key. induction p as [|c r IH]; intros ent key H; simpl in *; [discriminate|].
  destruct (Ascii.eqb c "."%char).
  - inversion H; subst. reflexivity.
  - destruct (split_dot r) as [[a b]|]; [|discriminate].
    injection H as Ha Hb. subst ent key. rewrite (IH a b eq_refl). reflexivity.
Qed.

Lemma append_grows (k s : string) : s <> EmptyString -> k ++ s <> k.
Proof.
  intros Hs. induction k as [|c r IH]; simpl.
  - exact Hs.
  - intros H. injection H as H. exact (IH H).
Qed.

Lemma resolve_present p wb c k :
  _resolve_container p wb = Ok (c, k) ->
  exists ent,
    split_dot p = Some (ent, k)
    /\ ((c = InNode ent /\ Dict.mem ent (nodes wb) = true)
        \/ (c = InEdge ent /\ Dict.mem ent (nodes wb) = false
            /\ Dict.mem ent (edges wb) = true)).
Proof.
  unfold _resolve_container. destruct (split_dot p) as [[ent key]|]; [|discriminate].
  destruct (Dict.mem ent (nodes wb)) eqn:N.
  - intros H. inversion H; subst. exists ent. auto.
  - destruct (Dict.mem ent (edges wb)) eqn:E; [|discriminate].
    intros H. inversion H; subst. exists ent. auto.
Qed.

Lemma attrs_of_write_same p wb c k k' v :
  _resolve_container p wb = Ok (c, k) ->
  attrs_of c (write_attr c k' v wb) = Dict.set k' v (attrs_of c wb).
Proof.
  intros H. apply resolve_present in H.
  destruct H as [ent [_ [[-> Hn]|[-> [_ He]]]]]; simpl.
  - apply mem_get in Hn. destruct Hn as [n Hn]. rewrite Hn. simpl.
    rewrite get_set_same. reflexivity.
  - apply mem_get in He. destruct He as [x He]. rewrite He. simpl.
    rewrite get_set_same. reflexivity.
Qed.

Lemma attrs_of_write_other c c' k v wb :
  c' <> c -> attrs_of c' (write_attr c k v wb) = attrs_of c' wb.
Proof.
  intros Hne. destruct c as [i|i], c' as [j|j]; simpl.
  - destruct (Dict.get i (nodes wb)); [|reflexivity]. simpl.
    rewrite get_set_other; [reflexivity|]. congruence.
  - destruct (Dict.get i (nodes wb)); reflexivity.
  - destruct (Dict.get i (edges wb)); reflexivity.
  - destruct (Dict.get i (edges wb)); [|reflexivity]. simpl.
    rewrite get_set_other; [reflexivity|]. congruence.
Qed.

(** What [val] returns depends on where the path resolves and on the
    attribute found there. *)
Lemma val_of_eq q wb1 wb2 :
  _resolve_container q wb1 = _resolve_container q wb2 ->
  (forall c k, _resolve_container q wb2 = Ok (c, k) ->
               Dict.get k (attrs_of c wb1) = Dict.get k (attrs_of c wb2)) ->
  val_of wb1 q = val_of wb2 q.
Proof.
  intros Hr Ha. unfold val_of, val, attr_or_unknown. unfold_m. rewrite Hr.
  destruct (_resolve_container q wb2) as [[c k]|e] eqn:E; simpl.
  - rewrite (Ha c k eq_refl). destruct (is_unknown _); reflexivity.
  - destruct (except_KeyError (exn_cls e)); reflexivity.
Qed.

Lemma val_of_found q wb c k v :
  _resolve_container q wb = Ok (c, k) ->
  Dict.get k (attrs_of c wb) = Some v ->
  val_of wb q = Ok (if is_unknown v then VNone else v).
Proof.
  intros Hr Hg. unfold val_of, val, attr_or_unknown. unfold_m. rewrite Hr. simpl.
  rewrite Hg. destruct (is_unknown v); reflexivity.
Qed.

Lemma val_of_bump q op wb : val_of (snd (_bump op wb)) q = val_of wb q.
Proof. apply val_of_eq; reflexivity. Qed.

(** What one write changes for a reader: the attribute written, nothing
    else. *)
Lemma val_of_write p wb c k k' v :
  _resolve_container p wb = Ok (c, k) ->
  (forall q ent, split_dot p = Some (ent, k) -> split_dot q = Some (ent, k') ->
     val_of (write_attr c k' v wb) q = Ok (if is_unknown v then VNone else v))
  /\ (forall q ent, split_dot p = Some (ent, k) -> split_dot q <> Some (ent, k') ->
        val_of (write_attr c k' v wb) q = val_of wb q).
Proof.
  intros Hr. pose proof (resolve_present _ _ _ _ Hr) as [ent [Hs Hc]]. split.
  - intros q ent' Hs' Hq. rewrite Hs in Hs'. inversion Hs'; subst ent'. clear Hs'.
    eapply val_of_found.
    + rewrite resolve_write. unfold _resolve_container. rewrite Hq.
      destruct Hc as [[-> Hn]|[-> [Hn He]]]; rewrite Hn; [reflexivity|].
      rewrite He. reflexivity.
    + rewrite (attrs_of_write_same _ _ _ _ _ _ Hr). apply get_set_same.
  - intros q ent' Hs' Hq. rewrite Hs in Hs'. inversion Hs'; subst ent'. clear Hs'.
    apply val_of_eq; [apply resolve_write|].
    intros c' key' Hr'. pose proof (resolve_present _ _ _ _ Hr') as [e' [Hs' Hc']].
    destruct (String.eqb e' ent) eqn:X.
    + apply String.eqb_eq in X. subst e'.
      assert (c' = c).
      { destruct Hc as [[-> Hn]|[-> [Hn He]]], Hc' as [[-> Hn']|[-> [Hn' He']]];
          congruence. }
      subst c'. rewrite (attrs_of_write_same _ _ _ _ _ _ Hr).
      apply get_set_other. intros ->. apply Hq. exact Hs'.
    + apply String.eqb_neq in X. rewrite attrs_of_write_other; [reflexivity|].
      destruct Hc as [[-> _]|[-> _]], Hc' as [[-> _]|[-> _]]; congruence.
Qed.

(** X6.  Writing and reading back.  When [set_attr(path, value,
    confidence)] returns, the path had the form [entity.key] with the entity
    a node or an edge, and the record returned names that entity, key and
    value; with the workbench as the call left it,
    - [val(path)] is the value written ([None] for an [Unknown]);
    - with a confidence given, [val] of [path] followed by ["__confidence"]
      is that confidence;
    - [val] of every path that splits into another entity or key (and not
      into the confidence key, when one was written) is what it was before
      the call. *)
Theorem set_attr_then_val (p : string) (v : value) (cf : option Q)
    (wb wb' : Workbench) (r : retval) :
  set_attr p v cf wb = (Ok r, wb') ->
  exists ent key,
    split_dot p = Some (ent, key)
    /\ (Dict.mem ent (nodes wb) = true \/ Dict.mem ent (edges wb) = true)
    /\ r = RSet ent key v
    /\ val_of wb' p = Ok (if is_unknown v then VNone else v)
    /\ (forall c, cf = Some c -> val_of wb' (p ++ "__confidence") = Ok (VNum c))
    /\ (forall q,
          split_dot q <> Some (ent, key) ->
          cf = None \/ split_dot q <> Some (ent, key ++ "__confidence") ->
          val_of wb' q = val_of wb q).
Proof.
  unfold set_attr, set_val. unfold bind at 1. unfold bind at 1. unfold reading at 1.
  destruct (_resolve_container p wb) as [[c k]|e0] eqn:E; [|discriminate].
  unfold bind at 1, get_self at 1. unfold bind at 1, put_self at 1.
  unfold ret at 1. unfold bind at 1. simpl fst. simpl snd.
  pose proof (resolve_present _ _ _ _ E) as [ent [Hs Hc]].
  assert (Hid : ent_id_of c = ent) by (destruct Hc as [[-> _]|[-> _]]; reflexivity).
  assert (Hmem : Dict.mem ent (nodes wb) = true \/ Dict.mem ent (edges wb) = true)
    by (destruct Hc as [[_ H]|[_ [_ H]]]; auto).
  destruct (val_of_write p wb c k k v E) as [Hsame Hother].
  destruct cf as [q|].
  - unfold bind at 1, reading at 1. rewrite resolve_write, E.
    unfold bind at 1, get_self at 1. unfold put_self at 1. simpl fst. simpl snd.
    unfold bind at 1. unfold _bump at 1. unfold bind, ret. intros H.
    injection H as Hr Hw. subst r wb'. rewrite Hid. exists ent, k.
    set (wb1 := write_attr c k v wb) in *.
    assert (E1 : _resolve_container p wb1 = Ok (c, k))
      by (unfold wb1; rewrite resolve_write; exact E).
    destruct (val_of_write p wb1 c k (k ++ "__confidence") (VNum q) E1) as [Hsame1 Hother1].
    set (wb2 := write_attr c (k ++ "__confidence") (VNum q) wb1) in *.
    change (with_log wb2 (version wb2 + 1)
              (provenance wb2 ++ [mkEntry "set_attr" (version wb2 + 1)]))
      with (snd (_bump "set_attr" wb2)).
    repeat split; auto.
    + rewrite val_of_bump. rewrite (Hother1 p ent Hs).
      * apply (Hsame p ent Hs Hs).
      * rewrite Hs. intros X. injection X as X. symmetry in X.
        revert X. apply append_grows. discriminate.
    + intros c0 Hc0. injection Hc0 as <-. rewrite val_of_bump.
      apply (Hsame1 _ ent Hs). apply split_dot_app. exact Hs.
    + intros q0 Hq0 [Hn|Hq1]; [discriminate|].
      rewrite val_of_bump. rewrite (Hother1 q0 ent Hs Hq1). apply (Hother q0 ent Hs Hq0).
  - unfold ret at 1. unfold bind at 1. unfold _bump at 1. unfold bind, ret.
    intros H. injection H as Hr Hw. subst r wb'. rewrite Hid. exists ent, k.
    set (wb1 := write_attr c k v wb) in *.
    change (with_log wb1 (version wb1 + 1)
              (provenance wb1 ++ [mkEntry "set_attr" (version wb1 + 1)]))
      with (snd (_bump "set_attr" wb1)).
    repeat split; auto.
    + rewrite val_of_bump. apply (Hsame p ent Hs Hs).
    + intros c0 Hc0. discriminate.
    + intros q0 Hq0 _. rewrite val_of_bump. apply (Hother q0 ent Hs Hq0).
Qed.

(** *** Snapshots *)

Lemma zget_zset_same {V} k (v : V) d : zget k (zset k v d) = Some v.
Proof.
  induction d as [|[k0 v0] r IH]; simpl.
  - rewrite Z.eqb_refl. reflexivity.
  - destruct (k =? k0) eqn:E; simpl; rewrite E; auto.
Qed.

Lemma zget_zset_other {V} k k' (v : V) d : k' <> k -> zget k' (zset k v d) = zget k' d.
Proof.
  intros Hne. induction d as [|[k0 v0] r IH]; simpl.
  - destruct (k' =? k) eqn:E; [apply Z.eqb_eq in E; contradiction|reflexivity].
  - destruct (k =? k0) eqn:E; simpl.
    + apply Z.eqb_eq in E. subst k0.
      apply Z.eqb_neq in Hne. rewrite Hne. reflexivity.
    + rewrite IH. reflexivity.
Qed.

Lemma zget_beyond {V} v k (d : list (Z * V)) :
  forallb (fun s => fst s <=? v) d = true -> v < k -> zget k d = None.
Proof.
  intros Hd Hk. induction d as [|[k0 v0] r IH]; simpl in *; [reflexivity|].
  apply andb_true_iff in Hd. destruct Hd as [H0 Hr]. apply Z.leb_le in H0.
  destruct (k =? k0) eqn:E; [apply Z.eqb_eq in E; lia|auto].
Qed.

Lemma forallb_weaken {A} (P Q : A -> bool) (l : list A) :
  (forall a, P a = true -> Q a = true) -> forallb P l = true -> forallb Q l = true.
Proof.
  intros HPQ. induction l as [|a r IH]; simpl; [auto|].
  intros H. apply andb_true_iff in H. destruct H as [Ha Hr].
  rewrite (HPQ a Ha), (IH Hr). reflexivity.
Qed.

Lemma holds_on_run_commands ls wb : holds_on wb (snd (run_commands ls wb)).
Proof.
  apply steps_run_commands; unfold holds_on; simpl; clear.
  - intros wb. split; [lia|auto].
  - intros a b c [Hab Sab] [Hbc Sbc]. split; [lia|].
    intros k s Hk Hs. apply Sbc; [lia|]. apply Sab; assumption.
  - intros op wb. split; [lia|auto].
  - intros c k v wb. destruct (write_attr_same_log c k v wb) as [Hv _].
    rewrite Hv. split; [lia|].
    destruct c as [i|i]; simpl;
      [destruct (Dict.get i (nodes wb))|destruct (Dict.get i (edges wb))]; auto.
  - intros. split; [lia|auto].
  - intros. split; [lia|auto].
  - intros. split; [lia|auto].
  - intros. split; [lia|auto].
  - intros. split; [lia|auto].
  - intros wb. split; [lia|]. intros k s Hk Hs.
    rewrite zget_zset_other; [exact Hs|lia].
  - intros. split; [lia|auto].
Qed.

Lemma behind_run_commands ls wb :
  behind wb = true -> behind (snd (run_commands ls wb)) = true.
Proof.
  apply (steps_run_commands (keeps behind)); unfold keeps, behind; simpl; clear; auto.
  - intros op wb. apply forallb_weaken. intros [k s]. simpl.
    rewrite !Z.leb_le. lia.
  - intros c k v wb. destruct (write_attr_same_log c k v wb) as [Hv _]. rewrite Hv.
    destruct c as [i|i]; simpl;
      [destruct (Dict.get i (nodes wb))|destruct (Dict.get i (edges wb))]; auto.
  - intros wb H. apply zset_forallb; [exact H|]. simpl. apply Z.leb_refl.
Qed.

(** *** Ticks *)

Lemma val_of_with_log wb v l p : val_of (with_log wb v l) p = val_of wb p.
Proof. apply val_of_eq; reflexivity. Qed.

Lemma call_env_with_log wb v l f vs : call_env (with_log wb v l) f vs = call_env wb f vs.
Proof.
  unfold call_env. destruct (String.eqb f "val"); [|reflexivity].
  destruct vs as [|[] [|]]; try reflexivity. apply val_of_with_log.
Qed.

(** Evaluation reads the graph only: the version and the log do not count. *)
Lemma eval_expr_with_log wb v l (e : expr) :
  eval_expr (with_log wb v l) e = eval_expr wb e.
Proof.
  revert e. fix eval_expr_with_log 1. intros e.
  destruct e as [x|s|n|a|op a b|f args]; simpl; try reflexivity.
  - rewrite (eval_expr_with_log a). reflexivity.
  - rewrite (eval_expr_with_log a), (eval_expr_with_log b). reflexivity.
  - destruct (in_env f); [|reflexivity].
    assert (Hargs :
      (fix eval_args (l0 : list expr) : outcome (list value) :=
         match l0 with
         | [] => Ok []
         | a :: r =>
             match eval_expr (with_log wb v l) a with
             | Raise x => Raise x
             | Ok v0 =>
                 match eval_args r with
                 | Raise x => Raise x
                 | Ok vs => Ok (v0 :: vs)
                 end
             end
         end) args
      = (fix eval_args (l0 : list expr) : outcome (list value) :=
           match l0 with
           | [] => Ok []
           | a :: r =>
               match eval_expr wb a with
               | Raise x => Raise x
               | Ok v0 =>
                   match eval_args r with
                   | Raise x => Raise x
                   | Ok vs => Ok (v0 :: vs)
                   end
               end
           end) args).
    { induction args as [|a r IH]; [reflexivity|].
      rewrite (eval_expr_with_log a). rewrite IH. reflexivity. }
    rewrite Hargs. clear Hargs.
    match goal with |- match ?x with _ => _ end = _ => destruct x end;
      [apply call_env_with_log|reflexivity].
Qed.

Lemma write_attr_with_log c k x wb v l :
  write_attr c k x (with_log wb v l) = with_log (write_attr c k x wb) v l.
Proof.
  destruct c as [i|i]; simpl;
    [destruct (Dict.get i (nodes wb))|destruct (Dict.get i (edges wb))]; reflexivity.
Qed.

(** The body of the tick, spelled out: what one constraint does. *)
Lemma propagate_constraint_cases cid c acc wb :
  propagate_constraint cid c acc wb
  = match py_eval (expr_src c) wb with
    | Raise _ | Ok VNone => (Ok acc, wb)
    | Ok tv =>
        match _resolve_container (target c) wb with
        | Raise _ => (Ok acc, wb)
        | Ok (cont, key) =>
            let current := attr_or_unknown key (attrs_of cont wb) in
            match blend current tv (strength c) with
            | Raise e => (Raise e, wb)
            | Ok new_val =>
                if negb (py_eq current new_val) then
                  (Ok ((fst acc ++ [mkUpdate cid (target c) new_val])%list,
                       (snd acc + change_delta current new_val)%Q),
                   write_attr cont key new_val wb)
                else (Ok acc, wb)
            end
        end
    end.
Proof.
  unfold propagate_constraint. unfold bind at 1.
  destruct (py_eval (expr_src c) wb) as [tv|x] eqn:E.
  - rewrite (safe_eval_success _ _ _ E).
    assert (H :
      (r <- try_except except_KeyError
              (x <- reading (_resolve_container (target c)) ;; ret (Some x))
              (fun _ => ret None) ;;
       match r with
       | None => ret acc
       | Some (cont, key) =>
           wb0 <- get_self ;;
           let current := attr_or_unknown key (attrs_of cont wb0) in
           new_val <- lift (blend current tv (strength c)) ;;
           if negb (py_eq current new_val) then
             put_self (write_attr cont key new_val wb0) ;;;
             ret ((fst acc ++ [mkUpdate cid (target c) new_val])%list,
                  (snd acc + change_delta current new_val)%Q)
           else ret acc
       end) wb
      = match _resolve_container (target c) wb with
        | Raise _ => (Ok acc, wb)
        | Ok (cont, key) =>
            let current := attr_or_unknown key (attrs_of cont wb) in
            match blend current tv (strength c) with
            | Raise e => (Raise e, wb)
            | Ok new_val =>
                if negb (py_eq current new_val) then
                  (Ok ((fst acc ++ [mkUpdate cid (target c) new_val])%list,
                       (snd acc + change_delta current new_val)%Q),
                   write_attr cont key new_val wb)
                else (Ok acc, wb)
            end
        end).
    { unfold bind at 1. rewrite resolve_in_try.
      destruct (_resolve_container (target c) wb) as [[cont key]|]; [|reflexivity].
      unfold bind at 1, get_self at 1. cbv zeta. unfold bind at 1, lift at 1.
      destruct (blend _ _ _) as [nv|e]; [|reflexivity].
      destruct (negb _); reflexivity. }
    destruct tv; try exact H. reflexivity.
  - rewrite (safe_eval_failure _ _ _ E). reflexivity.
Qed.

Lemma py_eval_with_log src wb v l : py_eval src (with_log wb v l) = py_eval src wb.
Proof. unfold py_eval. destruct (parse src); [apply eval_expr_with_log|reflexivity]. Qed.

(** A tick does the same to the graph whatever the version and the log. *)
Lemma propagate_constraint_with_log cid c acc wb v l :
  propagate_constraint cid c acc (with_log wb v l)
  = (fst (propagate_constraint cid c acc wb),
     with_log (snd (propagate_constraint cid c acc wb)) v l).
Proof.
  rewrite !propagate_constraint_cases. rewrite py_eval_with_log.
  destruct (py_eval (expr_src c) wb) as [tv|x]; [|reflexivity].
  change (_resolve_container (target c) (with_log wb v l))
    with (_resolve_container (target c) wb).
  assert (H :
    match _resolve_container (target c) wb with
    | Raise _ => (Ok acc, with_log wb v l)
    | Ok (cont, key) =>
        let current := attr_or_unknown key (attrs_of cont (with_log wb v l)) in
        match blend current tv (strength c) with
        | Raise e => (Raise e, with_log wb v l)
        | Ok new_val =>
            if negb (py_eq current new_val) then
              (Ok ((fst acc ++ [mkUpdate cid (target c) new_val])%list,
                   (snd acc + change_delta current new_val)%Q),
               write_attr cont key new_val (with_log wb v l))
            else (Ok acc, with_log wb v l)
        end
    end
    = (fst match _resolve_container (target c) wb with
           | Raise _ => (Ok acc, wb)
           | Ok (cont, key) =>
               let current := attr_or_unknown key (attrs_of cont wb) in
               match blend current tv (strength c) with
               | Raise e => (Raise e, wb)
               | Ok new_val =>
                   if negb (py_eq current new_val) then
                     (Ok ((fst acc ++ [mkUpdate cid (target c) new_val])%list,
                          (snd acc + change_delta current new_val)%Q),
                      write_attr cont key new_val wb)
                   else (Ok acc, wb)
               end
           end,
       with_log (snd match _resolve_container (target c) wb with
                     | Raise _ => (Ok acc, wb)
                     | Ok (cont, key) =>
                         let current := attr_or_unknown key (attrs_of cont wb) in
                         match blend current tv (strength c) with
                         | Raise e => (Raise e, wb)
                         | Ok new_val =>
                             if negb (py_eq current new_val) then
                               (Ok ((fst acc ++ [mkUpdate cid (target c) new_val])%list,
                                    (snd acc + change_delta current new_val)%Q),
                                write_attr cont key new_val wb)
                             else (Ok acc, wb)
                         end
                     end) v l)).
  { destruct (_resolve_container (target c) wb) as [[cont key]|]; [|reflexivity].
    cbv zeta.
    change (attrs_of cont (with_log wb v l)) with (attrs_of cont wb).
    destruct (blend _ _ _) as [nv|e]; [|reflexivity].
    destruct (negb _); [|reflexivity]. simpl. rewrite write_attr_with_log. reflexivity. }
  destruct tv; try exact H. reflexivity.
Qed.

Lemma propagate_loop_with_log cs acc wb v l :
  propagate_loop cs acc (with_log wb v l)
  = (fst (propagate_loop cs acc wb), with_log (snd (propagate_loop cs acc wb)) v l).
Proof.
  revert acc wb. induction cs as [|[cid c] rest IH]; intros acc wb; simpl; [reflexivity|].
  unfold bind. rewrite propagate_constraint_with_log.
  destruct (propagate_constraint cid c acc wb) as [[acc1|e] wb1]; simpl; [apply IH|reflexivity].
Qed.

Lemma change_delta_positive current new_val :
  py_eq current new_val = false -> (0 < change_delta current new_val)%Q.
Proof.
  unfold change_delta, py_eq, mid, width. intros H.
  destruct current, new_val; try reflexivity.
  - destruct (Qeq_dec (x0 - x) 0) as [E|E].
    + assert (Hx : (x == x0)%Q) by lra. apply Qeq_bool_iff in Hx. congruence.
    + pose proof (Qabs_nonneg (x0 - x)) as Hn.
      destruct (Qlt_le_dec 0 (Qabs (x0 - x))) as [Hp|Hp]; [exact Hp|].
      exfalso. apply E. assert (Hz : (Qabs (x0 - x) == 0)%Q) by lra.
      revert Hz. apply Qabs_case; intros; lra.
  - pose proof (Qabs_nonneg ((1 # 2) * (lo0 + hi0) - (1 # 2) * (lo + hi))) as Hm.
    pose proof (Qabs_nonneg (hi0 - lo0 - (hi - lo))) as Hw.
    destruct (Qlt_le_dec 0 (Qabs ((1 # 2) * (lo0 + hi0) - (1 # 2) * (lo + hi))
                            + Qabs (hi0 - lo0 - (hi - lo)))) as [Hp|Hp]; [exact Hp|].
    exfalso.
    assert (Hm0 : (Qabs ((1 # 2) * (lo0 + hi0) - (1 # 2) * (lo + hi)) == 0)%Q) by lra.
    assert (Hw0 : (Qabs (hi0 - lo0 - (hi - lo)) == 0)%Q) by lra.
    assert (Hm1 : ((1 # 2) * (lo0 + hi0) - (1 # 2) * (lo + hi) == 0)%Q)
      by (revert Hm0; apply Qabs_case; intros; lra).
    assert (Hw1 : (hi0 - lo0 - (hi - lo) == 0)%Q)
      by (revert Hw0; apply Qabs_case; intros; lra).
    assert (Hl : (lo == lo0)%Q) by lra. assert (Hh : (hi == hi0)%Q) by lra.
    apply Qeq_bool_iff in Hl. apply Qeq_bool_iff in Hh. rewrite Hl, Hh in H. discriminate.
Qed.

Lemma write_attr_keeps c k v wb :
  constraints (write_attr c k v wb) = constraints wb
  /\ rules (write_attr c k v wb) = rules wb
  /\ snapshots (write_attr c k v wb) = snapshots wb.
Proof.
  destruct c as [i|i]; simpl;
    [destruct (Dict.get i (nodes wb))|destruct (Dict.get i (edges wb))]; auto.
Qed.

(** What the loop of a tick that returns has done: the updates it added, each
    for one of the constraints and in their order, and the change it
    measured, positive as soon as there is an update. *)
Lemma propagate_loop_accounts cs acc wb acc' wb' :
  propagate_loop cs acc wb = (Ok acc', wb') ->
  exists us d,
    fst acc' = (fst acc ++ us)%list
    /\ (snd acc' == snd acc + d)%Q
    /\ (List.length us <= List.length cs)%nat
    /\ (us = [] -> acc' = acc /\ wb' = wb)
    /\ (us <> [] -> (0 < d)%Q)
    /\ Forall (fun u => exists c, In (u_constraint u, c) cs /\ u_target u = target c) us
    /\ constraints wb' = constraints wb /\ rules wb' = rules wb
    /\ snapshots wb' = snapshots wb.
Proof.
  revert acc wb. induction cs as [|[cid c] rest IH]; intros acc wb H; simpl in H.
  - unfold ret in H. injection H as <- <-. exists [], 0%Q.
    rewrite app_nil_r. repeat split; auto; try lra. intros X; contradiction.
  - unfold bind in H. rewrite propagate_constraint_cases in H.
    assert (Hskip :
      propagate_loop rest acc wb = (Ok acc', wb') ->
      exists us d,
        fst acc' = (fst acc ++ us)%list
        /\ (snd acc' == snd acc + d)%Q
        /\ (List.length us <= List.length ((cid, c) :: rest))%nat
        /\ (us = [] -> acc' = acc /\ wb' = wb)
        /\ (us <> [] -> (0 < d)%Q)
        /\ Forall (fun u => exists c0, In (u_constraint u, c0) ((cid, c) :: rest)
                                       /\ u_target u = target c0) us
        /\ constraints wb' = constraints wb /\ rules wb' = rules wb
        /\ snapshots wb' = snapshots wb).
    { intros H0. destruct (IH _ _ H0) as [us [d [H1 [H2 [H3 [H4 [H5 [H6 H7]]]]]]]].
      exists us, d. repeat split; auto; try apply H4; try apply H7; auto.
      - simpl. lia.
      - eapply Forall_impl; [|exact H6]. intros u [c0 [Hin Ht]].
        exists c0. split; [right; exact Hin|exact Ht]. }
    destruct (py_eval (expr_src c) wb) as [tv|x]; [|exact (Hskip H)].
    assert (Hgo :
      match
        match _resolve_container (target c) wb with
        | Raise _ => (Ok acc, wb)
        | Ok (cont, key) =>
            let current := attr_or_unknown key (attrs_of cont wb) in
            match blend current tv (strength c) with
            | Raise e => (Raise e, wb)
            | Ok new_val =>
                if negb (py_eq current new_val) then
                  (Ok ((fst acc ++ [mkUpdate cid (target c) new_val])%list,
                       (snd acc + change_delta current new_val)%Q),
                   write_attr cont key new_val wb)
                else (Ok acc, wb)
            end
        end
      with
      | (Ok a, wb1) => propagate_loop rest a wb1
      | (Raise e, wb1) => (Raise e, wb1)
      end = (Ok acc', wb') ->
      exists us d,
        fst acc' = (fst acc ++ us)%list
        /\ (snd acc' == snd acc + d)%Q
        /\ (List.length us <= List.length ((cid, c) :: rest))%nat
        /\ (us = [] -> acc' = acc /\ wb' = wb)
        /\ (us <> [] -> (0 < d)%Q)
        /\ Forall (fun u => exists c0, In (u_constraint u, c0) ((cid, c) :: rest)
                                       /\ u_target u = target c0) us
        /\ constraints wb' = constraints wb /\ rules wb' = rules wb
        /\ snapshots wb' = snapshots wb).
    { clear H. intros H.
      destruct (_resolve_container (target c) wb) as [[cont key]|]; [|exact (Hskip H)].
      cbv zeta in H.
      destruct (blend _ tv (strength c)) as [nv|e]; [|discriminate H].
      destruct (negb (py_eq _ nv)) eqn:Hneq; [|exact (Hskip H)].
      apply negb_true_iff in Hneq. apply change_delta_positive in Hneq.
      destruct (IH _ _ H) as [us [d [H1 [H2 [H3 [H4 [H5 [H6 [H7 [H8 H9]]]]]]]]]].
      destruct (write_attr_keeps cont key nv wb) as [K1 [K2 K3]].
      simpl in H1, H2.
      exists (mkUpdate cid (target c) nv :: us),
             (change_delta (attr_or_unknown key (attrs_of cont wb)) nv + d)%Q.
      repeat split.
      - rewrite H1, <- app_assoc. reflexivity.
      - rewrite H2. ring.
      - simpl. lia.
      - discriminate.
      - discriminate.
      - intros _. destruct us as [|u us'].
        + destruct (H4 eq_refl) as [Ha _]. subst acc'. simpl in H2.
          assert (d == 0)%Q by lra. lra.
        + assert (0 < d)%Q by (apply H5; discriminate). lra.
      - constructor.
        + exists c. split; [left; reflexivity|reflexivity].
        + eapply Forall_impl; [|exact H6]. intros u [c0 [Hin Ht]].
          exists c0. split; [right; exact Hin|exact Ht].
      - congruence.
      - congruence.
      - congruence. }
    destruct tv; try exact (Hgo H). exact (Hskip H).
Qed.


(** *** Batches in pieces *)

Lemma run_lines_app a b acc wb :
  run_lines (a ++ b) acc wb = bind (run_lines a acc) (run_lines b) wb.
Proof.
  revert acc wb. induction a as [|l rest IH]; intros acc wb; [reflexivity|].
  simpl.
  assert (Hcall : forall op,
    (if negb (hasattr op)
     then run_lines (rest ++ b) (acc ++ [unknown_record l op])
     else
       out <- try_except except_Exception
                (res <- call_line l ;; ret (ok_record op res))
                (fun e => ret (error_record l op e)) ;;
       run_lines (rest ++ b) (acc ++ [out])) wb
    = bind (if negb (hasattr op)
            then run_lines rest (acc ++ [unknown_record l op])
            else
              out <- try_except except_Exception
                       (res <- call_line l ;; ret (ok_record op res))
                       (fun e => ret (error_record l op e)) ;;
              run_lines rest (acc ++ [out])) (run_lines b) wb).
  { intros op. destruct (negb (hasattr op)); [apply IH|].
    unfold bind at 1 3 4.
    destruct (try_except _ _ _ wb) as [[out|e] wb1]; [apply IH|reflexivity]. }
  destruct l; try reflexivity; try apply IH; apply Hcall.
Qed.

Lemma run_lines_acc ls acc wb :
  run_lines ls acc wb
  = match run_lines ls [] wb with
    | (Ok outs, wb') => (Ok (acc ++ outs)%list, wb')
    | (Raise e, wb') => (Raise e, wb')
    end.
Proof.
  revert acc wb. induction ls as [|l rest IH]; intros acc wb.
  - simpl. unfold ret. rewrite app_nil_r. reflexivity.
  - simpl.
    assert (Hcall : forall op,
      (if negb (hasattr op)
       then run_lines rest (acc ++ [unknown_record l op])
       else
         out <- try_except except_Exception
                  (res <- call_line l ;; ret (ok_record op res))
                  (fun e => ret (error_record l op e)) ;;
         run_lines rest (acc ++ [out])) wb
      = match
          (if negb (hasattr op)
           then run_lines rest ([] ++ [unknown_record l op])
           else
             out <- try_except except_Exception
                      (res <- call_line l ;; ret (ok_record op res))
                      (fun e => ret (error_record l op e)) ;;
             run_lines rest ([] ++ [out])) wb
        with
        | (Ok outs, wb') => (Ok (acc ++ outs)%list, wb')
        | (Raise e, wb') => (Raise e, wb')
        end).
    { intros op. destruct (negb (hasattr op)).
      - rewrite (IH (acc ++ _)%list), (IH ([] ++ _)%list).
        destruct (run_lines rest [] wb) as [[o|e] w]; [|reflexivity].
        rewrite <- app_assoc. reflexivity.
      - unfold bind.
        destruct (try_except _ _ _ wb) as [[out|e] wb1]; [|reflexivity].
        rewrite (IH (acc ++ _)%list), (IH ([] ++ _)%list).
        destruct (run_lines rest [] wb1) as [[o|e] w]; [|reflexivity].
        rewrite <- app_assoc. reflexivity. }
    destruct l; try reflexivity; try apply IH; apply Hcall.
Qed.


(** *** Rules under a limit *)

Lemma match_instances_prefix limit rule envs a :
  exists rest,
    flat_map (fun env => action_instances (r_name rule) env (actions rule)) envs
    = (match_instances limit rule envs a ++ rest)%list
    /\ (forall l, limit = Some l ->
          a + Z.of_nat (List.length (match_instances limit rule envs a)) < l -> rest = [])
    /\ (forall l, limit = Some l -> l <= a -> match_instances limit rule envs a = []).
Proof.
  revert a. induction envs as [|env r IH]; intros a; simpl.
  - exists []. repeat split; auto.
  - destruct (limit_reached limit a) eqn:L.
    + eexists. split; [reflexivity|]. split; [|auto].
      intros l -> H. simpl in L, H. apply Z.leb_le in L. lia.
    + set (us := action_instances (r_name rule) env (actions rule)).
      destruct (IH (a + Z.of_nat (List.length us))) as [rest [E [H1 H2]]].
      exists rest. split; [rewrite E, app_assoc; reflexivity|]. split.
      * intros l Hl H. apply (H1 l Hl). rewrite length_app in H. lia.
      * intros l -> H. simpl in L. apply Z.leb_gt in L. lia.
Qed.

Lemma rules_instances_prefix l rs wb a :
  exists rest,
    flat_map (fun rule =>
                flat_map (fun env => action_instances (r_name rule) env (actions rule))
                  (_match_rule rule wb)) rs
    = (rules_instances (Some l) rs wb a ++ rest)%list
    /\ (a + Z.of_nat (List.length (rules_instances (Some l) rs wb a)) < l -> rest = [])
    /\ (l <= a -> rules_instances (Some l) rs wb a = []).
Proof.
  revert a. induction rs as [|rule r IH]; intros a; simpl.
  - exists []. repeat split; auto.
  - set (us := match_instances (Some l) rule (_match_rule rule wb) a).
    destruct (match_instances_prefix (Some l) rule (_match_rule rule wb) a)
      as [r1 [E1 [A1 B1]]]. fold us in E1, A1, B1.
    specialize (A1 l eq_refl). specialize (B1 l eq_refl).
    destruct (IH (a + Z.of_nat (List.length us))) as [r2 [E2 [A2 B2]]].
    rewrite E1, E2.
    destruct (Z_lt_le_dec (a + Z.of_nat (List.length us)) l) as [Hlt|Hge].
    + rewrite (A1 Hlt). exists r2. rewrite app_nil_r, app_assoc.
      split; [reflexivity|]. split.
      * intros H. apply A2. rewrite length_app in H. lia.
      * intros H. lia.
    + rewrite (B2 Hge). exists (r1 ++ r2)%list.
      rewrite !app_nil_r. simpl. rewrite <- app_assoc. split; [reflexivity|]. split.
      * intros H. lia.
      * intros H. apply (B1 H).
Qed.

(** X11.  [run_rules] under a limit.  [run_rules(limit)] returns; the
    constraints it upserts are a leading part of those a run without limit
    would upsert, in the same order, and [applied] is their number.  If it
    stopped short of the full list then [applied] has reached the limit;
    with a limit of 0 or less nothing is applied and the constraints are
    untouched.  The version goes up by [applied + 1]. *)
Theorem run_rules_under_limit (l : Z) (wb : Workbench) :
  let applied := rules_instances (Some l) (Dict.values (rules wb)) wb 0 in
  exists details wb' rest,
    run_rules (Some l) wb = (Ok (Z.of_nat (List.length applied), details), wb')
    /\ constraints wb' = upserts (constraints wb) applied
    /\ all_instances wb = (applied ++ rest)%list
    /\ (rest <> [] -> l <= Z.of_nat (List.length applied))
    /\ (l <= 0 -> applied = [] /\ constraints wb' = constraints wb)
    /\ version wb' = version wb + Z.of_nat (List.length applied) + 1.
Proof.
  intros applied.
  destruct (run_rules_effect (Some l) wb) as [details [wb' [Hrun [Hc Hg]]]].
  destruct (rules_instances_prefix l (Dict.values (rules wb)) wb 0)
    as [rest [E [A B]]].
  fold applied in Hrun, Hc, E, A, B.
  exists details, wb', rest. split; [exact Hrun|]. split; [exact Hc|].
  split; [exact E|]. split; [|split].
  - intros Hne. destruct (Z_lt_le_dec (Z.of_nat (List.length applied)) l) as [Hlt|Hge];
      [|exact Hge].
    exfalso. apply Hne. apply A. lia.
  - intros Hl. assert (Ha : applied = []) by (apply B; lia).
    split; [exact Ha|]. rewrite Hc, Ha. reflexivity.
  - apply run_rules_versions in Hrun. simpl in Hrun. lia.
Qed.

(** *** Edge ids *)

Lemma to_uint_nonnil (n : nat) : Nat.to_uint n <> Decimal.Nil.
Proof.
  intros H. pose proof (DecimalNat.Unsigned.of_to n) as E. rewrite H in E.
  simpl in E. subst n. discriminate H.
Qed.

Lemma string_of_uint_inj (d d' : Decimal.uint) :
  d <> Decimal.Nil -> d' <> Decimal.Nil ->
  NilZero.string_of_uint d = NilZero.string_of_uint d' -> d = d'.
Proof.
  unfold NilZero.string_of_uint. intros Hd Hd' H.
  destruct d; [contradiction| | | | | | | | | |];
    (destruct d'; [contradiction| | | | | | | | | |]);
    apply (f_equal NilEmpty.uint_of_string) in H;
    rewrite !NilEmpty.usu in H; congruence.
Qed.

Lemma dec_inj (i j : nat) : dec i = dec j -> i = j.
Proof.
  unfold dec. intros H. apply DecimalNat.Unsigned.to_uint_inj.
  apply string_of_uint_inj; [apply to_uint_nonnil|apply to_uint_nonnil|exact H].
Qed.

Lemma append_inj_l (a x y : string) : a ++ x = a ++ y -> x = y.
Proof.
  induction a as [|c r IH]; simpl; intros H; [exact H|].
  injection H as H. exact (IH H).
Qed.

Lemma derived_id_inj f o t (i j : nat) : derived_id f o t i = derived_id f o t j -> i = j.
Proof.
  unfold derived_id. destruct i as [|i], j as [|j]; intros H.
  - reflexivity.
  - symmetry in H. exfalso. revert H. apply append_grows. discriminate.
  - exfalso. revert H. apply append_grows. discriminate.
  - apply append_inj_l in H. apply append_inj_l in H. apply dec_inj. exact H.
Qed.

Lemma mem_In_keys {V} k (d : list (string * V)) :
  Dict.mem k d = true -> In k (Dict.keys d).
Proof.
  unfold Dict.mem, Dict.keys. induction d as [|[k0 v0] r IH]; simpl; [discriminate|].
  destruct (String.eqb k k0) eqn:E.
  - apply String.eqb_eq in E. auto.
  - intros H. right. apply IH. exact H.
Qed.

(** The search loop returns the first derived id that is free, or, out of
    fuel, one it has not tested with every id before it taken. *)
Lemma free_edge_id_first f o t fuel k es :
  exists m,
    free_edge_id fuel (derived_id f o t 0) (derived_id f o t k) (S k) es
    = derived_id f o t m
    /\ (k <= m)%nat
    /\ (forall j, (k <= j < m)%nat -> Dict.mem (derived_id f o t j) es = true)
    /\ (Dict.mem (derived_id f o t m) es = false \/ m = (k + fuel)%nat).
Proof.
  revert k. induction fuel as [|fuel IH]; intros k; simpl.
  - exists k. split; [reflexivity|]. split; [lia|]. split; [intros j Hj; lia|right; lia].
  - destruct (Dict.mem (derived_id f o t k) es) eqn:E.
    + destruct (IH (S k)) as [m [H1 [H2 [H3 H4]]]].
      exists m. split; [exact H1|]. split; [lia|]. split.
      * intros j Hj. destruct (Nat.eq_dec j k) as [->|Hne]; [exact E|].
        apply H3. lia.
      * destruct H4 as [H4|H4]; [left; exact H4|right; lia].
    + exists k. split; [reflexivity|]. split; [lia|].
      split; [intros j Hj; lia|left; exact E].
Qed.

Lemma derived_ids_not_all_taken f o t {V} (es : list (string * V)) :
  ~ (forall j, (j < S (List.length es))%nat -> Dict.mem (derived_id f o t j) es = true).
Proof.
  intros H.
  assert (Hn : NoDup (map (derived_id f o t) (seq 0 (S (List.length es))))).
  { apply NoDup_map_NoDup_ForallPairs; [|apply seq_NoDup].
    intros a b _ _. apply derived_id_inj. }
  assert (Hi : incl (map (derived_id f o t) (seq 0 (S (List.length es)))) (Dict.keys es)).
  { intros x Hx. apply in_map_iff in Hx. destruct Hx as [j [<- Hj]].
    apply in_seq in Hj. apply mem_In_keys. apply H. lia. }
  pose proof (NoDup_incl_length Hn Hi) as Hl.
  rewrite length_map, length_seq in Hl. unfold Dict.keys in Hl.
  rewrite length_map in Hl. lia.
Qed.

(** X17.  An edge without id always gets one.  When both endpoints are
    nodes, [create_edge] without an id returns: the id it gives the edge is
    the first of [from->to:type], [from->to:type#1], [from->to:type#2], ...
    that no edge has yet, so the search ends and never runs into "edge
    exists"; the new edge is stored under that id with the given type and
    endpoints, every other edge stays as it was, and the version goes up by
    one. *)
Theorem create_edge_derives_free_id (type from to : string)
    (attrs : option (list (string * value))) (wb : Workbench) :
  Dict.mem from (nodes wb) = true -> Dict.mem to (nodes wb) = true ->
  exists m wb',
    create_edge type from to None attrs wb
    = (Ok (REdge (derived_id from to type m) type from to (or_empty attrs)), wb')
    /\ Dict.mem (derived_id from to type m) (edges wb) = false
    /\ (forall j, (j < m)%nat -> Dict.mem (derived_id from to type j) (edges wb) = true)
    /\ Dict.get (derived_id from to type m) (edges wb')
       = Some (mkEdge (derived_id from to type m) type from to (or_empty attrs))
    /\ (forall k, k <> derived_id from to type m ->
          Dict.get k (edges wb') = Dict.get k (edges wb))
    /\ nodes wb' = nodes wb
    /\ version wb' = version wb + 1.
Proof.
  intros Hf Ht. unfold create_edge. unfold bind at 1, get_self at 1.
  rewrite Hf, Ht. simpl negb. simpl orb. cbv iota.
  destruct (free_edge_id_first from to type (S (List.length (edges wb))) 0 (edges wb))
    as [m [H1 [_ [H3 H4]]]].
  change (from ++ "->" ++ to ++ ":" ++ type) with (derived_id from to type 0).
  rewrite H1.
  assert (Hfree : Dict.mem (derived_id from to type m) (edges wb) = false).
  { destruct H4 as [H4|H4]; [exact H4|]. exfalso.
    apply (derived_ids_not_all_taken from to type (edges wb)).
    intros j Hj. apply H3. lia. }
  rewrite Hfree. unfold _bump. unfold_m. simpl.
  exists m. eexists. split; [reflexivity|]. simpl.
  split; [exact Hfree|]. split; [intros j Hj; apply H3; lia|].
  split; [apply get_set_same|]. split; [|auto].
  intros k Hk. apply get_set_other. exact Hk.
Qed.

(** *** How far a simulation goes *)

Lemma tick_counts (wb wb' : Workbench) (t : tick) :
  propagate_once wb = (Ok t, wb') ->
  0 <= count t <= Z.of_nat (List.length (constraints wb))
  /\ constraints wb' = constraints wb /\ rules wb' = rules wb
  /\ snapshots wb' = snapshots wb
  /\ (count t = 0 -> nodes wb' = nodes wb /\ edges wb' = edges wb).
Proof.
  unfold propagate_once. unfold bind at 1, get_self at 1. unfold bind at 1.
  destruct (propagate_loop (constraints wb) ([], 0%Q) wb) as [[acc|e] wb1] eqn:P;
    [|discriminate].
  unfold _bump, bind, ret. intros H. injection H as <- <-.
  destruct (propagate_loop_accounts _ _ _ _ _ P) as
    [us [d [H1 [_ [H3 [H4 [_ [_ [H7 [H8 H9]]]]]]]]]].
  simpl in H1. simpl. rewrite H1. split; [lia|].
  split; [exact H7|]. split; [exact H8|]. split; [exact H9|].
  intros Hc. destruct us as [|u r]; [|simpl in Hc; lia].
  destruct (H4 eq_refl) as [_ ->]. auto.
Qed.

Lemma sim_loop_bounds fuel ud ms st wb st' wb' :
  sim_loop fuel ud ms st wb = (Ok st', wb') ->
  sim_steps st <= sim_steps st' <= sim_steps st + Z.of_nat fuel
  /\ sim_total st <= sim_total st'
     <= sim_total st
        + (sim_steps st' - sim_steps st) * Z.of_nat (List.length (constraints wb))
  /\ (sim_continue ms st = true -> (0 < fuel)%nat -> sim_steps st < sim_steps st')
  /\ (sim_continue ms st = false -> st' = st /\ wb' = wb)
  /\ constraints wb' = constraints wb /\ rules wb' = rules wb
  /\ snapshots wb' = snapshots wb
  /\ (sim_total st' = sim_total st -> nodes wb' = nodes wb /\ edges wb' = edges wb).
Proof.
  revert st wb. induction fuel as [|f IH]; intros st wb H.
  - simpl in H. unfold ret in H. injection H as <- <-.
    repeat split; auto; try lia.
  - cbn [sim_loop] in H. destruct (sim_continue ms st) eqn:C.
    + apply bind_ok_inv in H. destruct H as [r [wb1 [Hp H]]].
      destruct (tick_counts _ _ _ Hp) as [Hc [K1 [K2 [K3 K4]]]].
      assert (Hstop :
        (Ok (mkSim (sim_ticks st - 1) (sim_steps st + 1) (sim_total st + count r)
               (sim_last st)), wb1) = (Ok st', wb') ->
        sim_steps st <= sim_steps st' <= sim_steps st + Z.of_nat (S f)
        /\ sim_total st <= sim_total st'
           <= sim_total st
              + (sim_steps st' - sim_steps st) * Z.of_nat (List.length (constraints wb))
        /\ (true = true -> (0 < S f)%nat -> sim_steps st < sim_steps st')
        /\ (true = false -> st' = st /\ wb' = wb)
        /\ constraints wb' = constraints wb /\ rules wb' = rules wb
        /\ snapshots wb' = snapshots wb
        /\ (sim_total st' = sim_total st -> nodes wb' = nodes wb /\ edges wb' = edges wb)).
      { intros E. injection E as <- <-. simpl.
        split; [lia|]. split; [lia|]. split; [lia|]. split; [discriminate|].
        split; [exact K1|]. split; [exact K2|]. split; [exact K3|].
        intros Ht. apply K4. lia. }
      repeat match type of H with
             | context [if ?b then _ else _] => destruct b
             end; try (unfold ret in H; exact (Hstop H)).
      apply IH in H. simpl in H.
      destruct H as [H1 [H2 [_ [_ [H5 [H6 [H7 H8]]]]]]].
      rewrite K1 in H2.
      split; [lia|]. split; [nia|]. split; [lia|]. split; [discriminate|].
      split; [congruence|]. split; [congruence|]. split; [congruence|].
      intros Ht. assert (Hz : count r = 0) by nia.
      destruct (K4 Hz) as [N1 N2].
      destruct H8 as [N3 N4]; [lia|]. split; congruence.
    + unfold ret in H. injection H as <- <-.
      repeat split; auto; try lia; discriminate.
Qed.


(** *** The matcher *)

Lemma fold_left_collect {A B S} (step : list B * S -> A -> list B * S)
    (f : A -> list B) (s : S) (l : list A) (acc : list B) :
  (forall ys a, In a l -> step (ys, s) a = ((ys ++ f a)%list, s)) ->
  fold_left step l (acc, s) = ((acc ++ flat_map f l)%list, s).
Proof.
  revert acc. induction l as [|a r IH]; intros acc H; simpl.
  - rewrite app_nil_r. reflexivity.
  - rewrite H by (left; reflexivity). rewrite IH.
    + rewrite <- app_assoc. reflexivity.
    + intros ys b Hb. apply H. right. exact Hb.
Qed.

Lemma bind_if_free_bound var id env : bound_endpoint env var -> bind_if_free var id env = env.
Proof.
  unfold bound_endpoint, bind_if_free. destruct var as [v|]; [|reflexivity].
  intros H. destruct (truthy v); [|reflexivity]. rewrite (H eq_refl). reflexivity.
Qed.

Lemma bound_endpoint_set env var k v :
  bound_endpoint env var -> bound_endpoint (Dict.set k v env) var.
Proof.
  unfold bound_endpoint. destruct var as [x|]; [|auto].
  intros H Ht. rewrite mem_set, (H Ht). apply orb_true_r.
Qed.

(** With the variables fresh and the endpoints bound, the generator's edge
    search undoes every binding it makes: it yields the plain search and
    leaves the dict as it found it. *)
Lemma backtrack_edges_plain wb pats j env :
  NoDup (edge_vars pats j) ->
  (forall x, In x (edge_vars pats j) -> Dict.mem x env = false) ->
  Forall (fun pat => bound_endpoint env (ep_from pat) /\ bound_endpoint env (ep_to pat))
    pats ->
  backtrack_edges wb pats j env = (edge_matches wb pats j env, env).
Proof.
  revert j env. induction pats as [|pat rest IH]; intros j env Hnd Hfresh Hb.
  - reflexivity.
  - cbn [backtrack_edges edge_matches].
    simpl in Hnd. inversion Hnd as [|x l Hx Hnd']; subst.
    inversion Hb as [|p l [Hbf Hbt] Hb']; subst.
    fold (edge_var pat j).
    rewrite (fold_left_collect _
               (fun e =>
                  if match impl with
                     | Sketch0 => in_values (e_id e) env
                     | Sketch3 => false
                     end
                  then []
                  else edge_matches wb rest (S j)
                         (Dict.set (edge_var pat j) (e_id e) env))).
    + reflexivity.
    + intros ys e _.
      destruct (match impl with
                | Sketch0 => in_values (e_id e) env
                | Sketch3 => false
                end); [rewrite app_nil_r; reflexivity|].
      rewrite (bind_if_free_bound _ _ _ Hbf), (bind_if_free_bound _ _ _ Hbt).
      rewrite IH.
      * rewrite del_set_fresh; [reflexivity|]. apply Hfresh. left. reflexivity.
      * exact Hnd'.
      * intros y Hy. rewrite mem_set.
        destruct (String.eqb y (edge_var pat j)) eqn:E.
        -- apply String.eqb_eq in E. subst y. contradiction.
        -- apply Hfresh. right. exact Hy.
      * eapply Forall_impl; [|exact Hb']. intros p [H1 H2].
        split; apply bound_endpoint_set; assumption.
Qed.

(** The same for the node search, down to the edge search it starts. *)
Lemma backtrack_nodes_plain wb eps pats env :
  NoDup (map np_var pats ++ edge_vars eps 0)%list ->
  (forall x, In x (map np_var pats ++ edge_vars eps 0)%list -> Dict.mem x env = false) ->
  Forall (fun pat =>
            (forall v, ep_from pat = Some v -> truthy v = true ->
                       Dict.mem v env = true \/ In v (map np_var pats))
            /\ (forall v, ep_to pat = Some v -> truthy v = true ->
                          Dict.mem v env = true \/ In v (map np_var pats))) eps ->
  backtrack_nodes wb eps pats env = (node_matches wb eps pats env, env).
Proof.
  revert env. induction pats as [|pat rest IH]; intros env Hnd Hfresh Hsc.
  - cbn [backtrack_nodes node_matches]. simpl in Hnd, Hfresh.
    rewrite backtrack_edges_plain; [reflexivity|exact Hnd|exact Hfresh|].
    eapply Forall_impl; [|exact Hsc]. intros p [H1 H2].
    unfold bound_endpoint. split.
    + destruct (ep_from p) as [v|]; [|exact I]. intros Ht.
      destruct (H1 v eq_refl Ht) as [H|[]]. exact H.
    + destruct (ep_to p) as [v|]; [|exact I]. intros Ht.
      destruct (H2 v eq_refl Ht) as [H|[]]. exact H.
  - cbn [backtrack_nodes node_matches].
    simpl in Hnd. inversion Hnd as [|x l Hx Hnd']; subst.
    rewrite (fold_left_collect _
               (fun nid =>
                  if in_values nid env then []
                  else node_matches wb eps rest (Dict.set (np_var pat) nid env))).
    + reflexivity.
    + intros ys nid _.
      destruct (in_values nid env); [rewrite app_nil_r; reflexivity|].
      rewrite IH.
      * rewrite del_set_fresh; [reflexivity|]. apply Hfresh. left. reflexivity.
      * exact Hnd'.
      * intros y Hy. rewrite mem_set.
        destruct (String.eqb y (np_var pat)) eqn:E.
        -- apply String.eqb_eq in E. subst y. contradiction.
        -- apply Hfresh. right. exact Hy.
      * eapply Forall_impl; [|exact Hsc]. intros p [H1 H2]. split.
        -- intros v Hv Ht. rewrite mem_set.
           destruct (H1 v Hv Ht) as [H|[H|H]].
           ++ left. rewrite H. apply orb_true_r.
           ++ left. subst v. rewrite String.eqb_refl. reflexivity.
           ++ right. exact H.
        -- intros v Hv Ht. rewrite mem_set.
           destruct (H2 v Hv Ht) as [H|[H|H]].
           ++ left. rewrite H. apply orb_true_r.
           ++ left. subst v. rewrite String.eqb_refl. reflexivity.
           ++ right. exact H.
Qed.

Lemma match_rule_plain rule wb :
  well_scoped rule ->
  _match_rule rule wb = node_matches wb (edge_patterns rule) (node_patterns rule) [].
Proof.
  intros [Hnd Hsc]. unfold _match_rule. rewrite backtrack_nodes_plain; [reflexivity| | |].
  - exact Hnd.
  - intros x _. reflexivity.
  - eapply Forall_impl; [|exact Hsc]. intros p [H1 H2]. unfold names_one_of in *.
    split; intros v Hv Ht; right.
    + rewrite Hv in H1. exact (H1 Ht).
    + rewrite Hv in H2. exact (H2 Ht).
Qed.

Lemma endpoint_ok_agree var env1 env2 x :
  (forall v, var = Some v -> truthy v = true -> Dict.get v env1 = Dict.get v env2) ->
  endpoint_ok var env1 x = endpoint_ok var env2 x.
Proof.
  unfold endpoint_ok. destruct var as [v|]; [|reflexivity].
  intros H. destruct (truthy v) eqn:T; [|reflexivity].
  rewrite (H v eq_refl T). reflexivity.
Qed.

Lemma edge_candidates_agree pat env1 env2 wb :
  (forall v, ep_from pat = Some v \/ ep_to pat = Some v -> truthy v = true ->
             Dict.get v env1 = Dict.get v env2) ->
  _edge_candidates pat env1 wb = _edge_candidates pat env2 wb.
Proof.
  intros H. unfold _edge_candidates. apply filter_ext. intros e.
  rewrite (endpoint_ok_agree (ep_from pat) env1 env2) by (intros v Hv; apply H; auto).
  rewrite (endpoint_ok_agree (ep_to pat) env1 env2) by (intros v Hv; apply H; auto).
  reflexivity.
Qed.

Lemma in_values_get (env : list (string * string)) k v :
  Dict.get k env = Some v -> in_values v env = true.
Proof.
  unfold in_values, Dict.values. induction env as [|[k0 v0] r IH]; simpl; [discriminate|].
  destruct (String.eqb k k0).
  - intros H. injection H as ->. rewrite String.eqb_refl. reflexivity.
  - intros H. rewrite (IH H). apply orb_true_r.
Qed.

Lemma get_mem_set (env : list (string * string)) k x v :
  Dict.mem x env = false -> Dict.mem k env = true ->
  Dict.get k (Dict.set x v env) = Dict.get k env.
Proof.
  intros Hx Hk. apply get_set_other. intros ->. congruence.
Qed.

(** What every match of the plain edge search holds. *)
Lemma edge_matches_sound wb pats j env env' :
  NoDup (edge_vars pats j) ->
  (forall x, In x (edge_vars pats j) -> Dict.mem x env = false) ->
  Forall (fun pat => bound_endpoint env (ep_from pat) /\ bound_endpoint env (ep_to pat))
    pats ->
  In env' (edge_matches wb pats j env) ->
  (forall k, Dict.mem k env = true -> Dict.get k env' = Dict.get k env)
  /\ (forall i pat, nth_error pats i = Some pat ->
        exists e, Dict.get (edge_var pat (j + i)) env' = Some (e_id e)
                  /\ In e (_edge_candidates pat env' wb)).
Proof.
  revert j env. induction pats as [|pat rest IH]; intros j env Hnd Hfresh Hb Hin.
  - simpl in Hin. destruct Hin as [<-|[]]. split; [reflexivity|].
    intros i p Hp. destruct i; discriminate Hp.
  - cbn [edge_matches] in Hin. apply in_flat_map in Hin.
    destruct Hin as [e [He Hin]].
    destruct (match impl with
              | Sketch0 => in_values (e_id e) env
              | Sketch3 => false
              end); [destruct Hin|].
    simpl in Hnd. inversion Hnd as [|x l Hx Hnd']; subst.
    inversion Hb as [|p l [Hbf Hbt] Hb']; subst.
    assert (Hvar : Dict.mem (edge_var pat j) env = false)
      by (apply Hfresh; left; reflexivity).
    apply IH in Hin.
    + destruct Hin as [H1 H2].
      assert (Hagree : forall k, Dict.mem k env = true -> Dict.get k env' = Dict.get k env).
      { intros k Hk. rewrite H1 by (rewrite mem_set, Hk; apply orb_true_r).
        apply get_mem_set; assumption. }
      split; [exact Hagree|].
      intros i p Hp. destruct i as [|i]; simpl in Hp.
      * injection Hp as <-. exists e. rewrite Nat.add_0_r. split.
        -- rewrite H1 by (rewrite mem_set, String.eqb_refl; reflexivity).
           apply get_set_same.
        -- rewrite (edge_candidates_agree pat env' env); [exact He|].
           intros v [Hv|Hv] Ht; apply Hagree.
           ++ unfold bound_endpoint in Hbf. rewrite Hv in Hbf. exact (Hbf Ht).
           ++ unfold bound_endpoint in Hbt. rewrite Hv in Hbt. exact (Hbt Ht).
      * rewrite Nat.add_succ_r. apply (H2 i p Hp).
    + exact Hnd'.
    + intros y Hy. rewrite mem_set.
      destruct (String.eqb y (edge_var pat j)) eqn:E.
      * apply String.eqb_eq in E. subst y. contradiction.
      * apply Hfresh. right. exact Hy.
    + eapply Forall_impl; [|exact Hb']. intros p [H1 H2].
      split; apply bound_endpoint_set; assumption.
Qed.

(** What every match of the plain search holds. *)
Lemma node_matches_sound wb eps pats env env' :
  NoDup (map np_var pats ++ edge_vars eps 0)%list ->
  (forall x, In x (map np_var pats ++ edge_vars eps 0)%list -> Dict.mem x env = false) ->
  Forall (fun pat =>
            (forall v, ep_from pat = Some v -> truthy v = true ->
                       Dict.mem v env = true \/ In v (map np_var pats))
            /\ (forall v, ep_to pat = Some v -> truthy v = true ->
                          Dict.mem v env = true \/ In v (map np_var pats))) eps ->
  (forall k1 k2 v, Dict.get k1 env = Some v -> Dict.get k2 env = Some v -> k1 = k2) ->
  In env' (node_matches wb eps pats env) ->
  (forall k, Dict.mem k env = true -> Dict.get k env' = Dict.get k env)
  /\ (forall pat, In pat pats ->
        exists nid, Dict.get (np_var pat) env' = Some nid
                    /\ In nid (_node_candidates pat wb))
  /\ (forall j pat, nth_error eps j = Some pat ->
        exists e, Dict.get (edge_var pat j) env' = Some (e_id e)
                  /\ In e (_edge_candidates pat env' wb))
  /\ (forall k1 k2 v,
        Dict.mem k1 env = true \/ In k1 (map np_var pats) ->
        Dict.mem k2 env = true \/ In k2 (map np_var pats) ->
        Dict.get k1 env' = Some v -> Dict.get k2 env' = Some v -> k1 = k2).
Proof.
  revert env. induction pats as [|pat rest IH]; intros env Hnd Hfresh Hsc Hinj Hin.
  - cbn [node_matches] in Hin. simpl in Hnd, Hfresh.
    apply edge_matches_sound in Hin; [|exact Hnd|exact Hfresh|].
    + destruct Hin as [H1 H2]. split; [exact H1|]. split; [intros p []|].
      split; [intros j p Hp; apply (H2 j p Hp)|].
      intros k1 k2 v [Hk1|[]] [Hk2|[]] G1 G2.
      rewrite (H1 k1 Hk1) in G1. rewrite (H1 k2 Hk2) in G2. eapply Hinj; eauto.
    + eapply Forall_impl; [|exact Hsc]. intros p [H1 H2].
      unfold bound_endpoint. split.
      * destruct (ep_from p) as [v|]; [|exact I]. intros Ht.
        destruct (H1 v eq_refl Ht) as [H|[]]. exact H.
      * destruct (ep_to p) as [v|]; [|exact I]. intros Ht.
        destruct (H2 v eq_refl Ht) as [H|[]]. exact H.
  - cbn [node_matches] in Hin. apply in_flat_map in Hin.
    destruct Hin as [nid [Hc Hin]].
    destruct (in_values nid env) eqn:Hval; [destruct Hin|].
    simpl in Hnd. inversion Hnd as [|x l Hx Hnd']; subst.
    assert (Hvar : Dict.mem (np_var pat) env = false)
      by (apply Hfresh; left; reflexivity).
    apply IH in Hin.
    + destruct Hin as [H1 [H2 [H3 H4]]].
      assert (Hup : forall k, Dict.mem k env = true \/ In k (map np_var (pat :: rest)) ->
                              Dict.mem k (Dict.set (np_var pat) nid env) = true
                              \/ In k (map np_var rest)).
      { intros k [Hk|[Hk|Hk]].
        - left. rewrite mem_set, Hk. apply orb_true_r.
        - left. subst k. rewrite mem_set, String.eqb_refl. reflexivity.
        - right. exact Hk. }
      split; [|split; [|split; [exact H3|]]].
      * intros k Hk. rewrite H1 by (rewrite mem_set, Hk; apply orb_true_r).
        apply get_mem_set; assumption.
      * intros p [<-|Hp]; [|apply (H2 p Hp)].
        exists nid. split; [|exact Hc].
        rewrite H1 by (rewrite mem_set, String.eqb_refl; reflexivity).
        apply get_set_same.
      * intros k1 k2 v Hk1 Hk2. apply H4; apply Hup; assumption.
    + exact Hnd'.
    + intros y Hy. rewrite mem_set.
      destruct (String.eqb y (np_var pat)) eqn:E.
      * apply String.eqb_eq in E. subst y. contradiction.
      * apply Hfresh. right. exact Hy.
    + eapply Forall_impl; [|exact Hsc]. intros p [H1 H2]. split.
      * intros v Hv Ht. rewrite mem_set.
        destruct (H1 v Hv Ht) as [H|[H|H]].
        -- left. rewrite H. apply orb_true_r.
        -- left. subst v. rewrite String.eqb_refl. reflexivity.
        -- right. exact H.
      * intros v Hv Ht. rewrite mem_set.
        destruct (H2 v Hv Ht) as [H|[H|H]].
        -- left. rewrite H. apply orb_true_r.
        -- left. subst v. rewrite String.eqb_refl. reflexivity.
        -- right. exact H.
    + intros k1 k2 v G1 G2.
      destruct (String.eqb k1 (np_var pat)) eqn:E1;
        destruct (String.eqb k2 (np_var pat)) eqn:E2.
      * apply String.eqb_eq in E1. apply String.eqb_eq in E2. congruence.
      * apply String.eqb_eq in E1. apply String.eqb_neq in E2. subst k1.
        rewrite get_set_same in G1. injection G1 as <-.
        rewrite get_set_other in G2 by exact E2.
        apply in_values_get in G2. congruence.
      * apply String.eqb_neq in E1. apply String.eqb_eq in E2. subst k2.
        rewrite get_set_same in G2. injection G2 as <-.
        rewrite get_set_other in G1 by exact E1.
        apply in_values_get in G1. congruence.
      * apply String.eqb_neq in E1. apply String.eqb_neq in E2.
        rewrite get_set_other in G1 by exact E1.
        rewrite get_set_other in G2 by exact E2. eapply Hinj; eauto.
Qed.

(** X19.  What a match is.  For a rule whose variables are all
    different and whose edge patterns run between variables of its node
    patterns, [_match_rule] yields exactly the environments of a plain
    depth-first search, in its order, each as it stands when it is
    yielded: the bindings the generator makes in its working dict are all
    undone.  In every environment yielded, each
    node pattern's variable is bound to a node of the workbench that passes
    [_node_candidates] for that pattern; no two node variables are bound to
    the same node; and each edge pattern's variable is bound to an edge
    that passes [_edge_candidates] for that pattern in the environment
    yielded: its type and attributes fit, and its endpoints are the ids
    bound to the pattern's endpoint variables (an empty id bound is not
    compared). *)
Theorem match_rule_binds_soundly (rule : Rule) (wb : Workbench) :
  well_scoped rule ->
  _match_rule rule wb = node_matches wb (edge_patterns rule) (node_patterns rule) []
  /\ forall env, In env (_match_rule rule wb) ->
       (forall pat, In pat (node_patterns rule) ->
          exists nid, Dict.get (np_var pat) env = Some nid
                      /\ In nid (_node_candidates pat wb))
       /\ (forall p1 p2 nid,
             In p1 (node_patterns rule) -> In p2 (node_patterns rule) ->
             Dict.get (np_var p1) env = Some nid ->
             Dict.get (np_var p2) env = Some nid -> np_var p1 = np_var p2)
       /\ (forall j pat, nth_error (edge_patterns rule) j = Some pat ->
             exists e, Dict.get (edge_var pat j) env = Some (e_id e)
                       /\ In e (_edge_candidates pat env wb)).
Proof.
  intros Hws. pose proof (match_rule_plain rule wb Hws) as Hplain.
  split; [exact Hplain|]. intros env Hin. rewrite Hplain in Hin.
  destruct Hws as [Hnd Hsc].
  apply node_matches_sound in Hin.
  - destruct Hin as [_ [H2 [H3 H4]]]. split; [exact H2|]. split; [|exact H3].
    intros p1 p2 nid Hp1 Hp2. apply H4; right; apply in_map; assumption.
  - exact Hnd.
  - intros x _. reflexivity.
  - eapply Forall_impl; [|exact Hsc]. intros p [H1 H2]. unfold names_one_of in *.
    split; intros v Hv Ht; right.
    + rewrite Hv in H1. exact (H1 Ht).
    + rewrite Hv in H2. exact (H2 Ht).
  - intros k1 k2 v G1. discriminate G1.
Qed.
End WorkbenchProperties.

(** ** Comparisons and grounded answers of sketch-gpt5-3.py *)

Section Answers.
Import Workbench.
Context {rt : runtime}.

Notation "x <- m ;; k" := (bind m (fun x => k))
  (at level 61, m at next level, right associativity).
Notation "m ;;; k" := (bind m (fun _ => k))
  (at level 61, right associativity).

Lemma newer_than_none (v a : Z) (ops : list string) :
  a + Z.of_nat (List.length ops) <= v -> newer_than v (entries_from a ops) = [].
Proof.
  revert a. induction ops as [|op rest IH]; intros a Hv; simpl; [reflexivity|].
  simpl in Hv. destruct (v <? a + 1) eqn:E; [apply Z.ltb_lt in E; lia|].
  apply IH. lia.
Qed.

(** In a workbench whose log is whole, the entries newer than an earlier
    version are exactly those appended since. *)
Lemma diff_since (wb0 wb : Workbench) :
  log_ok wb0 -> log_step wb0 wb ->
  provenance wb = (provenance wb0 ++ newer_than (version wb0) (provenance wb))%list
  /\ Z.of_nat (List.length (newer_than (version wb0) (provenance wb)))
     = version wb - version wb0.
Proof.
  intros [ops0 [Hv0 Hp0]] [ops [Hv Hp]].
  assert (E : newer_than (version wb0) (provenance wb) = entries_from (version wb0) ops).
  { rewrite Hp, Hp0. unfold newer_than. rewrite filter_app.
    fold (newer_than (version wb0) (entries_from 0 ops0)).
    fold (newer_than (version wb0) (entries_from (version wb0) ops)).
    rewrite newer_than_none by lia. rewrite newer_than_all by lia. reflexivity. }
  rewrite E. split; [exact Hp|]. rewrite length_entries_from. lia.
Qed.

(** X15.  What a grounded answer reports (sketch-gpt5-3.py).  For a context
    begun on a workbench whose log is whole, and whatever calls have run on
    that workbench since (each only extends the log), [commit] returns; its
    [diffs] are exactly the log entries appended since [begin_answer], in
    order, so they include one [query_attr] entry for every [query] made
    through the context; [since_version] is the version at the start, and
    [final_version] is one more than [since_version] plus the number of
    [diffs], because it is read after the commit's own [diff] has bumped
    the version.  [begin_answer] and [query] return, [query] the value
    [val] reads, with one [query_attr] entry logged and the start version
    kept. *)
Theorem grounded_answer_accounts (label text : string) (wb0 wb : Workbench)
    (ctx : AnswerContext) :
  log_ok wb0 ->
  start_version ctx = version wb0 ->
  log_step wb0 wb ->
  (exists g wb',
      commit ctx text wb = (Ok g, wb')
      /\ provenance wb = (provenance wb0 ++ g_diffs g)%list
      /\ g_since_version g = version wb0
      /\ g_final_version g = g_since_version g + Z.of_nat (List.length (g_diffs g)) + 1
      /\ g_queries g = _queries ctx
      /\ logged_once "diff" wb wb')
  /\ begin_answer label wb0 = (Ok (mkContext label (version wb0) []), wb0)
  /\ (forall path,
        exists v wb1,
          query (impl:=Sketch3) ctx path wb
          = (Ok (v, mkContext (a_label ctx) (start_version ctx)
                      (_queries ctx ++ [(path, v, version wb + 1)])), wb1)
          /\ val_of (impl:=Sketch3) wb path = Ok v
          /\ logged_once "query_attr" wb wb1
          /\ log_step wb0 wb1).
Proof.
  intros Hok Hstart Hstep. split; [|split; [reflexivity|]].
  - destruct (diff_since wb0 wb Hok Hstep) as [Hp Hl].
    unfold commit. rewrite Hstart. unfold bind at 1. rewrite diff_returns.
    unfold bind, get_self, ret. eexists _, _. split; [reflexivity|]. simpl.
    split; [exact Hp|]. split; [reflexivity|]. split; [lia|].
    split; [reflexivity|]. repeat split.
  - intros path.
    destruct (query_attr_returns (impl:=Sketch3) path wb) as [v [Hv Hq]].
    exists v. eexists. unfold query. unfold bind at 1. rewrite Hq.
    unfold ret. simpl. split; [reflexivity|].
    split; [unfold val_of; rewrite Hv; reflexivity|]. split; [repeat split|].
    eapply log_step_trans; [exact Hstep|]. apply (bump_step "query_attr" wb).
Qed.

Lemma query_loop_versions (queries : list string) (row : list (string * value))
    (wb : Workbench) :
  exists row' wb',
    query_loop (impl:=Sketch3) queries row wb = (Ok row', wb')
    /\ version wb' = version wb + Z.of_nat (List.length queries)
    /\ log_step wb wb'.
Proof.
  revert row wb. induction queries as [|q rest IH]; intros row wb; simpl.
  - exists row, wb. unfold ret. split; [reflexivity|]. split; [lia|apply log_step_refl].
  - destruct (query_attr_returns (impl:=Sketch3) q wb) as [v [_ Hq]].
    unfold bind at 1. rewrite Hq.
    destruct (IH (Dict.set q (snd (fst (q, v, version wb + 1))) row)
                (with_log wb (version wb + 1)
                   (provenance wb ++ [mkEntry "query_attr" (version wb + 1)])))
      as [row' [wb' [H1 [H2 H3]]]].
    exists row', wb'. split; [exact H1|]. split.
    + rewrite H2. simpl. lia.
    + eapply log_step_trans; [apply (bump_step "query_attr" wb)|exact H3].
Qed.

Lemma log_step_version (wb wb' : Workbench) : log_step wb wb' -> version wb <= version wb'.
Proof. intros [ops [Hv _]]. lia. Qed.

(** What one scenario's row reports, run on a workbench at the base version. *)
Lemma scenario_body_counts (sc : scenario) (queries : list string)
    (kwargs : option sim_kwargs) (wb : Workbench) (row : list (string * value))
    (f : Workbench) :
  log_ok wb ->
  scenario_body (impl:=Sketch3) (version wb) sc queries kwargs wb = (Ok row, f) ->
  Dict.get "_ops_since_base" row = Some (VNum (inject_Z (version f - 1 - version wb)))
  /\ Z.of_nat (List.length queries) <= version f - 1 - version wb.
Proof.
  intros Hok H. unfold scenario_body in H.
  apply bind_ok_inv in H. destruct H as [u1 [w1 [H1 H]]].
  apply bind_ok_inv in H. destruct H as [u2 [w2 [H2 H]]].
  apply bind_ok_inv in H. destruct H as [r [w3 [H3 H]]].
  apply bind_ok_inv in H. destruct H as [d [w4 [H4 H]]].
  rewrite diff_returns in H4. injection H4 as <- <-.
  unfold ret in H. injection H as <- <-.
  assert (S1 : log_step wb w1).
  { destruct (sc_jsonl sc) as [|l ls].
    - unfold ret in H1. injection H1 as _ <-. apply log_step_refl.
    - apply bind_ok_inv in H1. destruct H1 as [o [w [Hr Hu]]].
      unfold ret in Hu. injection Hu as _ <-.
      pose proof (logs_run_lines (impl:=Sketch3) (l :: ls) [] wb) as L.
      unfold run_commands in Hr. rewrite Hr in L. exact L. }
  assert (S2 : log_step w1 w2).
  { destruct (kwargs_given kwargs) as [k|].
    - apply bind_ok_inv in H2. destruct H2 as [o [w [Hr Hu]]].
      unfold ret in Hu. injection Hu as _ <-.
      match type of Hr with
      | simulate ?t ?u ?m _ = _ =>
          pose proof (logs_simulate (impl:=Sketch3) t u m w1) as L
      end.
      rewrite Hr in L. exact L.
    - unfold ret in H2. injection H2 as _ <-. apply log_step_refl. }
  match type of H3 with
  | query_loop ?qs ?r0 _ = _ =>
      destruct (query_loop_versions qs r0 w2) as [r' [w' [Q1 [Q2 Q3]]]]
  end.
  rewrite Q1 in H3. injection H3 as <- <-.
  assert (S3 : log_step wb w') by
    (eapply log_step_trans; [exact S1|eapply log_step_trans; [exact S2|exact Q3]]).
  destruct (diff_since wb w' Hok S3) as [_ Hl].
  apply log_step_version in S1. apply log_step_version in S2.
  split.
  - rewrite get_set_same. simpl. rewrite Hl. repeat f_equal. lia.
  - simpl. lia.
Qed.

Lemma compare_loop_rows bv queries kwargs scs results wb rows wb' :
  compare_loop (impl:=Sketch3) bv queries kwargs scs results wb = (Ok rows, wb') ->
  exists new,
    rows = (results ++ new)%list
    /\ Forall2 (fun sc row =>
                  exists f, scenario_body (impl:=Sketch3) bv sc queries kwargs wb
                            = (Ok row, f)) scs new.
Proof.
  revert results. induction scs as [|sc rest IH]; intros results H; simpl in H.
  - unfold ret in H. injection H as <- _. exists []. rewrite app_nil_r.
    split; [reflexivity|constructor].
  - unfold bind at 1, fork, get_self in H. unfold bind at 1, call_on in H.
    destruct (scenario_body bv sc queries kwargs wb) as [[row|e] f] eqn:B;
      [|discriminate H].
    simpl in H. apply IH in H. destruct H as [new [-> HF]].
    exists (row :: new). rewrite <- app_assoc. split; [reflexivity|].
    constructor; [exists f; exact B|exact HF].
Qed.


End Answers.

(** ** Snapshots of sketch-gpt5-0.py *)

Section Snapshots.
Import Workbench.
Context {rt : runtime}.



(** X20.  Asserting and removing a constraint (sketch-gpt5-0.py).  Under
    an id no constraint has, [assert_constraint] returns that id, and
    [remove_constraint] of it then returns it as removed and leaves the
    constraint dict exactly as it was before the two calls, entries and
    order; nodes, edges, rules and snapshots were never touched and the
    version has gone up by two.  Removing the id once more finds nothing:
    it returns [None] as removed and changes nothing, not even the
    version. *)
Theorem constraint_round_trip (tgt ex id uuid : string) (str : Q) (nt : option string)
    (wb : Workbench) :
  Dict.mem id (constraints wb) = false ->
  exists wb1 wb2,
    assert_constraint (impl:=Sketch0) tgt ex str nt (Some id) uuid wb = (Ok (RId id), wb1)
    /\ Dict.get id (constraints wb1) = Some (mkConstraint id tgt ex str nt)
    /\ remove_constraint id wb1 = (Ok (RRemoved (Some id)), wb2)
    /\ constraints wb2 = constraints wb
    /\ nodes wb2 = nodes wb /\ edges wb2 = edges wb /\ rules wb2 = rules wb
    /\ snapshots wb2 = snapshots wb
    /\ version wb2 = version wb + 2
    /\ remove_constraint id wb2 = (Ok (RRemoved None), wb2).
Proof.
  intros Hm.
  set (c := mkConstraint id tgt ex str nt).
  set (wb1 := with_log (with_constraints wb (Dict.set id c (constraints wb)))
                (version wb + 1)
                (provenance wb ++ [mkEntry "assert_constraint" (version wb + 1)])).
  set (wb2 := with_log (with_constraints wb1 (Dict.del id (constraints wb1)))
                (version wb1 + 1)
                (provenance wb1 ++ [mkEntry "remove_constraint" (version wb1 + 1)])).
  assert (H1 : Dict.mem id (constraints wb1) = true).
  { change (constraints wb1) with (Dict.set id c (constraints wb)).
    rewrite mem_set, String.eqb_refl. reflexivity. }
  assert (H2 : constraints wb2 = constraints wb).
  { change (constraints wb2) with (Dict.del id (Dict.set id c (constraints wb))).
    apply del_set_fresh. exact Hm. }
  exists wb1, wb2. split.
  { unfold assert_constraint, _bump, bind, ret, raise, get_self, put_self.
    rewrite Hm. reflexivity. }
  split; [apply get_set_same|]. split.
  { unfold remove_constraint, _bump, bind, ret, get_self, put_self.
    rewrite H1. reflexivity. }
  split; [exact H2|]. split; [reflexivity|]. split; [reflexivity|].
  split; [reflexivity|]. split; [reflexivity|]. split; [simpl; lia|].
  unfold remove_constraint, bind, ret, get_self. rewrite H2, Hm. reflexivity.
Qed.

End Snapshots.



(** ** Closed examples on the demo workbench *)

(** Each kind of evaluation failure raises inside [eval] and comes out of
    [_safe_eval] as [None]: an unknown name, a wrong arity, a type error, a
    division by zero, and arithmetic on a missing path. *)
Example eval_failures_by_kind :
  map (fun src => (option_map exn_cls
                     match Workbench.py_eval (rt:=demo_runtime) (impl:=Sketch0) src
                             (demo_wb Sketch0) with
                     | Raise e => Some e
                     | Ok _ => None
                     end,
                   Workbench.safe_eval_of (rt:=demo_runtime) (impl:=Sketch0)
                     (demo_wb Sketch0) src))
    ["nope(1)"; "abs()"; "'a' - 1"; "1/0"; "val('ghost.x') * 2"; "1 +"]
  = [(Some NameError, Ok VNone); (Some TypeError, Ok VNone);
     (Some TypeError, Ok VNone); (Some ZeroDivisionError, Ok VNone);
     (Some TypeError, Ok VNone); (Some SyntaxError, Ok VNone)].
Proof. vm_compute. reflexivity. Qed.


(** C7, as the specification states it, fails.  With the default threshold 0
    the first tick writes [b.y] and the second finds nothing to do, so its
    delta 0 is at most the threshold; the specified rule stops there, after
    2 ticks, while [simulate] takes a third. *)
Lemma simulate_stopping_counterexample :
  fst (Workbench.simulate (rt:=demo_runtime) (impl:=Sketch3) 5 0 None (demo_wb Sketch3))
  = Ok (3, 1)
  /\ fst (Workbench.steps_as_specified (rt:=demo_runtime) (impl:=Sketch3) 5 0 None 0
            (demo_wb Sketch3))
     = Ok 2.
Proof. split; vm_compute; reflexivity. Qed.

Lemma simulate_stopping_rule_witness :
  exists wb1,
    Workbench.sim_run (rt:=demo_runtime) (impl:=Sketch3) 0 5 None (demo_wb Sketch3) 3 1 wb1
    /\ snd (Workbench.simulate (rt:=demo_runtime) (impl:=Sketch3) 5 0 None (demo_wb Sketch3))
       = snd (Workbench._bump "simulate" wb1).
Proof.
  apply (proj1 (simulate_stopping_rule (rt:=demo_runtime) (impl:=Sketch3) 5 0
                  (demo_wb Sketch3)
                  (snd (Workbench.simulate (rt:=demo_runtime) (impl:=Sketch3) 5 0 None
                          (demo_wb Sketch3)))
                  3 1)).
  vm_compute. reflexivity.
Defined.

(** C1, as the specification states it, fails: a line that is not JSON
    between two valid lines makes [run_commands] raise, and the batch
    returns no records at all. *)
Lemma batch_abort_counterexample :
  ~ Workbench.batch_never_aborts_as_specified (rt:=demo_runtime) (impl:=Sketch3).
Proof.
  intros H.
  destruct (H [Workbench.Call (Workbench.CreateNode "Claim" (Some "c1") None "");
               Workbench.NotJson;
               Workbench.Call (Workbench.QueryAttr "c1.score")]
              Workbench.init) as [outs [wb' E]].
  vm_compute in E. discriminate E.
Qed.

Lemma run_commands_isolates_failures_witness :
  exists outs wb',
    Workbench.run_commands (rt:=demo_runtime) (impl:=Sketch3) three_lines Workbench.init
    = (Ok outs, wb')
    /\ Workbench.batch (rt:=demo_runtime) (impl:=Sketch3) three_lines Workbench.init outs wb'.
Proof.
  exact (proj1 (run_commands_isolates_failures (rt:=demo_runtime) (impl:=Sketch3)
                  three_lines Workbench.init eq_refl)).
Defined.

(** One invalid op between two valid ops: in sketch-gpt5-3.py the records
    carry [ok] true, false, true, and the middle one the text "unknown op";
    in sketch-gpt5-0.py the middle record has no [ok] key and its text names
    the op. *)
Example one_invalid_op_between_two_valid :
  (let outs := fst (Workbench.run_commands (rt:=demo_runtime) (impl:=Sketch3)
                      three_lines Workbench.init) in
   match outs with
   | Ok rs => (map Workbench.o_ok rs, map Workbench.o_error rs)
   | Raise _ => ([], [])
   end
   = ([Some true; Some false; Some true],
      [None; Some (Workbench.Literal "unknown op"); None]))
  /\ (let outs := fst (Workbench.run_commands (rt:=demo_runtime) (impl:=Sketch0)
                         three_lines Workbench.init) in
      match outs with
      | Ok rs => (map Workbench.o_ok rs, map Workbench.o_error rs)
      | Raise _ => ([], [])
      end
      = ([Some true; None; Some true],
         [None; Some (Workbench.Literal "Unknown op: frobnicate"); None])).
Proof. split; vm_compute; reflexivity. Qed.



(** ** Branch collapse (gpt5-synthesis-2.py) *)

Section Collapse.
Import Synthesis2.

Lemma HIv_same (x : Q) : HIv x x = (x, x).
Proof.
  unfold HIv. destruct (Qle_bool x x) eqn:E; [reflexivity|].
  assert (H : Qle_bool x x = true) by (apply Qle_bool_iff, Qle_refl).
  congruence.
Qed.

Lemma weigh_counted (bs : list branch) (mids widths : list Q) (total_c : Q) :
  weigh bs (mids, widths, total_c)
  = ((mids ++ map weighted_mid (filter counted bs))%list,
     (widths ++ map weighted_width (filter counted bs))%list,
     fold_left Qplus (map b_confidence (filter counted bs)) total_c).
Proof.
  revert mids widths total_c.
  induction bs as [|b rest IH]; intros mids widths total_c.
  - simpl. rewrite !app_nil_r. reflexivity.
  - cbn [weigh filter].
    assert (Hc : counted b
                 = match b_value b with HInterval _ _ | HNum _ => true | _ => false end)
      by reflexivity.
    assert (Hm : weighted_mid b
                 = (mid (fst (bounds b)) (snd (bounds b)) * b_confidence b)%Q)
      by reflexivity.
    assert (Hw : weighted_width b
                 = (width (fst (bounds b)) (snd (bounds b)) * b_confidence b)%Q)
      by reflexivity.
    unfold bounds in Hm, Hw.
    destruct (b_value b) as [|h|x|lo hi|s|l]; cbn [to_interval];
      try rewrite HIv_same; rewrite Hc; try apply IH;
      rewrite IH; cbn [map fold_left fst snd] in *; rewrite Hm, Hw, <- !app_assoc;
      reflexivity.
Qed.

Lemma choose_weighted_mean (b0 : branch) (rest : list branch) :
  choose WeightedMean b0 rest
  = if Qeq_bool (qsum (map b_confidence (filter counted (b0 :: rest)))) 0
    then b0
    else mkBranch "weighted" (mean_interval counted (b0 :: rest))
           "Weighted collapse of branches" 1 [].
Proof.
  unfold choose. rewrite weigh_counted. cbn [app].
  fold (qsum (map b_confidence (filter counted (b0 :: rest)))).
  destruct (Qeq_bool _ 0); [reflexivity|].
  unfold mean_interval. cbv zeta.
  destruct (HIv _ _). reflexivity.
Qed.

Lemma committed_after_set_attr path ent key v source meaning wb :
  split_dot path = Some (ent, key) ->
  (exists n, Dict.get ent (nodes wb) = Some n) ->
  exists wb',
    set_attr path v source meaning wb = (Ok tt, wb')
    /\ committed ent key wb' = Some v.
Proof.
  intros Hs [n Hn]. unfold set_attr. rewrite Hs, Hn.
  eexists. split; [reflexivity|].
  unfold committed, _bump. simpl. rewrite get_set_same. simpl.
  apply get_set_same.
Qed.

(** C9, as amended.  Under [weighted_mean] the candidates counted are those
    whose value is an Interval or a number, a number standing for the
    degenerate Interval; every other candidate is left out.  When the counted
    confidences do not sum to 0 the committed value is the Interval rebuilt
    from the confidence-weighted mean of the counted midpoints and of the
    counted widths; when they do, the first candidate is committed as it is. *)
Theorem weighted_mean_collapse (path ent key : string) (wb : HybridWB) (n : Node)
    (bs : list (string * list branch)) (b0 : branch) (rest : list branch) :
  split_dot path = Some (ent, key) ->
  Dict.get ent (nodes wb) = Some n ->
  Dict.get "branches" (attrs n) = Some (HBranches bs) ->
  Dict.get key bs = Some (b0 :: rest) ->
  exists chosen wb',
    collapse_branches path WeightedMean wb = (Ok (Some chosen), wb')
    /\ committed ent key wb' = Some (b_value chosen)
    /\ b_value chosen
       = if Qeq_bool (qsum (map b_confidence (filter counted (b0 :: rest)))) 0
         then b_value b0
         else mean_interval counted (b0 :: rest).
Proof.
  intros Hs Hn Hb Hk. unfold collapse_branches. rewrite Hs, Hn, Hb, Hk.
  destruct (committed_after_set_attr path ent key
              (b_value (choose WeightedMean b0 rest))
              ("collapse:" ++ policy_name WeightedMean)
              (Some ("Collapsed from branches via " ++ policy_name WeightedMean))
              wb Hs (ex_intro _ n Hn)) as [wb' [Hset Hc]].
  rewrite Hset. exists (choose WeightedMean b0 rest), wb'.
  split; [reflexivity|]. split; [exact Hc|].
  rewrite choose_weighted_mean. destruct (Qeq_bool _ 0); reflexivity.
Qed.

End Collapse.

(** ** Forking and collapsing (gpt5-synthesis-2.py) *)

Section Forks.
Import Synthesis2.

Lemma add_candidate_effect tp key entry n n' :
  add_candidate tp key entry n = Ok n' ->
  recorded key n' = (recorded key n ++ [entry])%list
  /\ (forall k', k' <> key -> recorded k' n' = recorded k' n)
  /\ (forall k, k <> "branches" -> Dict.get k (attrs n') = Dict.get k (attrs n))
  /\ (exists bs, Dict.get "branches" (attrs n') = Some (HBranches bs))
  /\ n_id n' = n_id n /\ n_type n' = n_type n
  /\ history n'
     = (history n ++ [mkHistory tp HNone (b_value entry) ("fork:" ++ b_name entry)
                        (Some (b_metaphor entry))])%list
  /\ semantics n' = (semantics n ++ [b_metaphor entry])%list.
Proof.
  unfold add_candidate, recorded. intros H.
  destruct (Dict.get "branches" (attrs n)) as [v|] eqn:E.
  - destruct v; try discriminate H. injection H as <-. simpl.
    rewrite get_set_same, get_set_same. repeat split; eauto.
    + intros k' Hk. rewrite get_set_other by exact Hk. reflexivity.
    + intros k Hk. apply get_set_other. exact Hk.
  - injection H as <-. simpl.
    rewrite get_set_same. simpl. rewrite String.eqb_refl. repeat split; eauto.
    + intros k' Hk. apply String.eqb_neq in Hk. rewrite Hk. reflexivity.
    + intros k Hk. apply get_set_other. exact Hk.
Qed.

Lemma fork_loop_effect tp key entries n out out' n' :
  fork_loop tp key entries n out = (Ok out', n') ->
  out' = (out ++ entries)%list
  /\ recorded key n' = (recorded key n ++ entries)%list
  /\ (forall k', k' <> key -> recorded k' n' = recorded k' n)
  /\ (forall k, k <> "branches" -> Dict.get k (attrs n') = Dict.get k (attrs n))
  /\ n_id n' = n_id n /\ n_type n' = n_type n
  /\ List.length (history n') = (List.length (history n) + List.length entries)%nat
  /\ semantics n' = (semantics n ++ map b_metaphor entries)%list.
Proof.
  revert n out. induction entries as [|entry rest IH]; intros n out H; simpl in H.
  - injection H as <- <-. rewrite !app_nil_r, Nat.add_0_r. repeat split; auto.
  - destruct (add_candidate tp key entry n) as [n1|e] eqn:A; [|discriminate H].
    apply add_candidate_effect in A.
    destruct A as [A1 [A2 [A3 [_ [A5 [A6 [A7 A8]]]]]]].
    apply IH in H. destruct H as [H1 [H2 [H3 [H4 [H5 [H6 [H7 H8]]]]]]].
    split; [rewrite H1, <- app_assoc; reflexivity|].
    split; [rewrite H2, A1, <- app_assoc; reflexivity|].
    split; [intros k' Hk; rewrite H3, A2 by exact Hk; reflexivity|].
    split; [intros k Hk; rewrite H4, A3 by exact Hk; reflexivity|].
    split; [congruence|]. split; [congruence|].
    split; [rewrite H7, A7, length_app; simpl; lia|].
    rewrite H8, A8, <- app_assoc. reflexivity.
Qed.

Lemma interpret_confidences (context : list string) :
  (qsum (map (fun named => r_confidence (snd named)) (interpret context)) == 1)%Q.
Proof.
  unfold interpret.
  destruct (existsb _ context); [reflexivity|].
  destruct (existsb _ context); reflexivity.
Qed.

Lemma get_set_node (ent e : string) (n' : Node) (ns : list (string * Node)) (n : Node) :
  Dict.get ent ns = Some n ->
  Dict.get e (Dict.set ent n' ns) = if String.eqb e ent then Some n' else Dict.get e ns.
Proof.
  intros _. destruct (String.eqb e ent) eqn:E.
  - apply String.eqb_eq in E. subst e. apply get_set_same.
  - apply String.eqb_neq in E. apply get_set_other. exact E.
Qed.

(** X12.  A fork records hypotheses and commits nothing.  When
    [apply_metaphor_fork] returns, the source path has been read with [val]
    and the target path names a node; the entries returned are the
    readings [interpret] gives for the context, in its order, each holding
    the source value under its transform; they have been appended to the
    candidates of the target attribute, whose earlier candidates are all
    still there.  No other candidate list has changed and no attribute of
    any node other than ["branches"] has changed: the target attribute
    itself is as it was.  The version has gone up by one, whatever the
    number of entries, and the confidences of the entries sum to 1. *)
Theorem fork_records_without_committing (source_path target_path : string)
    (context : list string) (wb wb' : HybridWB) (out : list branch) :
  apply_metaphor_fork source_path target_path context wb = (Ok out, wb') ->
  exists ent key source_val,
    split_dot target_path = Some (ent, key)
    /\ val source_path wb = Ok source_val
    /\ out = map (candidate context source_val) (interpret context)
    /\ candidates ent key wb' = (candidates ent key wb ++ out)%list
    /\ (forall e k, e <> ent \/ k <> key -> candidates e k wb' = candidates e k wb)
    /\ (forall e k, k <> "branches" -> committed e k wb' = committed e k wb)
    /\ version wb' = version wb + 1
    /\ (qsum (map b_confidence out) == 1)%Q.
Proof.
  unfold apply_metaphor_fork. intros H.
  destruct (val source_path wb) as [sv|e] eqn:V; [|discriminate H].
  destruct (split_dot target_path) as [[ent key]|] eqn:S; [|discriminate H].
  destruct (Dict.get ent (nodes wb)) as [n|] eqn:N; [|discriminate H].
  destruct (fork_loop _ _ _ n []) as [[o|e] n'] eqn:F; [|discriminate H].
  injection H as <- <-. apply fork_loop_effect in F.
  destruct F as [F1 [F2 [F3 [F4 _]]]]. simpl in F1. subst o.
  exists ent, key, sv. repeat split; auto.
  - unfold candidates. simpl. rewrite get_set_same, N. exact F2.
  - intros e k Hek. unfold candidates. simpl. rewrite (get_set_node _ _ _ _ _ N).
    destruct (String.eqb e ent) eqn:E; [|reflexivity].
    apply String.eqb_eq in E. subst e. rewrite N. apply F3.
    destruct Hek as [Hek|Hek]; [contradiction|exact Hek].
  - intros e k Hk. unfold committed. simpl. rewrite (get_set_node _ _ _ _ _ N).
    destruct (String.eqb e ent) eqn:E; [|reflexivity].
    apply String.eqb_eq in E. subst e. rewrite N. apply F4. exact Hk.
  - rewrite map_map. simpl. apply interpret_confidences.
Qed.

Lemma HIv_ordered (a b : Q) : (a <= b)%Q -> HIv a b = (a, b).
Proof.
  intros H. unfold HIv. apply Qle_bool_iff in H. rewrite H. reflexivity.
Qed.

Lemma qmin_le_qmax (a b : Q) : (qmin a b <= qmax a b)%Q.
Proof.
  unfold qmin, qmax. destruct (Qlt_bool b a) eqn:E1, (Qlt_bool a b) eqn:E2;
    unfold Qlt_bool in *; rewrite ?negb_true_iff, ?negb_false_iff in *;
    repeat match goal with
           | H : Qle_bool _ _ = true |- _ => apply Qle_bool_iff in H
           | H : Qle_bool _ _ = false |- _ =>
               apply not_true_iff_false in H; rewrite Qle_bool_iff in H
           end; lra.
Qed.


Lemma max_conf_first (b : branch) (bs : list branch) :
  exists pre post,
    (b :: bs = pre ++ max_conf b bs :: post)%list
    /\ Forall (fun c => (b_confidence c < b_confidence (max_conf b bs))%Q) pre
    /\ Forall (fun c => (b_confidence c <= b_confidence (max_conf b bs))%Q) post.
Proof.
  unfold max_conf.
  assert (G : forall bs best pre post,
             Forall (fun c => (b_confidence c < b_confidence best)%Q) pre ->
             Forall (fun c => (b_confidence c <= b_confidence best)%Q) post ->
             let m := fold_left (fun best c =>
                                   if Qlt_bool (b_confidence best) (b_confidence c)
                                   then c else best) bs best in
             exists pre' post',
               (pre ++ best :: post ++ bs = pre' ++ m :: post')%list
               /\ Forall (fun c => (b_confidence c < b_confidence m)%Q) pre'
               /\ Forall (fun c => (b_confidence c <= b_confidence m)%Q) post').
  { clear. induction bs as [|c rest IH]; intros best pre post Hpre Hpost; simpl.
    - exists pre, post. rewrite app_nil_r. auto.
    - destruct (Qlt_bool (b_confidence best) (b_confidence c)) eqn:E.
      + apply Qlt_bool_iff in E.
        destruct (IH c (pre ++ best :: post)%list []) as [pre' [post' [H1 [H2 H3]]]].
        * apply Forall_app. split.
          -- eapply Forall_impl; [|exact Hpre]. intros a Ha. simpl in Ha. lra.
          -- constructor; [exact E|].
             eapply Forall_impl; [|exact Hpost]. intros a Ha. simpl in Ha. lra.
        * constructor.
        * exists pre', post'. split; [|auto]. rewrite <- H1. simpl.
          rewrite <- !app_assoc. simpl. reflexivity.
      + apply Qlt_bool_false in E.
        destruct (IH best pre (post ++ [c])%list Hpre) as [pre' [post' [H1 [H2 H3]]]].
        * apply Forall_app. split; [exact Hpost|]. constructor; [exact E|constructor].
        * exists pre', post'. split; [|auto]. rewrite <- H1.
          rewrite <- !app_assoc. simpl. reflexivity. }
  destruct (G bs b [] [] (Forall_nil _) (Forall_nil _)) as [pre [post [H1 [H2 H3]]]].
  exists pre, post. simpl in H1. auto.
Qed.

(** X14.  Collapsing commits one value and keeps the hypotheses.  For an
    attribute other than ["branches"] with at least one candidate,
    [collapse_branches] returns the candidate [choose] settles on and
    commits its value, which [val] then reads (an [Unknown] reads as
    [None]).  Under [max_conf] the chosen one is a recorded candidate no
    other exceeds in confidence, and the first such in recording order;
    under an unknown method it is the first candidate.  The candidates
    stay recorded as they were, so collapsing again, under the same
    method, chooses the same again.  The version goes up by one. *)
Theorem collapse_keeps_candidates (path ent key : string) (method : policy)
    (wb : HybridWB) (b0 : branch) (rest : list branch) :
  split_dot path = Some (ent, key) ->
  key <> "branches" ->
  candidates ent key wb = b0 :: rest ->
  exists chosen wb',
    collapse_branches path method wb = (Ok (Some chosen), wb')
    /\ chosen = choose method b0 rest
    /\ committed ent key wb' = Some (b_value chosen)
    /\ val path wb'
       = Ok (match b_value chosen with HUnknown _ => HNone | v => v end)
    /\ candidates ent key wb' = b0 :: rest
    /\ version wb' = version wb + 1
    /\ (exists wb'', collapse_branches path method wb' = (Ok (Some chosen), wb''))
    /\ (method = MaxConf ->
        exists pre post,
          (b0 :: rest = pre ++ chosen :: post)%list
          /\ Forall (fun c => (b_confidence c < b_confidence chosen)%Q) pre
          /\ Forall (fun c => (b_confidence c <= b_confidence chosen)%Q) post)
    /\ (forall name, method = OtherPolicy name -> chosen = b0).
Proof.
  intros Hs Hk Hc. unfold candidates, recorded in Hc.
  destruct (Dict.get ent (nodes wb)) as [n|] eqn:N; [|discriminate Hc].
  destruct (Dict.get "branches" (attrs n)) as [v|] eqn:B; [|discriminate Hc].
  destruct v as [| | | | |bs]; try discriminate Hc.
  destruct (Dict.get key bs) as [l|] eqn:K; [|discriminate Hc]. subst l.
  assert (Hb : "branches" <> key) by congruence.
  assert (Hrun : forall w m,
             Dict.get ent (nodes w) = Some m ->
             Dict.get "branches" (attrs m) = Some (HBranches bs) ->
             exists w',
               collapse_branches path method w
               = (Ok (Some (choose method b0 rest)), w')
               /\ committed ent key w' = Some (b_value (choose method b0 rest))
               /\ version w' = version w + 1
               /\ exists m', Dict.get ent (nodes w') = Some m'
                             /\ Dict.get "branches" (attrs m') = Some (HBranches bs)
                             /\ Dict.get key (attrs m')
                                = Some (b_value (choose method b0 rest))).
  { intros w m Hn Hbs. unfold collapse_branches, set_attr.
    rewrite Hs, Hn, Hbs, K. eexists. split; [reflexivity|].
    unfold committed, _bump. simpl. rewrite get_set_same. simpl.
    rewrite get_set_same. split; [reflexivity|]. split; [reflexivity|].
    eexists. split; [reflexivity|]. simpl.
    rewrite get_set_other by exact Hb. rewrite get_set_same. auto. }
  destruct (Hrun wb n N B) as [wb' [H1 [H2 [H3 [n' [N' [B' K']]]]]]].
  exists (choose method b0 rest), wb'.
  split; [exact H1|]. split; [reflexivity|]. split; [exact H2|].
  split; [|split; [|split; [exact H3|split; [|split]]]].
  - unfold val. rewrite Hs, N', K'. destruct (b_value _); reflexivity.
  - unfold candidates, recorded. rewrite N', B', K. reflexivity.
  - destruct (Hrun wb' n' N' B') as [wb'' [H _]]. exists wb''. exact H.
  - intros ->. simpl. apply max_conf_first.
  - intros name ->. reflexivity.
Qed.

End Forks.

Lemma weighted_mean_collapse_witness :
  exists chosen wb',
    Synthesis2.collapse_branches "emergence.trust" Synthesis2.WeightedMean branches_wb
    = (Ok (Some chosen), wb')
    /\ Synthesis2.committed "emergence" "trust" wb' = Some (Synthesis2.b_value chosen)
    /\ Synthesis2.b_value chosen
       = Synthesis2.mean_interval Synthesis2.counted two_candidates.
Proof.
  exact (weighted_mean_collapse "emergence.trust" "emergence" "trust" branches_wb
           (Synthesis2.mkNode "emergence" "Phenomenon"
              [("branches", Synthesis2.HBranches [("trust", two_candidates)])] [] [])
           [("trust", two_candidates)]
           (Synthesis2.mkBranch "flat" (Synthesis2.HNum 0) "" 1 [])
           [Synthesis2.mkBranch "wide" (Synthesis2.HInterval 1 2) "" 1 []]
           eq_refl eq_refl eq_refl eq_refl).
Defined.

(** C9, as the specification states it, fails: of a number 0 and an Interval
    [1, 2], both of confidence 1, the policy counts both and commits
    [1/2, 1]; the mean over the Interval-valued candidate alone is [1, 2]. *)
Lemma weighted_mean_counterexample :
  match fst (Synthesis2.collapse_branches "emergence.trust" Synthesis2.WeightedMean
               branches_wb) with
  | Ok (Some chosen) =>
      Synthesis2.same_interval (Synthesis2.b_value chosen)
        (Synthesis2.HInterval (1 # 2) 1) = true
      /\ Synthesis2.same_interval (Synthesis2.b_value chosen)
           (Synthesis2.mean_interval Synthesis2.interval_valued two_candidates) = false
      /\ Synthesis2.same_interval
           (Synthesis2.mean_interval Synthesis2.interval_valued two_candidates)
           (Synthesis2.HInterval 1 2) = true
  | _ => False
  end.
Proof. vm_compute. repeat split. Qed.

(** ** Reads in the minimal hybrid workbench (gpt5-synthesis-3.py) *)

(** C8 at its failing input.  In gpt5-synthesis-3.py a read of an entity
    that does not exist raises [KeyError], and a path without a dot raises
    [ValueError]; only a missing attribute of an existing node reads as
    [None]. *)
Theorem hybrid_val_raises :
  Synthesis3.val "ghost.trust" (Synthesis3.mkWB []) = Raise (Exn KeyError "ghost")
  /\ exn_cls match Synthesis3.val "trust"
                     (snd (Synthesis3.create_node "Agent" (Some "human") "" (Synthesis3.mkWB []))) with
             | Raise e => e
             | Ok _ => Exn KeyError ""
             end = ValueError
  /\ Synthesis3.val "human.trust"
       (snd (Synthesis3.create_node "Agent" (Some "human") "" (Synthesis3.mkWB [])))
     = Ok VNone.
Proof. repeat split. Qed.

(** ** Instances of the further properties *)





(** X6 at [set_attr("a.x", 5, confidence=0.9)]. *)
Lemma set_attr_then_val_witness :
  let wb' := after (Workbench.set_attr (impl:=Sketch0) "a.x" (VNum 5) (Some (9 # 10)))
               (demo_wb Sketch0) in
  Workbench.val_of (impl:=Sketch0) wb' "a.x" = Ok (VNum 5)
  /\ Workbench.val_of (impl:=Sketch0) wb' "a.x__confidence" = Ok (VNum (9 # 10))
  /\ Workbench.val_of (impl:=Sketch0) wb' "b.y"
     = Workbench.val_of (impl:=Sketch0) (demo_wb Sketch0) "b.y".
Proof.
  intros wb'.
  destruct (set_attr_then_val (impl:=Sketch0) "a.x" (VNum 5) (Some (9 # 10))
              (demo_wb Sketch0) wb' (Workbench.RSet "a" "x" (VNum 5)) eq_refl)
    as [ent [key [Hs [_ [_ [Hv [Hc Hf]]]]]]].
  injection Hs as <- <-.
  split; [exact Hv|]. split; [exact (Hc _ eq_refl)|].
  apply Hf; [discriminate|right; discriminate].
Defined.



(** X12 at the fork of the demo: after a betrayal, two readings of
    [human.trust] are recorded for [emergence.trust]. *)
Lemma fork_records_without_committing_witness :
  let r := Synthesis2.apply_metaphor_fork "human.trust" "emergence.trust" ["betrayal"]
             fork_wb in
  map Synthesis2.b_name (Synthesis2.candidates "emergence" "trust" (snd r))
  = ["pessimistic"; "resilient"]
  /\ Synthesis2.committed "emergence" "trust" (snd r) = None
  /\ Synthesis2.version (snd r) = Synthesis2.version fork_wb + 1.
Proof.
  intros r.
  destruct (fork_records_without_committing "human.trust" "emergence.trust" ["betrayal"]
              fork_wb (snd r)
              (map (Synthesis2.candidate ["betrayal"]
                      (Synthesis2.HInterval (4 # 10) (7 # 10)))
                 (Synthesis2.interpret ["betrayal"]))
              eq_refl)
    as [ent [key [sv [Hs [_ [_ [Hc [_ [Hk [Hv _]]]]]]]]]].
  injection Hs as <- <-.
  split; [rewrite Hc; reflexivity|]. split; [|exact Hv].
  rewrite Hk by discriminate. reflexivity.
Defined.


(** X14 at the two candidates of equal confidence: the first is chosen. *)
Lemma collapse_keeps_candidates_witness :
  exists chosen wb',
    Synthesis2.collapse_branches "emergence.trust" Synthesis2.MaxConf branches_wb
    = (Ok (Some chosen), wb')
    /\ Synthesis2.b_name chosen = "flat"
    /\ Synthesis2.candidates "emergence" "trust" wb' = two_candidates.
Proof.
  destruct (collapse_keeps_candidates "emergence.trust" "emergence" "trust"
              Synthesis2.MaxConf branches_wb
              (Synthesis2.mkBranch "flat" (Synthesis2.HNum 0) "" 1 [])
              [Synthesis2.mkBranch "wide" (Synthesis2.HInterval 1 2) "" 1 []]
              eq_refl)
    as [chosen [wb' [H1 [H2 [_ [_ [H5 _]]]]]]]; [discriminate|reflexivity|].
  exists chosen, wb'. split; [exact H1|]. split; [rewrite H2; reflexivity|exact H5].
Defined.

(** X15 after one query on the new workbench. *)
Lemma grounded_answer_accounts_witness :
  let wb := after (Workbench.query_attr (impl:=Sketch3) "a.x") Workbench.init in
  exists g wb',
    Workbench.commit (Workbench.mkContext "coffee" 0 []) "text" wb = (Ok g, wb')
    /\ Workbench.g_diffs g = [Workbench.mkEntry "query_attr" 1]
    /\ Workbench.g_final_version g = 2.
Proof.
  intros wb.
  destruct (proj1 (grounded_answer_accounts "coffee" "text" Workbench.init wb
                     (Workbench.mkContext "coffee" 0 []) log_ok_init eq_refl
                     (bump_step "query_attr" Workbench.init)))
    as [g [wb' [H1 [H2 [H3 [H4 _]]]]]].
  exists g, wb'. split; [exact H1|].
  assert (Hd : Workbench.g_diffs g = [Workbench.mkEntry "query_attr" 1])
    by (symmetry; exact H2).
  split; [exact Hd|]. rewrite H4, H3, Hd. reflexivity.
Defined.


(** X17 on the coffee graph, where [coffee->alertness:causes] is taken. *)
Lemma create_edge_derives_free_id_witness :
  exists m wb',
    Workbench.create_edge (impl:=Sketch0) "causes" "coffee" "alertness" None None
      (rules_wb Sketch0)
    = (Ok (Workbench.REdge (Workbench.derived_id "coffee" "alertness" "causes" m)
             "causes" "coffee" "alertness" []), wb')
    /\ Dict.mem (Workbench.derived_id "coffee" "alertness" "causes" m)
         (Workbench.edges (rules_wb Sketch0)) = false.
Proof.
  destruct (create_edge_derives_free_id (impl:=Sketch0) "causes" "coffee" "alertness"
              None (rules_wb Sketch0) eq_refl eq_refl)
    as [m [wb' [H1 [H2 _]]]].
  exists m, wb'. split; [exact H1|exact H2].
Defined.


(** X19 at the rule of the coffee scenario: one match. *)
Lemma match_rule_binds_soundly_witness :
  Workbench._match_rule (impl:=Sketch0) linear_cause (rules_wb Sketch0)
  = [[("x", "coffee"); ("y", "alertness"); ("e", "coffee->alertness:causes")]].
Proof.
  assert (Hws : Workbench.well_scoped linear_cause).
  { split.
    - repeat constructor; simpl; intuition discriminate.
    - constructor; [|constructor]. split; intros _; simpl; auto. }
  rewrite (proj1 (match_rule_binds_soundly (impl:=Sketch0) linear_cause (rules_wb Sketch0)
                    Hws)).
  reflexivity.
Defined.

(** X20 at a second constraint on the two-node example. *)
Lemma constraint_round_trip_witness :
  exists wb1 wb2,
    Workbench.assert_constraint (impl:=Sketch0) "b.y" "1/0" 1 None (Some "c2") ""
      (demo_wb Sketch0) = (Ok (Workbench.RId "c2"), wb1)
    /\ Workbench.remove_constraint "c2" wb1 = (Ok (Workbench.RRemoved (Some "c2")), wb2)
    /\ Workbench.constraints wb2 = Workbench.constraints (demo_wb Sketch0).
Proof.
  destruct (constraint_round_trip "b.y" "1/0" "c2" "" 1 None (demo_wb Sketch0) eq_refl)
    as [wb1 [wb2 [H1 [_ [H3 [H4 _]]]]]].
  exists wb1, wb2. split; [exact H1|]. split; [exact H3|exact H4].
Defined.
